(** * statediff: type-directed state decoder and streaming marshaler

    A shallow embedding of the Go sources of the statediff repository:

    - [ResolveType], the registries [LotusTypeAliases], [LotusPrototypes]
      and [complexLoaders], [Load], [Transform] and the structure decoders
      [transform...] (package statediff, registry-based revision);
    - the earlier, switch-based revision of the same file (module [Switch]);
    - [MarshalRecursive] of codec/fcjson/marshal.go;
    - the builder and assembler of the generated node type [types.Bytes]
      (module [TypesBytes]) and the tables of actor codes.

    Go strings are byte strings: they are modelled by [string] (a list of
    8-bit [ascii] characters).  Go maps with string keys are [gmap string _].
    The [context.Context] that the Go functions pass along is left out: no
    code of the repository looks at it. *)

From stdpp Require Import base strings gmap list.
From Stdlib Require Import ZArith NArith Ascii String DecimalString.
From Stdlib Require DecimalPos DecimalN DecimalZ.

Local Open Scope string_scope.
Set Warnings "-register-all".

(** ** Regular expressions of the resolver

    The resolver uses two fixed patterns, [\[\d+\]] and [\.\d+\.]: an opening
    byte, one or more ASCII digits, a closing byte.  [\d+] is greedy and the
    closing byte is not a digit, so a match anchored at a position, when there
    is one, takes the whole run of digits. *)

Definition isDigit (c : ascii) : bool :=
  let n := N_of_ascii c in (N.leb 48 n && N.leb n 57)%bool.

Fixpoint digitRun (s : string) : nat :=
  match s with
  | String c s' => if isDigit c then S (digitRun s') else 0
  | EmptyString => 0
  end.

(** Length of the match of [op \d+ cl] anchored at the head of [s]. *)
Definition matchAt (op cl : ascii) (s : string) : option nat :=
  match s with
  | String c s' =>
      if Ascii.eqb c op then
        let n := digitRun s' in
        match n, String.get n s' with
        | S _, Some c' => if Ascii.eqb c' cl then Some (S (S n)) else None
        | _, _ => None
        end
      else None
  | EmptyString => None
  end.

(** [regexp.ReplaceAll] for such a pattern: scan from the left; at a match,
    emit the replacement and resume after the match (matches do not overlap);
    elsewhere copy the byte.  [skip] counts the bytes of the current match
    still to be dropped. *)
Fixpoint replaceAllFrom (op cl : ascii) (repl : string) (skip : nat) (s : string) : string :=
  match s with
  | EmptyString => EmptyString
  | String c s' =>
      match skip with
      | S k => replaceAllFrom op cl repl k s'
      | O =>
          match matchAt op cl s with
          | Some n => repl ++ replaceAllFrom op cl repl (pred n) s'
          | None => String c (replaceAllFrom op cl repl 0 s')
          end
      end
  end.

Definition ReplaceAll (op cl : ascii) (s repl : string) : string :=
  replaceAllFrom op cl repl 0 s.

(** Is there a match of [op \d+ cl] anywhere in [s]? *)
Fixpoint hasMatch (op cl : ascii) (s : string) : bool :=
  match s with
  | EmptyString => false
  | String _ s' =>
      match matchAt op cl s with
      | Some _ => true
      | None => hasMatch op cl s'
      end
  end.

(** [simplifyingRe = \[\d+\]] and [simplifyingRe2 = \.\d+\.]. *)
Definition simplifyingRe_ReplaceAll : string -> string -> string := ReplaceAll "[" "]".
Definition simplifyingRe2_ReplaceAll : string -> string -> string := ReplaceAll "." ".".

(** [strings.ReplaceAll(s, "/", ".")]. *)
Fixpoint strings_ReplaceAll_slash_dot (s : string) : string :=
  match s with
  | EmptyString => EmptyString
  | String c s' =>
      String (if Ascii.eqb c "/" then "."%char else c) (strings_ReplaceAll_slash_dot s')
  end.

(** ** LotusType *)

Definition LotusType := string.

Definition LotusTypeTipset : LotusType := "tipset".
Definition LotusTypeStateroot : LotusType := "stateRoot".
Definition AccountActorState : LotusType := "accountActor".
Definition CronActorState : LotusType := "cronActor".
Definition InitActorState : LotusType := "initActor".
Definition InitActorAddresses : LotusType := "initActorAddresses".
Definition MarketActorState : LotusType := "storageMarketActor".
Definition MarketActorProposals : LotusType := "storageMarketActor.Proposals".
Definition MarketActorStates : LotusType := "storageMarketActor.States".
Definition MarketActorPendingProposals : LotusType := "storageMarketActor.PendingProposals".
Definition MarketActorEscrowTable : LotusType := "storageMarketActor.EscrowTable".
Definition MarketActorLockedTable : LotusType := "storageMarketActor.LockedTable".
Definition MarketActorDealOpsByEpoch : LotusType := "storageMarketActor.DealOpsByEpoch".
Definition MultisigActorState : LotusType := "multisigActor".
Definition MultisigActorPending : LotusType := "multisigActor.PendingTxns".
Definition StorageMinerActorState : LotusType := "storageMinerActor".
Definition StorageMinerActorInfo : LotusType := "storageMinerActor.Info".
Definition StorageMinerActorVestingFunds : LotusType := "storageMinerActor.VestingFunds".
Definition StorageMinerActorPreCommittedSectors : LotusType :=
  "storageMinerActor.PreCommittedSectors".
Definition StorageMinerActorPreCommittedSectorsExpiry : LotusType :=
  "storageMinerActor.PreCommittedSectorsExpiry".
Definition StorageMinerActorAllocatedSectors : LotusType := "storageMinerActor.AllocatedSectors".
Definition StorageMinerActorSectors : LotusType := "storageMinerActor.Sectors".
Definition StorageMinerActorDeadlines : LotusType := "storageMinerActor.Deadlines".
Definition StorageMinerActorDeadline : LotusType := "storageMinerActor.Deadlines.Due".
Definition StorageMinerActorDeadlinePartitions : LotusType :=
  "storageMinerActor.Deadlines.Due.Partitions".
Definition StorageMinerActorDeadlinePartitionExpiry : LotusType :=
  "storageMinerActor.Deadlines.Due.Partitions.ExpirationsEpochs".
Definition StorageMinerActorDeadlinePartitionEarly : LotusType :=
  "storageMinerActor.Deadlines.Due.Partitions.EarlyTerminated".
Definition StorageMinerActorDeadlineExpiry : LotusType :=
  "storageMinerActor.Deadlines.Due.ExpirationsEpochs".
Definition StoragePowerActorState : LotusType := "storagePowerActor".
Definition StoragePowerActorCronEventQueue : LotusType := "storagePowerCronEventQueue".
Definition StoragePowerActorClaims : LotusType := "storagePowerClaims".
Definition RewardActorState : LotusType := "rewardActor".
Definition VerifiedRegistryActorState : LotusType := "verifiedRegistryActor".
Definition VerifiedRegistryActorVerifiers : LotusType := "verifiedRegistryActor.Verifiers".
Definition VerifiedRegistryActorVerifiedClients : LotusType :=
  "verifiedRegistryActor.VerifiedClients".
Definition PaymentChannelActorState : LotusType := "paymentChannelActor".
Definition PaymentChannelActorLaneStates : LotusType := "paymentChannelActor.LaneStates".

(** [LotusTypeAliases] lists non-direct mapped aliases. *)
Definition LotusTypeAliases : gmap string LotusType :=
  list_to_map
    [ ("tipset.ParentStateRoot", LotusTypeStateroot);
      ("initActor.AddressMap", InitActorAddresses);
      ("storagePowerActor.CronEventQueue", StoragePowerActorCronEventQueue);
      ("storagePowerActor.Claims", StoragePowerActorClaims);
      ("storageMinerActor.Deadlines.Due.ExpirationEpochs", StorageMinerActorDeadlineExpiry);
      ("storageMinerActor.Deadlines.Due.Partitions.ExpirationEpochs",
        StorageMinerActorDeadlinePartitionExpiry) ].

(** The bytes of [as] after the separator and index normalisations. *)
Definition normalizePath (as_ : string) : string :=
  let as_ := strings_ReplaceAll_slash_dot as_ in
  simplifyingRe2_ReplaceAll (simplifyingRe_ReplaceAll as_ "") ".".

(** [ResolveType] maps incoming type strings to enum known types. *)
Definition ResolveType (as_ : string) : LotusType :=
  let as_ := normalizePath as_ in
  match LotusTypeAliases !! as_ with
  | Some alias => alias
  | None => as_
  end.

(** No ['/'] byte occurs in [s]. *)
Fixpoint noSlash (s : string) : bool :=
  match s with
  | EmptyString => true
  | String c s' => (negb (Ascii.eqb c "/") && noSlash s')%bool
  end.

(** ** Errors, results and raw data *)

(** A Go [error] is represented by its message. *)
Definition error := string.

(** What a Go call yields: a value, a returned [error], or a [panic]. *)
Inductive result (A : Type) : Type :=
| Ok (a : A)
| Err (e : error)
| Panic (msg : string).
Arguments Ok {A} a.
Arguments Err {A} e.
Arguments Panic {A} msg.

(** [[]byte]. *)
Definition bytes := list Byte.byte.

(** [[]byte(s)] and [string(b)]. *)
Definition bytes_of_string (s : string) : bytes := list_byte_of_string s.
Definition string_of_bytes (b : bytes) : string := string_of_list_byte b.

(** [big.NewInt(0).SetBytes(b)]: the bytes read as a big-endian unsigned integer. *)
Definition SetBytes (b : bytes) : N :=
  fold_left (fun acc x => (acc * 256 + Byte.to_N x)%N) b 0%N.

(** [String()] of a non-negative [big.Int]: its decimal digits. *)
Definition big_String (n : N) : string := NilZero.string_of_uint (N.to_uint n).

(** [fmt.Sprintf("%d", k)] for an [int64]. *)
Definition Sprintf_d (k : Z) : string := NilZero.string_of_int (Z.to_int k).

(** [int(key)] for a [uint64] on a 64-bit platform: two's complement wrap-around. *)
Definition int_of_uint64 (k : Z) : Z :=
  if (k <? 2 ^ 63)%Z then k else (k - 2 ^ 64)%Z.

(** [cid.Cid] is a struct holding the binary form of the identifier. *)
Record Cid := { str : string }.

#[global] Instance Cid_eq_dec : EqDecision Cid.
Proof. solve_decision. Defined.

(** The block store: [Get(cid)] gives the raw data of the block or an error. *)
Definition Blockstore := Cid -> result bytes.

(** ** Typed nodes *)

(** The Go types of package [types] that the codec tells apart. *)
Inductive StringType := types_String | types_RawAddress | types_CidString.
Inductive BytesType := types_Bytes | types_Address | types_BigInt | types_BitField.

Inductive Link :=
| cidlink_Link (c : Cid)
| other_Link (description : string).

(** IEEE-754 binary64 values, by their bit pattern. *)
Definition float64 := Z.

Inductive Node :=
| Absent
| Null
| MapNode (entries : list (Node * Node))
| ListNode (elems : list Node)
| BoolNode (b : bool)
| IntNode (i : Z)
| FloatNode (f : float64)
| StringNode (ty : StringType) (s : string)
| BytesNode (ty : BytesType) (b : bytes)
| LinkNode (l : Link).

Inductive ReprKind :=
| ReprKind_Invalid | ReprKind_Null | ReprKind_Map | ReprKind_List | ReprKind_Bool
| ReprKind_Int | ReprKind_Float | ReprKind_String | ReprKind_Bytes | ReprKind_Link.

Definition Node_ReprKind (n : Node) : ReprKind :=
  match n with
  | Absent => ReprKind_Invalid
  | Null => ReprKind_Null
  | MapNode _ => ReprKind_Map
  | ListNode _ => ReprKind_List
  | BoolNode _ => ReprKind_Bool
  | IntNode _ => ReprKind_Int
  | FloatNode _ => ReprKind_Float
  | StringNode _ _ => ReprKind_String
  | BytesNode _ _ => ReprKind_Bytes
  | LinkNode _ => ReprKind_Link
  end.

Definition AsString (n : Node) : result string :=
  match n with
  | StringNode _ s => Ok s
  | _ => Err "func called on wrong kind: AsString"
  end.

(** ** Node prototypes

    A prototype of package [types] is an empty struct, so its identity is its
    name; [types.Type.X__Repr] is written [types.X__Repr]. *)

Definition NodePrototype := string.

Module types.
Definition LotusBlockHeader__Repr : NodePrototype := "LotusBlockHeader__Repr".
Definition AccountV0State__Repr : NodePrototype := "AccountV0State__Repr".
Definition CronV0State__Repr : NodePrototype := "CronV0State__Repr".
Definition InitV0State__Repr : NodePrototype := "InitV0State__Repr".
Definition MarketV0State__Repr : NodePrototype := "MarketV0State__Repr".
Definition MultisigV0State__Repr : NodePrototype := "MultisigV0State__Repr".
Definition MinerV0State__Repr : NodePrototype := "MinerV0State__Repr".
Definition MinerV0Info__Repr : NodePrototype := "MinerV0Info__Repr".
Definition MinerV0VestingFunds__Repr : NodePrototype := "MinerV0VestingFunds__Repr".
Definition BitField__Repr : NodePrototype := "BitField__Repr".
Definition MinerV0Deadlines__Repr : NodePrototype := "MinerV0Deadlines__Repr".
Definition MinerV0Deadline__Repr : NodePrototype := "MinerV0Deadline__Repr".
Definition PowerV0State__Repr : NodePrototype := "PowerV0State__Repr".
Definition RewardV0State__Repr : NodePrototype := "RewardV0State__Repr".
Definition VerifregV0State__Repr : NodePrototype := "VerifregV0State__Repr".
Definition PaychV0State__Repr : NodePrototype := "PaychV0State__Repr".
Definition Map__LotusActors__Repr : NodePrototype := "Map__LotusActors__Repr".
Definition Map__ActorID__Repr : NodePrototype := "Map__ActorID__Repr".
Definition Map__SectorPreCommitOnChainInfo__Repr : NodePrototype :=
  "Map__SectorPreCommitOnChainInfo__Repr".
Definition Map__BitField__Repr : NodePrototype := "Map__BitField__Repr".
Definition Map__SectorOnChainInfo__Repr : NodePrototype := "Map__SectorOnChainInfo__Repr".
Definition Map__MinerV0Partition__Repr : NodePrototype := "Map__MinerV0Partition__Repr".
Definition Map__MinerV0ExpirationSet__Repr : NodePrototype := "Map__MinerV0ExpirationSet__Repr".
Definition Map__PowerV0CronEvent__Repr : NodePrototype := "Map__PowerV0CronEvent__Repr".
Definition Multimap__PowerV0CronEvent__Repr : NodePrototype := "Multimap__PowerV0CronEvent__Repr".
Definition Map__PowerV0Claim__Repr : NodePrototype := "Map__PowerV0Claim__Repr".
Definition Map__DataCap__Repr : NodePrototype := "Map__DataCap__Repr".
Definition Map__MarketV0DealProposal__Repr : NodePrototype := "Map__MarketV0DealProposal__Repr".
Definition Map__MarketV0RawDealProposal__Repr : NodePrototype :=
  "Map__MarketV0RawDealProposal__Repr".
Definition Map__MarketV0DealState__Repr : NodePrototype := "Map__MarketV0DealState__Repr".
Definition Map__BalanceTable__Repr : NodePrototype := "Map__BalanceTable__Repr".
Definition Map__List__DealID__Repr : NodePrototype := "Map__List__DealID__Repr".
Definition Map__MultisigV0Transaction__Repr : NodePrototype := "Map__MultisigV0Transaction__Repr".
Definition Map__PaychV0LaneState__Repr : NodePrototype := "Map__PaychV0LaneState__Repr".
Definition LotusActors__Repr : NodePrototype := "LotusActors__Repr".
Definition MinerV0SectorPreCommitOnChainInfo__Repr : NodePrototype :=
  "MinerV0SectorPreCommitOnChainInfo__Repr".
Definition MinerV0SectorOnChainInfo__Repr : NodePrototype := "MinerV0SectorOnChainInfo__Repr".
Definition MinerV0Partition__Repr : NodePrototype := "MinerV0Partition__Repr".
Definition MinerV0ExpirationSet__Repr : NodePrototype := "MinerV0ExpirationSet__Repr".
Definition PowerV0CronEvent__Repr : NodePrototype := "PowerV0CronEvent__Repr".
Definition PowerV0Claim__Repr : NodePrototype := "PowerV0Claim__Repr".
Definition MarketV0DealProposal__Repr : NodePrototype := "MarketV0DealProposal__Repr".
Definition MarketV0DealState__Repr : NodePrototype := "MarketV0DealState__Repr".
Definition List__DealID__Repr : NodePrototype := "List__DealID__Repr".
Definition MultisigV0Transaction__Repr : NodePrototype := "MultisigV0Transaction__Repr".
Definition PaychV0LaneState__Repr : NodePrototype := "PaychV0LaneState__Repr".
End types.

(** [LotusPrototypes] provide expected node types for each state type. *)
Definition LotusPrototypes : gmap LotusType NodePrototype :=
  list_to_map
    [ (LotusTypeTipset, types.LotusBlockHeader__Repr);
      (AccountActorState, types.AccountV0State__Repr);
      (CronActorState, types.CronV0State__Repr);
      (InitActorState, types.InitV0State__Repr);
      (MarketActorState, types.MarketV0State__Repr);
      (MultisigActorState, types.MultisigV0State__Repr);
      (StorageMinerActorState, types.MinerV0State__Repr);
      (StorageMinerActorInfo, types.MinerV0Info__Repr);
      (StorageMinerActorVestingFunds, types.MinerV0VestingFunds__Repr);
      (StorageMinerActorAllocatedSectors, types.BitField__Repr);
      (StorageMinerActorDeadlines, types.MinerV0Deadlines__Repr);
      (StorageMinerActorDeadline, types.MinerV0Deadline__Repr);
      (StoragePowerActorState, types.PowerV0State__Repr);
      (RewardActorState, types.RewardV0State__Repr);
      (VerifiedRegistryActorState, types.VerifregV0State__Repr);
      (PaymentChannelActorState, types.PaychV0State__Repr);
      (* Complex types *)
      (LotusTypeStateroot, types.Map__LotusActors__Repr);
      (InitActorAddresses, types.Map__ActorID__Repr);
      (StorageMinerActorPreCommittedSectors, types.Map__SectorPreCommitOnChainInfo__Repr);
      (StorageMinerActorDeadlinePartitionEarly, types.Map__BitField__Repr);
      (StorageMinerActorPreCommittedSectorsExpiry, types.Map__BitField__Repr);
      (StorageMinerActorSectors, types.Map__SectorOnChainInfo__Repr);
      (StorageMinerActorDeadlinePartitions, types.Map__MinerV0Partition__Repr);
      (StorageMinerActorDeadlinePartitionExpiry, types.Map__MinerV0ExpirationSet__Repr);
      (StorageMinerActorDeadlineExpiry, types.Map__BitField__Repr);
      (StoragePowerActorCronEventQueue, types.Map__PowerV0CronEvent__Repr);
      (StoragePowerActorClaims, types.Map__PowerV0Claim__Repr);
      (VerifiedRegistryActorVerifiers, types.Map__DataCap__Repr);
      (VerifiedRegistryActorVerifiedClients, types.Map__DataCap__Repr);
      (MarketActorPendingProposals, types.Map__MarketV0DealProposal__Repr);
      (MarketActorProposals, types.Map__MarketV0RawDealProposal__Repr);
      (MarketActorStates, types.Map__MarketV0DealState__Repr);
      (MarketActorEscrowTable, types.Map__BalanceTable__Repr);
      (MarketActorLockedTable, types.Map__BalanceTable__Repr);
      (MarketActorDealOpsByEpoch, types.Map__List__DealID__Repr);
      (MultisigActorPending, types.Map__MultisigV0Transaction__Repr);
      (PaymentChannelActorLaneStates, types.Map__PaychV0LaneState__Repr) ].

(** ** Sharded structures

    A loaded HAMT, AMT, multimap or set offers one operation: visit every
    (key, value) pair once, in native order.  The visit can break off with a
    structure error (a missing or corrupt shard) after some entries. *)

Record Iter (K V : Type) := { entries : list (K * V); failure : option error }.
Arguments entries {K V} _.
Arguments failure {K V} _.

(** The [interface{}] value a HAMT hands to its visitor. *)
Inductive HamtValue :=
| Deferred (Raw : bytes)
| NotDeferred.

(** ** Assemblers

    The state of a builder of package [types]: nothing assigned yet, a map or
    a list under construction, or a finished node.  While a map is open,
    [key] holds the key of the entry whose value is still awaited. *)

Inductive AssemblerState :=
| Fresh
| MapOpen (es : list (Node * Node)) (key : option Node)
| ListOpen (vs : list Node)
| Finished (n : Node).

Record NodeAssembler := { Prototype : NodePrototype; state : AssemblerState }.

Definition NewBuilder (p : NodePrototype) : NodeAssembler :=
  {| Prototype := p; state := Fresh |}.

Definition Build (nb : NodeAssembler) : result Node :=
  match state nb with
  | Finished n => Ok n
  | _ => Panic "invalid state: cannot call Build on an assembler that's not finished"
  end.

(** ** External collaborators

    The generated assemblers of the schema, the CBOR codecs, and the loaders
    of sharded structures are not part of the decoder; it is written against
    their interfaces. *)

Class Collaborators := {
  (** schema: may a map (a list) be begun on this prototype *)
  BeginMap_check : NodePrototype -> option error;
  BeginList_check : NodePrototype -> option error;
  (** schema: the Go type of the keys of a map prototype, and whether a key is
      accepted given the entries assembled so far *)
  keyType : NodePrototype -> StringType;
  AssembleEntry_check : NodePrototype -> list (Node * Node) -> string -> option error;
  (** schema: the node stored when a value is assigned into an entry of a
      map or list of this prototype *)
  AssignNode_value : NodePrototype -> Node -> result Node;
  AssignInt_value : NodePrototype -> Z -> result Node;
  AssignBytes_value : NodePrototype -> bytes -> result Node;
  Finish_check : NodePrototype -> option error;
  (** codecs *)
  dagcbor_Decode : NodePrototype -> bytes -> result Node;
  cbor_DecodeInto_CborInt : bytes -> result Z;
  CBORBytes_UnmarshalCBOR : bytes -> result bytes;
  abi_ParseUIntKey : string -> result Z;
  (** sharded structures *)
  hamt_LoadNode : Blockstore -> Cid -> result (Iter string HamtValue);
  adt_AsArray : Blockstore -> Cid -> result (Iter Z bytes);
  adt_AsMultimap : Blockstore -> Cid -> result (Iter string (Iter Z bytes));
  adt_AsMap : Blockstore -> Cid -> result (Iter string Cid);
  adt_AsSet : Blockstore -> Cid -> result (Iter string unit)
}.

(** ** The assembling monad

    A decoder mutates the assembler it was handed and returns an [error]:
    a state transformer over [NodeAssembler] with a result. *)

Definition M (A : Type) : Type := NodeAssembler -> NodeAssembler * result A.

Definition ret {A} (a : A) : M A := fun s => (s, Ok a).

Definition bind {A B} (m : M A) (f : A -> M B) : M B :=
  fun s =>
    match m s with
    | (s', Ok a) => f a s'
    | (s', Err e) => (s', Err e)
    | (s', Panic msg) => (s', Panic msg)
    end.

Declare Scope asm_scope.
Delimit Scope asm_scope with asm.
Notation "x <- c1 ;; c2" := (bind c1 (fun x => c2))
  (at level 100, c1 at next level, right associativity) : asm_scope.
Notation "c1 ;; c2" := (bind c1 (fun _ => c2))
  (at level 100, right associativity) : asm_scope.
Open Scope asm_scope.

(** A call that does not touch the assembler. *)
Definition lift {A} (r : result A) : M A := fun s => (s, r).

Definition fail {A} (e : error) : M A := lift (Err e).

(** [if err != nil { return err }] on an optional error. *)
Definition checkErr (o : option error) : M unit :=
  match o with
  | Some e => fail e
  | None => ret tt
  end.

(** A call whose returned error is dropped (a panic still unwinds). *)
Definition ignore_error (m : M unit) : M unit :=
  fun s =>
    match m s with
    | (s', Err _) => (s', Ok tt)
    | r => r
    end.

(** Run [m] on a local builder [b]; the assembler of the caller is untouched. *)
Definition onBuilder {A} (b : NodeAssembler) (m : M A) : M (NodeAssembler * A) :=
  fun outer =>
    match m b with
    | (b', Ok a) => (outer, Ok (b', a))
    | (_, Err e) => (outer, Err e)
    | (_, Panic msg) => (outer, Panic msg)
    end.

(** Visiting the entries of a structure: the first error returned by the
    visitor stops the visit and is returned. *)
Fixpoint forEachEntry {K V} (l : list (K * V)) (f : K -> V -> M unit) : M unit :=
  match l with
  | [] => ret tt
  | (k, v) :: l' => f k v ;; forEachEntry l' f
  end.

Definition ForEach {K V} (it : Iter K V) (f : K -> V -> M unit) : M unit :=
  forEachEntry (entries it) f ;; checkErr (failure it).

Section Assembling.
Context `{Collaborators}.

Definition invalid_state {A} : M A := lift (Panic "invalid state").

Definition BeginMap (sizeHint : Z) : M unit :=
  fun na =>
    match state na with
    | Fresh =>
        match BeginMap_check (Prototype na) with
        | Some e => (na, Err e)
        | None => ({| Prototype := Prototype na; state := MapOpen [] None |}, Ok tt)
        end
    | _ => invalid_state na
    end.

Definition BeginList (sizeHint : Z) : M unit :=
  fun na =>
    match state na with
    | Fresh =>
        match BeginList_check (Prototype na) with
        | Some e => (na, Err e)
        | None => ({| Prototype := Prototype na; state := ListOpen [] |}, Ok tt)
        end
    | _ => invalid_state na
    end.

Definition AssembleEntry (k : string) : M unit :=
  fun na =>
    match state na with
    | MapOpen es None =>
        match AssembleEntry_check (Prototype na) es k with
        | Some e => (na, Err e)
        | None =>
            ({| Prototype := Prototype na;
                state := MapOpen es (Some (StringNode (keyType (Prototype na)) k)) |}, Ok tt)
        end
    | _ => invalid_state na
    end.

(** Completing the open entry of a map, or appending to a list, with the
    node the schema stores for the assigned value. *)
Definition assignValue (value : NodePrototype -> result Node) : M unit :=
  fun na =>
    match state na with
    | MapOpen es (Some k) =>
        match value (Prototype na) with
        | Ok n => ({| Prototype := Prototype na; state := MapOpen (es ++ [(k, n)]) None |}, Ok tt)
        | Err e => (na, Err e)
        | Panic msg => (na, Panic msg)
        end
    | ListOpen vs =>
        match value (Prototype na) with
        | Ok n => ({| Prototype := Prototype na; state := ListOpen (vs ++ [n]) |}, Ok tt)
        | Err e => (na, Err e)
        | Panic msg => (na, Panic msg)
        end
    | _ => invalid_state na
    end.

Definition AssignNode (n : Node) : M unit := assignValue (fun p => AssignNode_value p n).
Definition AssignInt (i : Z) : M unit := assignValue (fun p => AssignInt_value p i).
Definition AssignBytes (b : bytes) : M unit := assignValue (fun p => AssignBytes_value p b).

Definition Finish : M unit :=
  fun na =>
    match state na with
    | MapOpen es None =>
        match Finish_check (Prototype na) with
        | Some e => (na, Err e)
        | None => ({| Prototype := Prototype na; state := Finished (MapNode es) |}, Ok tt)
        end
    | ListOpen vs =>
        match Finish_check (Prototype na) with
        | Some e => (na, Err e)
        | None => ({| Prototype := Prototype na; state := Finished (ListNode vs) |}, Ok tt)
        end
    | _ => invalid_state na
    end.

(** [dagcbor.Decoder(na, bytes.NewBuffer(data))]: fills a fresh assembler with
    the decoded document.  On a decode error the assembler is left unfinished. *)
Definition dagcbor_Decoder (data : bytes) : M unit :=
  fun na =>
    match state na with
    | Fresh =>
        match dagcbor_Decode (Prototype na) data with
        | Ok n => ({| Prototype := Prototype na; state := Finished n |}, Ok tt)
        | Err e => (na, Err e)
        | Panic msg => (na, Panic msg)
        end
    | _ => invalid_state na
    end.

(** The type assertion of [val] to a pointer to [cbg.Deferred]. *)
Definition asDeferred (val : HamtValue) : M bytes :=
  match val with
  | Deferred raw => ret raw
  | NotDeferred => fail "unexpected non-cbg.Deferred"
  end.

(** [actor := p.NewBuilder(); dagcbor.Decoder(actor, raw)] then [actor.Build()]. *)
Definition decodeElement (p : NodePrototype) (raw : bytes) : M Node :=
  let actor := NewBuilder p in
  r <- onBuilder actor (dagcbor_Decoder raw) ;;
  let actor := fst r in
  lift (Build actor).

End Assembling.

(** ** The structure decoders (registry-based revision) *)

(** [adt.Array.ForEach(&value, fn)]: every element is first unmarshalled into
    [value], then [fn] is called with its index. *)
Definition Array_ForEach {V} (list : Iter Z bytes) (out : bytes -> result V)
    (fn : Z -> V -> M unit) : M unit :=
  ForEach list (fun k raw => value <- lift (out raw) ;; fn k value).

(** Unmarshalling into a [cbg.Deferred] keeps the raw bytes. *)
Definition Deferred_UnmarshalCBOR (raw : bytes) : result bytes := Ok raw.

Definition Loader := Cid -> Blockstore -> M unit.

Section Decoders.
Context `{Collaborators}.

Definition transformStateRoot (c : Cid) (store : Blockstore) : M unit :=
  node <- lift (hamt_LoadNode store c) ;;
  BeginMap 0 ;;
  ForEach node (fun k val =>
    AssembleEntry k ;;
    asDef <- asDeferred val ;;
    actor <- decodeElement types.LotusActors__Repr asDef ;;
    AssignNode actor) ;;
  Finish.

Definition transformInitActor (c : Cid) (store : Blockstore) : M unit :=
  node <- lift (hamt_LoadNode store c) ;;
  BeginMap 0 ;;
  ForEach node (fun k val =>
    AssembleEntry k ;;
    asDef <- asDeferred val ;;
    actorID <- lift (cbor_DecodeInto_CborInt asDef) ;;
    AssignInt actorID) ;;
  Finish.

Definition transformMinerActorPreCommittedSectors (c : Cid) (store : Blockstore) : M unit :=
  node <- lift (hamt_LoadNode store c) ;;
  BeginMap 0 ;;
  ForEach node (fun k val =>
    let i := SetBytes (bytes_of_string k) in
    AssembleEntry (big_String i) ;;
    asDef <- asDeferred val ;;
    actor <- decodeElement types.MinerV0SectorPreCommitOnChainInfo__Repr asDef ;;
    AssignNode actor) ;;
  Finish.

Definition transformMinerActorBitfieldHamt (c : Cid) (store : Blockstore) : M unit :=
  list <- lift (adt_AsArray store c) ;;
  BeginMap 0 ;;
  Array_ForEach list CBORBytes_UnmarshalCBOR (fun k value =>
    AssembleEntry (Sprintf_d k) ;;
    AssignBytes value) ;;
  Finish.

Definition transformMinerActorSectors (c : Cid) (store : Blockstore) : M unit :=
  list <- lift (adt_AsArray store c) ;;
  BeginMap 0 ;;
  Array_ForEach list Deferred_UnmarshalCBOR (fun k value =>
    AssembleEntry (Sprintf_d k) ;;
    actor <- decodeElement types.MinerV0SectorOnChainInfo__Repr value ;;
    AssignNode actor) ;;
  Finish.

Definition transformMinerActorDeadlinePartitions (c : Cid) (store : Blockstore) : M unit :=
  list <- lift (adt_AsArray store c) ;;
  BeginMap 0 ;;
  Array_ForEach list Deferred_UnmarshalCBOR (fun k value =>
    AssembleEntry (Sprintf_d k) ;;
    actor <- decodeElement types.MinerV0Partition__Repr value ;;
    AssignNode actor) ;;
  Finish.

Definition transformMinerActorDeadlinePartitionExpiry (c : Cid) (store : Blockstore) : M unit :=
  list <- lift (adt_AsArray store c) ;;
  BeginMap 0 ;;
  Array_ForEach list Deferred_UnmarshalCBOR (fun k value =>
    AssembleEntry (Sprintf_d k) ;;
    actor <- decodeElement types.MinerV0ExpirationSet__Repr value ;;
    AssignNode actor) ;;
  Finish.

Definition transformPowerActorEventQueue (c : Cid) (store : Blockstore) : M unit :=
  node <- lift (adt_AsMultimap store c) ;;
  BeginMap 0 ;;
  ForEach node (fun k val =>
    let bi := SetBytes (bytes_of_string k) in
    AssembleEntry (big_String bi) ;;
    let amt := NewBuilder types.Map__PowerV0CronEvent__Repr in
    r <- onBuilder amt (
      BeginMap 0 ;;
      Array_ForEach val Deferred_UnmarshalCBOR (fun i eval =>
        AssembleEntry (Sprintf_d i) ;;
        actor <- decodeElement types.PowerV0CronEvent__Repr eval ;;
        AssignNode actor) ;;
      Finish) ;;
    let amt := fst r in
    n <- lift (Build amt) ;;
    AssignNode n) ;;
  Finish.

Definition transformPowerActorClaims (c : Cid) (store : Blockstore) : M unit :=
  node <- lift (hamt_LoadNode store c) ;;
  BeginMap 0 ;;
  ForEach node (fun k val =>
    AssembleEntry k ;;
    asDef <- asDeferred val ;;
    actor <- decodeElement types.PowerV0Claim__Repr asDef ;;
    AssignNode actor) ;;
  Finish.

Definition transformVerifiedRegistryDataCaps (c : Cid) (store : Blockstore) : M unit :=
  node <- lift (hamt_LoadNode store c) ;;
  BeginMap 0 ;;
  ForEach node (fun k val =>
    AssembleEntry k ;;
    asDef <- asDeferred val ;;
    AssignBytes asDef) ;;
  Finish.

Definition transformMarketPendingProposals (c : Cid) (store : Blockstore) : M unit :=
  node <- lift (hamt_LoadNode store c) ;;
  BeginMap 0 ;;
  ForEach node (fun k val =>
    AssembleEntry k ;;
    asDef <- asDeferred val ;;
    actor <- decodeElement types.MarketV0DealProposal__Repr asDef ;;
    AssignNode actor) ;;
  Finish.

Definition transformMarketProposals (c : Cid) (store : Blockstore) : M unit :=
  list <- lift (adt_AsArray store c) ;;
  BeginMap 0 ;;
  Array_ForEach list Deferred_UnmarshalCBOR (fun k value =>
    AssembleEntry (Sprintf_d k) ;;
    actor <- decodeElement types.MarketV0DealProposal__Repr value ;;
    AssignNode actor) ;;
  Finish.

Definition transformMarketStates (c : Cid) (store : Blockstore) : M unit :=
  list <- lift (adt_AsArray store c) ;;
  BeginMap 0 ;;
  Array_ForEach list Deferred_UnmarshalCBOR (fun k value =>
    AssembleEntry (Sprintf_d k) ;;
    actor <- decodeElement types.MarketV0DealState__Repr value ;;
    AssignNode actor) ;;
  Finish.

Definition transformMarketBalanceTable (c : Cid) (store : Blockstore) : M unit :=
  node <- lift (hamt_LoadNode store c) ;;
  BeginMap 0 ;;
  ForEach node (fun k val =>
    AssembleEntry k ;;
    asDef <- asDeferred val ;;
    AssignBytes asDef) ;;
  Finish.

(** The error returned by [set.ForEach] is not looked at. *)
Definition transformMarketDealOpsByEpoch (c : Cid) (store : Blockstore) : M unit :=
  table <- lift (adt_AsMap store c) ;;
  BeginMap 0 ;;
  ForEach table (fun k value =>
    set <- lift (adt_AsSet store value) ;;
    let b := SetBytes (bytes_of_string k) in
    AssembleEntry (big_String b) ;;
    let amt := NewBuilder types.List__DealID__Repr in
    r <- onBuilder amt (
      BeginList 0 ;;
      ignore_error (ForEach set (fun d _ =>
        key <- lift (abi_ParseUIntKey d) ;;
        AssignInt (int_of_uint64 key))) ;;
      Finish) ;;
    let amt := fst r in
    n <- lift (Build amt) ;;
    AssignNode n) ;;
  Finish.

Definition transformMultisigPending (c : Cid) (store : Blockstore) : M unit :=
  node <- lift (hamt_LoadNode store c) ;;
  BeginMap 0 ;;
  ForEach node (fun k val =>
    let i := SetBytes (bytes_of_string k) in
    AssembleEntry (big_String i) ;;
    asDef <- asDeferred val ;;
    actor <- decodeElement types.MultisigV0Transaction__Repr asDef ;;
    AssignNode actor) ;;
  Finish.

Definition transformPaymentChannelLaneStates (c : Cid) (store : Blockstore) : M unit :=
  list <- lift (adt_AsArray store c) ;;
  BeginMap 0 ;;
  Array_ForEach list Deferred_UnmarshalCBOR (fun k value =>
    AssembleEntry (Sprintf_d k) ;;
    actor <- decodeElement types.PaychV0LaneState__Repr value ;;
    AssignNode actor) ;;
  Finish.

Definition complexLoaders : gmap NodePrototype Loader :=
  list_to_map
    [ (types.Map__LotusActors__Repr, transformStateRoot);
      (types.Map__ActorID__Repr, transformInitActor);
      (types.Map__SectorPreCommitOnChainInfo__Repr, transformMinerActorPreCommittedSectors);
      (types.Map__BitField__Repr, transformMinerActorBitfieldHamt);
      (types.Map__SectorOnChainInfo__Repr, transformMinerActorSectors);
      (types.Map__MinerV0Partition__Repr, transformMinerActorDeadlinePartitions);
      (types.Map__MinerV0ExpirationSet__Repr, transformMinerActorDeadlinePartitionExpiry);
      (types.Map__PowerV0CronEvent__Repr, transformPowerActorEventQueue);
      (types.Map__PowerV0Claim__Repr, transformPowerActorClaims);
      (types.Map__DataCap__Repr, transformVerifiedRegistryDataCaps);
      (types.Map__MarketV0DealProposal__Repr, transformMarketProposals);
      (types.Map__MarketV0RawDealProposal__Repr, transformMarketPendingProposals);
      (types.Map__MarketV0DealState__Repr, transformMarketStates);
      (types.Map__BalanceTable__Repr, transformMarketBalanceTable);
      (types.Map__List__DealID__Repr, transformMarketDealOpsByEpoch);
      (types.Map__MultisigV0Transaction__Repr, transformMultisigPending);
      (types.Map__PaychV0LaneState__Repr, transformPaymentChannelLaneStates) ].

Definition Load (c : Cid) (store : Blockstore) (into : NodeAssembler)
    : NodeAssembler * result unit :=
  let prototype := Prototype into in
  match complexLoaders !! prototype with
  | Some complexLoader => complexLoader c store into
  | None =>
      match store c with
      | Ok data => dagcbor_Decoder data into
      | Err e => (into, Err e)
      | Panic msg => (into, Panic msg)
      end
  end.

(** [Transform] will unmarshal cbor data based on a provided type hint. *)
Definition Transform (c : Cid) (store : Blockstore) (as_ : string) : result Node :=
  match LotusPrototypes !! ResolveType as_ with
  | None => Err ("unknown type: " ++ as_)
  | Some proto =>
      let assembler := NewBuilder proto in
      match Load c store assembler with
      | (assembler, Ok _) => Build assembler
      | (_, Err e) => Err e
      | (_, Panic msg) => Panic msg
      end
  end.

End Decoders.

(** ** The switch-based revision

    The earlier revision of the same file: [ResolveType] does not rewrite the
    separator and knows four aliases; every decoder makes its own builder and
    returns the built node; [Transform] dispatches with two [switch]
    statements on the resolved type. *)

Definition rbind {A B} (r : result A) (f : A -> result B) : result B :=
  match r with
  | Ok a => f a
  | Err e => Err e
  | Panic msg => Panic msg
  end.

Notation "x <~ c1 ;; c2" := (rbind c1 (fun x => c2))
  (at level 100, c1 at next level, right associativity) : asm_scope.

(** Run [body] on [assembler]; when it returns no error, [assembler.Build()]. *)
Definition built (assembler : NodeAssembler) (body : M unit) : result Node :=
  match body assembler with
  | (assembler, Ok _) => Build assembler
  | (_, Err e) => Err e
  | (_, Panic msg) => Panic msg
  end.

Module Switch.

Definition LotusTypeAliases : gmap string LotusType :=
  list_to_map
    [ ("tipset.ParentStateRoot", LotusTypeStateroot);
      ("initActor.AddressMap", InitActorAddresses);
      ("storagePowerActor.CronEventQueue", StoragePowerActorCronEventQueue);
      ("storagePowerActor.Claims", StoragePowerActorClaims) ].

Definition ResolveType (as_ : string) : LotusType :=
  let as_ := simplifyingRe2_ReplaceAll (simplifyingRe_ReplaceAll as_ "") "." in
  match LotusTypeAliases !! as_ with
  | Some alias => alias
  | None => as_
  end.

Section Decoders.
Context `{Collaborators}.

(** The error returned by [node.ForEach] is not looked at. *)
Definition transformStateRoot (c : Cid) (store : Blockstore) : result Node :=
  node <~ hamt_LoadNode store c ;;
  let assembler := NewBuilder types.Map__LotusActors__Repr in
  built assembler (
    BeginMap 0 ;;
    ignore_error (ForEach node (fun k val =>
      AssembleEntry k ;;
      asDef <- asDeferred val ;;
      actor <- decodeElement types.LotusActors__Repr asDef ;;
      AssignNode actor)) ;;
    Finish).

(** The error returned by [node.ForEach] is not looked at. *)
Definition transformInitActor (c : Cid) (store : Blockstore) : result Node :=
  node <~ hamt_LoadNode store c ;;
  let assembler := NewBuilder types.Map__ActorID__Repr in
  built assembler (
    BeginMap 0 ;;
    ignore_error (ForEach node (fun k val =>
      AssembleEntry k ;;
      asDef <- asDeferred val ;;
      actorID <- lift (cbor_DecodeInto_CborInt asDef) ;;
      AssignInt actorID)) ;;
    Finish).

Definition transformMinerActorPreCommittedSectors (c : Cid) (store : Blockstore) : result Node :=
  node <~ hamt_LoadNode store c ;;
  let assembler := NewBuilder types.Map__SectorPreCommitOnChainInfo__Repr in
  built assembler (
    BeginMap 0 ;;
    ForEach node (fun k val =>
      let i := SetBytes (bytes_of_string k) in
      AssembleEntry (big_String i) ;;
      asDef <- asDeferred val ;;
      actor <- decodeElement types.MinerV0SectorPreCommitOnChainInfo__Repr asDef ;;
      AssignNode actor) ;;
    Finish).

Definition transformMinerActorPreCommittedSectorsExpiry (c : Cid) (store : Blockstore)
    : result Node :=
  list <~ adt_AsArray store c ;;
  let assembler := NewBuilder types.Map__BitField__Repr in
  built assembler (
    BeginMap 0 ;;
    Array_ForEach list CBORBytes_UnmarshalCBOR (fun k value =>
      AssembleEntry (Sprintf_d k) ;;
      AssignBytes value) ;;
    Finish).

Definition transformMinerActorSectors (c : Cid) (store : Blockstore) : result Node :=
  list <~ adt_AsArray store c ;;
  let assembler := NewBuilder types.Map__SectorOnChainInfo__Repr in
  built assembler (
    BeginMap 0 ;;
    Array_ForEach list Deferred_UnmarshalCBOR (fun k value =>
      AssembleEntry (Sprintf_d k) ;;
      actor <- decodeElement types.MinerV0SectorOnChainInfo__Repr value ;;
      AssignNode actor) ;;
    Finish).

Definition transformMinerActorDeadlinePartitions (c : Cid) (store : Blockstore) : result Node :=
  list <~ adt_AsArray store c ;;
  let assembler := NewBuilder types.Map__MinerV0Partition__Repr in
  built assembler (
    BeginMap 0 ;;
    Array_ForEach list Deferred_UnmarshalCBOR (fun k value =>
      AssembleEntry (Sprintf_d k) ;;
      actor <- decodeElement types.MinerV0Partition__Repr value ;;
      AssignNode actor) ;;
    Finish).

Definition transformMinerActorDeadlinePartitionExpiry (c : Cid) (store : Blockstore)
    : result Node :=
  list <~ adt_AsArray store c ;;
  let assembler := NewBuilder types.Map__MinerV0ExpirationSet__Repr in
  built assembler (
    BeginMap 0 ;;
    Array_ForEach list Deferred_UnmarshalCBOR (fun k value =>
      AssembleEntry (Sprintf_d k) ;;
      actor <- decodeElement types.MinerV0ExpirationSet__Repr value ;;
      AssignNode actor) ;;
    Finish).

Definition transformMinerActorDeadlineExpiry (c : Cid) (store : Blockstore) : result Node :=
  transformMinerActorPreCommittedSectorsExpiry c store.

Definition transformPowerActorEventQueue (c : Cid) (store : Blockstore) : result Node :=
  node <~ adt_AsMultimap store c ;;
  let assembler := NewBuilder types.Multimap__PowerV0CronEvent__Repr in
  built assembler (
    BeginMap 0 ;;
    ForEach node (fun k val =>
      let bi := SetBytes (bytes_of_string k) in
      AssembleEntry (big_String bi) ;;
      let amt := NewBuilder types.Map__PowerV0CronEvent__Repr in
      r <- onBuilder amt (
        BeginMap 0 ;;
        Array_ForEach val Deferred_UnmarshalCBOR (fun i eval =>
          AssembleEntry (Sprintf_d i) ;;
          actor <- decodeElement types.PowerV0CronEvent__Repr eval ;;
          AssignNode actor) ;;
        Finish) ;;
      let amt := fst r in
      n <- lift (Build amt) ;;
      AssignNode n) ;;
    Finish).

Definition transformPowerActorClaims (c : Cid) (store : Blockstore) : result Node :=
  node <~ hamt_LoadNode store c ;;
  let assembler := NewBuilder types.Map__PowerV0Claim__Repr in
  built assembler (
    BeginMap 0 ;;
    ForEach node (fun k val =>
      AssembleEntry k ;;
      asDef <- asDeferred val ;;
      actor <- decodeElement types.PowerV0Claim__Repr asDef ;;
      AssignNode actor) ;;
    Finish).

Definition transformVerifiedRegistryDataCaps (c : Cid) (store : Blockstore) : result Node :=
  node <~ hamt_LoadNode store c ;;
  let assembler := NewBuilder types.Map__DataCap__Repr in
  built assembler (
    BeginMap 0 ;;
    ForEach node (fun k val =>
      AssembleEntry k ;;
      asDef <- asDeferred val ;;
      AssignBytes asDef) ;;
    Finish).

Definition transformMarketPendingProposals (c : Cid) (store : Blockstore) : result Node :=
  node <~ hamt_LoadNode store c ;;
  let assembler := NewBuilder types.Map__MarketV0DealProposal__Repr in
  built assembler (
    BeginMap 0 ;;
    ForEach node (fun k val =>
      AssembleEntry k ;;
      asDef <- asDeferred val ;;
      actor <- decodeElement types.MarketV0DealProposal__Repr asDef ;;
      AssignNode actor) ;;
    Finish).

Definition transformMarketProposals (c : Cid) (store : Blockstore) : result Node :=
  list <~ adt_AsArray store c ;;
  let assembler := NewBuilder types.Map__MarketV0RawDealProposal__Repr in
  built assembler (
    BeginMap 0 ;;
    Array_ForEach list Deferred_UnmarshalCBOR (fun k value =>
      AssembleEntry (Sprintf_d k) ;;
      actor <- decodeElement types.MarketV0DealProposal__Repr value ;;
      AssignNode actor) ;;
    Finish).

Definition transformMarketStates (c : Cid) (store : Blockstore) : result Node :=
  list <~ adt_AsArray store c ;;
  let assembler := NewBuilder types.Map__MarketV0DealState__Repr in
  built assembler (
    BeginMap 0 ;;
    Array_ForEach list Deferred_UnmarshalCBOR (fun k value =>
      AssembleEntry (Sprintf_d k) ;;
      actor <- decodeElement types.MarketV0DealState__Repr value ;;
      AssignNode actor) ;;
    Finish).

Definition transformMarketBalanceTable (c : Cid) (store : Blockstore) : result Node :=
  node <~ hamt_LoadNode store c ;;
  let assembler := NewBuilder types.Map__BalanceTable__Repr in
  built assembler (
    BeginMap 0 ;;
    ForEach node (fun k val =>
      AssembleEntry k ;;
      asDef <- asDeferred val ;;
      AssignBytes asDef) ;;
    Finish).

Definition transformMarketDealOpsByEpoch (c : Cid) (store : Blockstore) : result Node :=
  table <~ adt_AsMap store c ;;
  let assembler := NewBuilder types.Map__List__DealID__Repr in
  built assembler (
    BeginMap 0 ;;
    ForEach table (fun k value =>
      set <- lift (adt_AsSet store value) ;;
      let b := SetBytes (bytes_of_string k) in
      AssembleEntry (big_String b) ;;
      let amt := NewBuilder types.List__DealID__Repr in
      r <- onBuilder amt (
        BeginList 0 ;;
        ignore_error (ForEach set (fun d _ =>
          key <- lift (abi_ParseUIntKey d) ;;
          AssignInt (int_of_uint64 key))) ;;
        Finish) ;;
      let amt := fst r in
      n <- lift (Build amt) ;;
      AssignNode n) ;;
    Finish).

Definition transformMultisigPending (c : Cid) (store : Blockstore) : result Node :=
  node <~ hamt_LoadNode store c ;;
  let assembler := NewBuilder types.Map__MultisigV0Transaction__Repr in
  built assembler (
    BeginMap 0 ;;
    ForEach node (fun k val =>
      let i := SetBytes (bytes_of_string k) in
      AssembleEntry (big_String i) ;;
      asDef <- asDeferred val ;;
      actor <- decodeElement types.MultisigV0Transaction__Repr asDef ;;
      AssignNode actor) ;;
    Finish).

Definition transformPaymentChannelLaneStates (c : Cid) (store : Blockstore) : result Node :=
  list <~ adt_AsArray store c ;;
  let assembler := NewBuilder types.Map__PaychV0LaneState__Repr in
  built assembler (
    BeginMap 0 ;;
    Array_ForEach list Deferred_UnmarshalCBOR (fun k value =>
      AssembleEntry (Sprintf_d k) ;;
      actor <- decodeElement types.PaychV0LaneState__Repr value ;;
      AssignNode actor) ;;
    Finish).

(** The second [switch]: the types decoded from the block data. *)
Definition blockAssembler (t : LotusType) (as_ : string) : result NodeAssembler :=
  if t =? LotusTypeTipset then Ok (NewBuilder types.LotusBlockHeader__Repr)
  else if t =? AccountActorState then Ok (NewBuilder types.AccountV0State__Repr)
  else if t =? CronActorState then Ok (NewBuilder types.CronV0State__Repr)
  else if t =? InitActorState then Ok (NewBuilder types.InitV0State__Repr)
  else if t =? MarketActorState then Ok (NewBuilder types.MarketV0State__Repr)
  else if t =? MultisigActorState then Ok (NewBuilder types.MultisigV0State__Repr)
  else if t =? StorageMinerActorState then Ok (NewBuilder types.MinerV0State__Repr)
  else if t =? StorageMinerActorInfo then Ok (NewBuilder types.MinerV0Info__Repr)
  else if t =? StorageMinerActorVestingFunds then Ok (NewBuilder types.MinerV0VestingFunds__Repr)
  else if t =? StorageMinerActorAllocatedSectors then Ok (NewBuilder types.BitField__Repr)
  else if t =? StorageMinerActorDeadlines then Ok (NewBuilder types.MinerV0Deadlines__Repr)
  else if t =? StorageMinerActorDeadline then Ok (NewBuilder types.MinerV0Deadline__Repr)
  else if t =? StoragePowerActorState then Ok (NewBuilder types.PowerV0State__Repr)
  else if t =? RewardActorState then Ok (NewBuilder types.RewardV0State__Repr)
  else if t =? VerifiedRegistryActorState then Ok (NewBuilder types.VerifregV0State__Repr)
  else if t =? PaymentChannelActorState then Ok (NewBuilder types.PaychV0State__Repr)
  else Err ("unknown type: " ++ as_).

(** [Transform] will unmarshal cbor data based on a provided type hint. *)
Definition Transform (c : Cid) (store : Blockstore) (as_ : string) : result Node :=
  let t := ResolveType as_ in
  (* First select types which do their own store loading. *)
  if t =? LotusTypeStateroot then transformStateRoot c store
  else if t =? InitActorAddresses then transformInitActor c store
  else if t =? StorageMinerActorPreCommittedSectors then
    transformMinerActorPreCommittedSectors c store
  else if (t =? StorageMinerActorDeadlinePartitionEarly)
          || (t =? StorageMinerActorPreCommittedSectorsExpiry) then
    transformMinerActorPreCommittedSectorsExpiry c store
  else if t =? StorageMinerActorSectors then transformMinerActorSectors c store
  else if t =? StorageMinerActorDeadlinePartitions then
    transformMinerActorDeadlinePartitions c store
  else if t =? StorageMinerActorDeadlinePartitionExpiry then
    transformMinerActorDeadlinePartitionExpiry c store
  else if t =? StorageMinerActorDeadlineExpiry then transformMinerActorDeadlineExpiry c store
  else if t =? StoragePowerActorCronEventQueue then transformPowerActorEventQueue c store
  else if t =? StoragePowerActorClaims then transformPowerActorClaims c store
  else if t =? MarketActorProposals then transformMarketProposals c store
  else if t =? MarketActorStates then transformMarketStates c store
  else if t =? MarketActorPendingProposals then transformMarketPendingProposals c store
  else if (t =? MarketActorEscrowTable) || (t =? MarketActorLockedTable) then
    transformMarketBalanceTable c store
  else if t =? MarketActorDealOpsByEpoch then transformMarketDealOpsByEpoch c store
  else if t =? MultisigActorPending then transformMultisigPending c store
  else if (t =? VerifiedRegistryActorVerifiers)
          || (t =? VerifiedRegistryActorVerifiedClients) then
    transformVerifiedRegistryDataCaps c store
  else if t =? PaymentChannelActorLaneStates then transformPaymentChannelLaneStates c store
  else
    data <~ store c ;;
    (* Then select types which use block data. *)
    assembler <~ blockAssembler t as_ ;;
    built assembler (dagcbor_Decoder data).

End Decoders.
End Switch.

(** ** A small world for the examples

    Concrete collaborators on which the decoders can be run: a permissive
    schema that rejects repeated keys, a codec that reads a single byte as an
    integer, and a store holding one structure of each shape. *)

Module Example.

(** [binary.Uvarint], and with it [abi.ParseUIntKey]. *)
Fixpoint Uvarint (buf : bytes) (x : N) (s : N) (i : nat) : N * Z :=
  match buf with
  | [] => (0%N, 0%Z)
  | b :: buf' =>
      if (i =? 10)%nat then (0%N, (- (Z.of_nat i + 1))%Z)
      else if (Byte.to_N b <? 128)%N then
        if ((i =? 9)%nat && (1 <? Byte.to_N b)%N)%bool then (0%N, (- (Z.of_nat i + 1))%Z)
        else (N.lor x (N.shiftl (Byte.to_N b) s), (Z.of_nat i + 1)%Z)
      else Uvarint buf' (N.lor x (N.shiftl (N.land (Byte.to_N b) 127) s)) (s + 7)%N (S i)
  end.

Definition ParseUIntKey (k : string) : result Z :=
  let '(i, n) := Uvarint (bytes_of_string k) 0 0 0 in
  if (n =? Z.of_nat (String.length k))%Z then Ok (Z.of_N i)
  else Err "failed to decode varint key".

Definition hasKey (es : list (Node * Node)) (k : string) : bool :=
  existsb (fun e => match fst e with StringNode _ s => String.eqb s k | _ => false end) es.

Definition decodeByte (data : bytes) : result Z :=
  match data with
  | [b] => Ok (Z.of_N (Byte.to_N b))
  | _ => Err "cbor: malformed document"
  end.

(** The identifiers of the blocks in the store. *)
Definition cidHamt : Cid := {| str := "hamt-root" |}.
Definition cidAmt : Cid := {| str := "amt-root" |}.
Definition cidTable : Cid := {| str := "deal-ops-root" |}.
Definition cidSet : Cid := {| str := "deal-set-root" |}.

Definition store : Blockstore :=
  fun c =>
    if decide (c = cidHamt) then Ok [Byte.x82]
    else if decide (c = cidAmt) then Ok [Byte.x83]
    else if decide (c = cidTable) then Ok [Byte.x82]
    else if decide (c = cidSet) then Ok [Byte.x82]
    else Err "blockstore: block not found".

(** A loader reads the root block, then recognises the structure it holds. *)
Definition loadAt {A} (root : Cid) (content : A) (st : Blockstore) (c : Cid) : result A :=
  match st c with
  | Ok _ => if decide (c = root) then Ok content else Err "structure: unexpected root block"
  | Err e => Err e
  | Panic msg => Panic msg
  end.

(** The bytes 1, 255 and 2 as set keys: the second is not a complete varint. *)
Definition dealKeys : list (string * unit) :=
  [ (string_of_bytes [Byte.x01], tt); (string_of_bytes [Byte.xff], tt);
    (string_of_bytes [Byte.x02], tt) ].

(** The world in which the block [cidHamt] holds the HAMT [hamt]. *)
Definition worldOf (hamt : Iter string HamtValue) : Collaborators := {|
  BeginMap_check := fun _ => None;
  BeginList_check := fun _ => None;
  keyType := fun _ => types_String;
  AssembleEntry_check := fun _ es k =>
    if hasKey es k then Some "repeated map key" else None;
  AssignNode_value := fun _ n => Ok n;
  AssignInt_value := fun _ i => Ok (IntNode i);
  AssignBytes_value := fun _ b => Ok (BytesNode types_Bytes b);
  Finish_check := fun _ => None;
  dagcbor_Decode := fun _ data =>
    match decodeByte data with
    | Ok i => Ok (IntNode i)
    | Err e => Err e
    | Panic msg => Panic msg
    end;
  cbor_DecodeInto_CborInt := decodeByte;
  CBORBytes_UnmarshalCBOR := fun raw => Ok raw;
  abi_ParseUIntKey := ParseUIntKey;
  hamt_LoadNode := loadAt cidHamt hamt;
  adt_AsArray := loadAt cidAmt {| entries := [(7%Z, [Byte.x01])]; failure := None |};
  adt_AsMultimap := fun _ _ => Err "multimap: unexpected root block";
  adt_AsMap :=
    loadAt cidTable {| entries := [(string_of_bytes [Byte.x05], cidSet)]; failure := None |};
  adt_AsSet := loadAt cidSet {| entries := dealKeys; failure := None |}
|}.

(** An empty HAMT, and one whose second shard is missing from the store. *)
Definition emptyHamt : Iter string HamtValue := {| entries := []; failure := None |}.
Definition brokenHamt : Iter string HamtValue :=
  {| entries := [("a", Deferred [Byte.x01])]; failure := Some "hamt: shard not found" |}.

Definition world : Collaborators := worldOf emptyHamt.
Definition brokenWorld : Collaborators := worldOf brokenHamt.

End Example.

(** ** Token streams (package fcjson)

    [tok.Token] is a struct that [MarshalRecursive] fills in field by field
    and hands to the sink at every step; fields that the token type does not
    use keep whatever was written to them before. *)

Close Scope asm_scope.

Inductive TokenType :=
| TInvalid | TMapOpen | TMapClose | TArrOpen | TArrClose
| TNull | TString | TBool | TInt | TFloat64.

Record Token := {
  Type_ : TokenType;
  Length : Z;
  Str : string;
  Bool : bool;
  Int : Z;
  Float64 : float64
}.

(** [var tk tok.Token]. *)
Definition zeroToken : Token :=
  {| Type_ := TInvalid; Length := 0%Z; Str := ""; Bool := false; Int := 0%Z;
     Float64 := 0%Z |}.

Definition set_Type (tk : Token) (t : TokenType) : Token :=
  {| Type_ := t; Length := Length tk; Str := Str tk; Bool := Bool tk; Int := Int tk;
     Float64 := Float64 tk |}.
Definition set_Length (tk : Token) (l : Z) : Token :=
  {| Type_ := Type_ tk; Length := l; Str := Str tk; Bool := Bool tk; Int := Int tk;
     Float64 := Float64 tk |}.
Definition set_Str (tk : Token) (s : string) : Token :=
  {| Type_ := Type_ tk; Length := Length tk; Str := s; Bool := Bool tk; Int := Int tk;
     Float64 := Float64 tk |}.
Definition set_Bool (tk : Token) (b : bool) : Token :=
  {| Type_ := Type_ tk; Length := Length tk; Str := Str tk; Bool := b; Int := Int tk;
     Float64 := Float64 tk |}.
Definition set_Int (tk : Token) (i : Z) : Token :=
  {| Type_ := Type_ tk; Length := Length tk; Str := Str tk; Bool := Bool tk; Int := i;
     Float64 := Float64 tk |}.
Definition set_Float64 (tk : Token) (f : float64) : Token :=
  {| Type_ := Type_ tk; Length := Length tk; Str := Str tk; Bool := Bool tk; Int := Int tk;
     Float64 := f |}.

(** What a token says: its type with the one field that type uses. *)
Inductive Tok :=
| MapOpenTok (n : Z)
| MapCloseTok
| ArrOpenTok (n : Z)
| ArrCloseTok
| NullTok
| StringTok (s : string)
| BoolTok (b : bool)
| IntTok (i : Z)
| Float64Tok (f : float64)
| InvalidTok.

Definition tokenOf (tk : Token) : Tok :=
  match Type_ tk with
  | TMapOpen => MapOpenTok (Length tk)
  | TMapClose => MapCloseTok
  | TArrOpen => ArrOpenTok (Length tk)
  | TArrClose => ArrCloseTok
  | TNull => NullTok
  | TString => StringTok (Str tk)
  | TBool => BoolTok (Bool tk)
  | TInt => IntTok (Int tk)
  | TFloat64 => Float64Tok (Float64 tk)
  | TInvalid => InvalidTok
  end.

(** ** Paths *)

Inductive PathSegment :=
| PathSegmentOfString (s : string)
| PathSegmentOfInt (i : Z).

Definition Path := list PathSegment.

(** [Path.AppendSegment] has a value receiver: it returns the longer path and
    leaves its receiver as it was. *)
Definition AppendSegment (p : Path) (ps : PathSegment) : Path := (p ++ [ps])%list.

(** ** The marshaler *)

(** [Loader] resolves a link to a node, or to [nil]. *)
Definition LinkLoader := Cid -> Path -> option Node.

(** [DagMarshaler]; a [nil] loader is [None]. *)
Record DagMarshaler := { Loader_ : option LinkLoader; Path_ : Path }.

(** [d.Loader(lnk.Cid, d.Path)] when a loader is set; [nil] otherwise. *)
Definition loadLink (d : DagMarshaler) (c : Cid) : option Node :=
  match Loader_ d with
  | Some loader => loader c (Path_ d)
  | None => None
  end.

(** The codecs the marshaler calls: addresses, content identifiers, bitfields. *)
Class Codecs := {
  Address : Type;
  address_NewFromBytes : bytes -> result Address;
  Address_String : Address -> string;
  Cid_UnmarshalBinary : bytes -> result Cid;
  Cid_String : Cid -> string;
  BitField : Type;
  bitfield_zero : BitField;
  bitfield_NewFromBytes : bytes -> result BitField;
  BitField_UnmarshalCBOR : BitField -> bytes -> result BitField;
  (** the bytes written to the buffer and the returned error *)
  BitField_MarshalCBOR : BitField -> bytes * option error
}.

(** [hex.EncodeToString]. *)
Definition hextable : string := "0123456789abcdef".

Definition hexDigit (n : N) : ascii :=
  match String.get (N.to_nat n) hextable with
  | Some c => c
  | None => "0"%char
  end.

Fixpoint hex_EncodeToString (src : bytes) : string :=
  match src with
  | [] => ""
  | v :: src' =>
      String (hexDigit (N.shiftr (Byte.to_N v) 4))
        (String (hexDigit (N.land (Byte.to_N v) 15)) (hex_EncodeToString src'))
  end.



(** [base64.StdEncoding.EncodeToString]. *)
Definition encodeStd : string :=
  "ABCDEFGHIJKLMNOPQRSTUVWXYZabcdefghijklmnopqrstuvwxyz0123456789+/".

Definition b64Digit (n : N) : ascii :=
  match String.get (N.to_nat n) encodeStd with
  | Some c => c
  | None => "="%char
  end.

Fixpoint base64_EncodeToString (src : bytes) : string :=
  match src with
  | [] => ""
  | [a] =>
      let v := N.shiftl (Byte.to_N a) 16 in
      String (b64Digit (N.land (N.shiftr v 18) 63))
        (String (b64Digit (N.land (N.shiftr v 12) 63)) "==")
  | [a; b] =>
      let v := N.lor (N.shiftl (Byte.to_N a) 16) (N.shiftl (Byte.to_N b) 8) in
      String (b64Digit (N.land (N.shiftr v 18) 63))
        (String (b64Digit (N.land (N.shiftr v 12) 63))
          (String (b64Digit (N.land (N.shiftr v 6) 63)) "="))
  | a :: b :: c :: src' =>
      let v := N.lor (N.lor (N.shiftl (Byte.to_N a) 16) (N.shiftl (Byte.to_N b) 8))
                 (Byte.to_N c) in
      String (b64Digit (N.land (N.shiftr v 18) 63))
        (String (b64Digit (N.land (N.shiftr v 12) 63))
          (String (b64Digit (N.land (N.shiftr v 6) 63))
            (String (b64Digit (N.land v 63)) (base64_EncodeToString src'))))
  end.

(** The emitting monad: a state transformer over the sink; [None] stands for
    a walk that does not return (the fuel ran out). *)
Definition T (S A : Type) : Type := S -> option (S * result A).

Definition tret {S A} (a : A) : T S A := fun s => Some (s, Ok a).

Definition tbind {S A B} (m : T S A) (f : A -> T S B) : T S B :=
  fun s =>
    match m s with
    | Some (s', Ok a) => f a s'
    | Some (s', Err e) => Some (s', Err e)
    | Some (s', Panic msg) => Some (s', Panic msg)
    | None => None
    end.

Declare Scope tok_scope.
Delimit Scope tok_scope with tok.
Notation "x <- c1 ;; c2" := (tbind c1 (fun x => c2))
  (at level 100, c1 at next level, right associativity) : tok_scope.
Notation "c1 ;; c2" := (tbind c1 (fun _ => c2))
  (at level 100, right associativity) : tok_scope.
Open Scope tok_scope.

Definition tlift {S A} (r : result A) : T S A := fun s => Some (s, r).

Section Marshal.
Context {S : Type}.
(** [sink.Step(&tk)]: the new state of the sink and the returned error. *)
Variable Step : S -> Token -> S * option error.
Context `{Codecs}.

Definition step (tk : Token) : T S unit :=
  fun s =>
    match Step s tk with
    | (s', None) => Some (s', Ok tt)
    | (s', Some e) => Some (s', Err e)
    end.

(** The re-rendering of a string by the Go type of its node. *)
Definition renderString (n : Node) (v : string) : result string :=
  match n with
  | StringNode types_RawAddress _ =>
      match address_NewFromBytes (bytes_of_string v) with
      | Ok a => Ok (Address_String a)
      | Err e => Err e
      | Panic msg => Panic msg
      end
  | StringNode types_CidString _ =>
      match Cid_UnmarshalBinary (bytes_of_string v) with
      | Ok c => Ok (Cid_String c)
      | Err e => Err e
      | Panic msg => Panic msg
      end
  | _ => Ok v
  end.

(** The loop over the entries of a map. *)
Fixpoint marshalEntries (rec : DagMarshaler -> Node -> T S unit) (d : DagMarshaler)
    (tk : Token) (es : list (Node * Node)) : T S Token :=
  match es with
  | [] => tret tk
  | (k, v) :: es' =>
      let tk := set_Type tk TString in
      str <- tlift (AsString k) ;;
      let tk := set_Str tk str in
      str <- tlift (renderString k (Str tk)) ;;
      let tk := set_Str tk str in
      step tk ;;
      let next := {| Loader_ := Loader_ d;
                     Path_ := AppendSegment (Path_ d) (PathSegmentOfString (Str tk)) |} in
      rec next v ;;
      marshalEntries rec d tk es'
  end.

(** The loop over the elements of a list.  The path returned by
    [AppendSegment] is not stored. *)
Fixpoint marshalElems (rec : DagMarshaler -> Node -> T S unit) (d : DagMarshaler)
    (i : Z) (vs : list Node) : T S unit :=
  match vs with
  | [] => tret tt
  | v :: vs' =>
      let next := d in
      let _ := AppendSegment (Path_ next) (PathSegmentOfInt i) in
      rec next v ;;
      marshalElems rec d (i + 1)%Z vs'
  end.

(** [bitfield.NewFromBytes(v)], and on its error [b.UnmarshalCBOR]. *)
Definition decodeBitField (v : bytes) : result BitField :=
  match bitfield_NewFromBytes v with
  | Ok b => Ok b
  | Err _ => BitField_UnmarshalCBOR bitfield_zero v
  | Panic msg => Panic msg
  end.

(** The [ReprKind_Bytes] case. *)
Definition marshalBytes (tk : Token) (ty : BytesType) (v : bytes) : T S unit :=
  let tk := set_Type tk TString in
  tk <- match ty with
        | types_Address =>
            a <- tlift (address_NewFromBytes v) ;;
            tret (set_Str tk (Address_String a))
        | types_BigInt =>
            let i := SetBytes v in
            tret (set_Str tk (big_String i))
        | types_BitField =>
            b <- tlift (decodeBitField v) ;;
            let tk := set_Length (set_Type tk TMapOpen) 2%Z in
            step tk ;;
            let tk := set_Str (set_Type tk TString) "_type" in
            step tk ;;
            let tk := set_Str tk "bitfield" in
            step tk ;;
            let tk := set_Str tk "bytes" in
            step tk ;;
            let buf := fst (BitField_MarshalCBOR b) in
            let tk := set_Str tk (hex_EncodeToString buf) in
            step tk ;;
            tret (set_Type tk TMapClose)
        | types_Bytes =>
            tret (set_Str tk (base64_EncodeToString v))
        end ;;
  step tk.

(** The [ReprKind_Link] case once no node is inlined: precisely four tokens. *)
Definition marshalLinkTokens (tk : Token) (c : Cid) : T S unit :=
  let tk := set_Length (set_Type tk TMapOpen) 1%Z in
  step tk ;;
  let tk := set_Str (set_Type tk TString) "/" in
  step tk ;;
  let tk := set_Str tk (Cid_String c) in
  step tk ;;
  let tk := set_Type tk TMapClose in
  step tk.

(** [MarshalRecursive] is a combination traversal + codec.  A loader can
    hand back ever new nodes, so the recursion is bounded by [fuel]. *)
Fixpoint MarshalRecursive (fuel : nat) (d : DagMarshaler) (n : Node) : T S unit :=
  match fuel with
  | O => fun _ => None
  | Datatypes.S fuel =>
      let tk := zeroToken in
      match n with
      | Absent => tlift (Err "cannot traverse a node that is absent")
      | Null =>
          let tk := set_Type tk TNull in
          step tk
      | MapNode es =>
          let tk := set_Length (set_Type tk TMapOpen) (Z.of_nat (List.length es)) in
          step tk ;;
          tk <- marshalEntries (MarshalRecursive fuel) d tk es ;;
          let tk := set_Type tk TMapClose in
          step tk
      | ListNode vs =>
          let tk := set_Type tk TArrOpen in
          let l := Z.of_nat (List.length vs) in
          let tk := set_Length tk l in
          step tk ;;
          marshalElems (MarshalRecursive fuel) d 0%Z vs ;;
          let tk := set_Type tk TArrClose in
          step tk
      | BoolNode v =>
          let tk := set_Bool (set_Type tk TBool) v in
          step tk
      | IntNode v =>
          let tk := set_Int (set_Type tk TInt) v in
          step tk
      | FloatNode v =>
          let tk := set_Float64 (set_Type tk TFloat64) v in
          step tk
      | StringNode _ v =>
          str <- tlift (renderString n v) ;;
          let tk := set_Type (set_Str tk str) TString in
          step tk
      | BytesNode ty v => marshalBytes tk ty v
      | LinkNode lnk =>
          match lnk with
          | cidlink_Link c =>
              match loadLink d c with
              | Some node =>
                  let next := d in
                  MarshalRecursive fuel next node
              | None => marshalLinkTokens tk c
              end
          | other_Link _ =>
              tlift (Err "schemafree link emission only supported by this codec for CID type links")
          end
      end
  end.

End Marshal.

(** [Marshal] is a non-link-aware marshaler. *)
Definition Marshal {S} (Step : S -> Token -> S * option error) `{Codecs}
    (fuel : nat) (n : Node) : T S unit :=
  MarshalRecursive Step fuel {| Loader_ := None; Path_ := [] |} n.

(** A sink that accepts every token and keeps what each one says. *)
Definition recordStep (s : list Tok) (tk : Token) : list Tok * option error :=
  ((s ++ [tokenOf tk])%list, None).

(** Handing a sequence of tokens to a sink, up to its first error. *)
Fixpoint feed {S} (Step : S -> Token -> S * option error) (tks : list Token) (s : S)
    : S * result unit :=
  match tks with
  | [] => (s, Ok tt)
  | tk :: tks' =>
      match Step s tk with
      | (s', None) => feed Step tks' s'
      | (s', Some e) => (s', Err e)
      end
  end.

Close Scope tok_scope.

(** ** Codecs for the examples

    Stand-ins for the address, cid and bitfield libraries: an address and a
    cid are rendered by a prefix and their bytes; a bitfield is kept in its
    compacted (RLE+) bytes, read either directly or out of a CBOR byte
    string, and written as a CBOR byte string. *)

Module ExampleCodecs.

(** The header of a CBOR byte string of [n] bytes. *)
Definition byteOf (n : N) : Byte.byte :=
  match Byte.of_N n with
  | Some b => b
  | None => Byte.x00
  end.

Definition cborBytesHeader (n : N) : bytes :=
  if (n <? 24)%N then [byteOf (64 + n)]
  else if (n <? 256)%N then [Byte.x58; byteOf n]
  else [Byte.x59; byteOf (N.shiftr n 8); byteOf (N.land n 255)].

(** The RLE+ version is held in the two low bits of the first byte. *)
Definition FromBuf (rle : bytes) : result bytes :=
  match rle with
  | b :: _ =>
      if (N.land (Byte.to_N b) 3 =? 0)%N then Ok rle
      else Err "could not create RLE+ for a buffer: wrong version"
  | [] => Ok rle
  end.

Definition takeBytes (n : N) (buf : bytes) : result bytes :=
  if (N.of_nat (List.length buf) <? n)%N then Err "unexpected EOF"
  else Ok (firstn (N.to_nat n) buf).

Definition UnmarshalCBOR (buf : bytes) : result bytes :=
  match buf with
  | h :: rest =>
      let m := Byte.to_N h in
      if ((64 <=? m) && (m <? 88))%N then
        match takeBytes (m - 64) rest with
        | Ok rle => FromBuf rle
        | Err e => Err e
        | Panic msg => Panic msg
        end
      else if (m =? 88)%N then
        match rest with
        | l :: rest' =>
            match takeBytes (Byte.to_N l) rest' with
            | Ok rle => FromBuf rle
            | Err e => Err e
            | Panic msg => Panic msg
            end
        | [] => Err "unexpected EOF"
        end
      else Err "expected byte array"
  | [] => Err "unexpected EOF"
  end.

Definition MarshalCBOR (rle : bytes) : bytes * option error :=
  let n := N.of_nat (List.length rle) in
  if (8192 <? n)%N then ([], Some "encoded bitfield was too large")
  else ((cborBytesHeader n ++ rle)%list, None).

(** The bits of a byte string, least significant bit of each byte first. *)
Definition bitsLSB (b : bytes) : list bool :=
  flat_map (fun x => map (N.testbit (Byte.to_N x)) [0; 1; 2; 3; 4; 5; 6; 7]%N) b.

(** The number held in the first [k] bits, least significant first. *)
Fixpoint readBits (k : nat) (bs : list bool) : N * list bool :=
  match k, bs with
  | S k', b :: bs' =>
      let '(n, rest) := readBits k' bs' in ((if b then 1 else 0) + 2 * n, rest)%N
  | _, _ => (0%N, bs)
  end.

(** The runs of an RLE+ stream: ["1"] is a run of one, ["01"] and four bits a
    short run, ["00"] and a varint of one byte a long run.  Runs of unset and
    set bits alternate. *)
Fixpoint runs (fuel : nat) (bs : list bool) : list N :=
  match fuel with
  | O => []
  | S fuel' =>
      match bs with
      | true :: rest => 1%N :: runs fuel' rest
      | false :: true :: rest =>
          let '(n, rest') := readBits 4 rest in
          if (n =? 0)%N then [] else n :: runs fuel' rest'
      | false :: false :: rest =>
          let '(n, rest') := readBits 8 rest in
          if (n =? 0)%N then [] else n :: runs fuel' rest'
      | _ => []
      end
  end.

Fixpoint setBits (set : bool) (from : N) (rs : list N) : list N :=
  match rs with
  | [] => []
  | r :: rs' =>
      ((if set then map (fun i => from + N.of_nat i)%N (seq 0 (N.to_nat r)) else [])
         ++ setBits (negb set) (from + r) rs')%list
  end.

(** The set bits of a compacted bitfield. *)
Definition bitsOf (rle : bytes) : list N :=
  match bitsLSB rle with
  | _ :: _ :: first :: rest => setBits first 0 (runs (List.length rest) rest)
  | _ => []
  end.

#[local] Instance codecs : Codecs := {|
  Address := string;
  address_NewFromBytes := fun b =>
    match b with
    | [] => Err "invalid address length"
    | _ => Ok (string_of_bytes b)
    end;
  Address_String := fun a => "f" ++ a;
  Cid_UnmarshalBinary := fun b =>
    match b with
    | [] => Err "invalid cid"
    | _ => Ok {| str := string_of_bytes b |}
    end;
  Cid_String := str;
  BitField := bytes;
  bitfield_zero := [];
  bitfield_NewFromBytes := FromBuf;
  BitField_UnmarshalCBOR := fun _ buf => UnmarshalCBOR buf;
  BitField_MarshalCBOR := MarshalCBOR
|}.

(** The text of a path: its segments joined by ['/']. *)
Fixpoint Path_String (p : Path) : string :=
  match p with
  | [] => ""
  | [PathSegmentOfString s] => s
  | [PathSegmentOfInt i] => Sprintf_d i
  | PathSegmentOfString s :: p' => s ++ "/" ++ Path_String p'
  | PathSegmentOfInt i :: p' => Sprintf_d i ++ "/" ++ Path_String p'
  end.

(** A loader that answers every link with the path it was asked at. *)
Definition pathLoader : LinkLoader :=
  fun _ p => Some (StringNode types_String (Path_String p)).

(** A loader that knows one block. *)
Definition oneBlockLoader (known : Cid) (X : Node) : LinkLoader :=
  fun c _ => if decide (c = known) then Some X else None.

Definition bafyEXAMPLE : Cid := {| str := "bafyEXAMPLE" |}.

(** The compacted form of the bits 0, 2 and 5, bare and inside CBOR. *)
Definition rle025 : bytes := [Byte.xbc; Byte.x12].
Definition cbor025 : bytes := [Byte.x42; Byte.xbc; Byte.x12].

End ExampleCodecs.

(** ** Vocabulary of the properties *)

(** Every alias target is a canonical key: it has no separator to rewrite,
    no index marker, and is not itself an alias. *)
Definition canonicalKey (t : string) : Prop :=
  noSlash t = true /\ hasMatch "[" "]" t = false /\ hasMatch "." "." t = false
  /\ LotusTypeAliases !! t = None.

(** The decimal string of the big-endian unsigned integer held in the bytes
    of a key. *)
Definition bigEndianDecimal (k : string) : string := big_String (SetBytes (bytes_of_string k)).

(** Both fail, or both return the same node. *)
Definition agree (r1 r2 : result Node) : Prop :=
  match r1, r2 with
  | Ok n1, Ok n2 => n1 = n2
  | Ok _, _ => False
  | _, Ok _ => False
  | _, _ => True
  end.

(** The type keys on which the revisions differ. *)
Definition revisedKeys : list LotusType :=
  [ LotusTypeStateroot; InitActorAddresses; StoragePowerActorCronEventQueue;
    MarketActorProposals; MarketActorPendingProposals ].

Section DecoderVocabulary.
Context `{Collaborators}.

(** The key node that [AssembleEntry] makes of a string. *)
Definition keyNode (p : NodePrototype) (k : string) : Node := StringNode (keyType p) k.

(** An assembler on which a map is open: what the failing paths leave behind. *)
Definition mapIsOpen (na : NodeAssembler) : Prop := exists es key, state na = MapOpen es key.

(** What a visitor of a map decoder does to the assembler, when it emits the
    key [kf k] for the entry [k]: either it completes one entry with that
    key, or it fails and leaves the map open. *)
Definition assemblesEntry {K V} (kf : K -> string) (cb : K -> V -> M unit) : Prop :=
  forall k v na es na' r, state na = MapOpen es None -> cb k v na = (na', r) ->
    Prototype na' = Prototype na /\
    match r with
    | Ok _ => exists n, state na' = MapOpen (es ++ [(keyNode (Prototype na) (kf k), n)]) None
    | _ => mapIsOpen na'
    end.

(** The shape shared by the map decoders: load the structure, begin a map,
    visit every entry, finish. *)
Definition mapDecoder {K V} (load : result (Iter K V)) (cb : K -> V -> M unit) : M unit :=
  (src <- lift load ;; BeginMap 0 ;; ForEach src cb ;; Finish)%asm.

(** [D] is a map decoder over the structure given by [load] that emits the
    key [kf k] for the entry [k]: a successful run on a fresh builder has
    visited the whole structure and finished a map with these keys, in order. *)
Definition emitsKeys {K V} (D : Loader) (load : Blockstore -> Cid -> result (Iter K V))
    (kf : K -> string) : Prop :=
  forall c store na na' u, state na = Fresh -> D c store na = (na', Ok u) ->
    exists src es,
      load store c = Ok src /\ failure src = None /\
      state na' = Finished (MapNode es) /\
      map fst es = map (fun kv => keyNode (Prototype na) (kf (fst kv))) (entries src).

(** [D] gives up without a finished node whenever it returns an error. *)
Definition abortsUnfinished (D : Loader) : Prop :=
  forall c store na na' r, state na = Fresh -> D c store na = (na', r) ->
    match r with
    | Ok _ => exists n, state na' = Finished n
    | _ => forall n, state na' <> Finished n
    end.

(** The prototypes with a registered structure decoder. *)
Definition complexPrototypes : list NodePrototype :=
  [ types.Map__LotusActors__Repr; types.Map__ActorID__Repr;
    types.Map__SectorPreCommitOnChainInfo__Repr; types.Map__BitField__Repr;
    types.Map__SectorOnChainInfo__Repr; types.Map__MinerV0Partition__Repr;
    types.Map__MinerV0ExpirationSet__Repr; types.Map__PowerV0CronEvent__Repr;
    types.Map__PowerV0Claim__Repr; types.Map__DataCap__Repr;
    types.Map__MarketV0DealProposal__Repr; types.Map__MarketV0RawDealProposal__Repr;
    types.Map__MarketV0DealState__Repr; types.Map__BalanceTable__Repr;
    types.Map__List__DealID__Repr; types.Map__MultisigV0Transaction__Repr;
    types.Map__PaychV0LaneState__Repr ].

(** [D] passes the string key of the structure it visits through unchanged,
    the structure being one of those with string keys. *)
Definition passesStringKeys (D : Loader) : Prop :=
  emitsKeys D hamt_LoadNode (fun k => k)
  \/ emitsKeys D adt_AsMap (fun k => k)
  \/ emitsKeys D adt_AsMultimap (fun k => k)
  \/ emitsKeys D adt_AsSet (fun k => k).

End DecoderVocabulary.

Section MarshalVocabulary.
Context `{Codecs}.

(** The four tokens of a link that is not inlined. *)
Definition linkTokens (c : Cid) : list Tok :=
  [MapOpenTok 1; StringTok "/"; StringTok (Cid_String c); MapCloseTok].


End MarshalVocabulary.

(** ** Further vocabulary: paths *)

(** The byte [c] does not occur in [s]. *)
Fixpoint noChar (c : ascii) (s : string) : bool :=
  match s with
  | EmptyString => true
  | String x s' => (negb (Ascii.eqb x c) && noChar c s')%bool
  end.

(** [s] is made of ASCII digits only. *)
Fixpoint allDigits (s : string) : bool :=
  match s with
  | EmptyString => true
  | String x s' => (isDigit x && allDigits s')%bool
  end.

(** [LotusActorCodes] for v0 actor states. *)
Definition LotusActorCodes : gmap string LotusType :=
  list_to_map
    [ ("bafkqaddgnfwc6mjpon4xg5dfnu", "systemActor");
      ("bafkqactgnfwc6mjpnfxgs5a", InitActorState);
      ("bafkqaddgnfwc6mjpojsxoylsmq", RewardActorState);
      ("bafkqactgnfwc6mjpmnzg63q", CronActorState);
      ("bafkqaetgnfwc6mjpon2g64tbm5sxa33xmvza", StoragePowerActorState);
      ("bafkqae3gnfwc6mjpon2g64tbm5sw2ylsnnsxi", MarketActorState);
      ("bafkqaftgnfwc6mjpozsxe2lgnfswi4tfm5uxg5dspe", VerifiedRegistryActorState);
      ("bafkqadlgnfwc6mjpmfrwg33vnz2a", AccountActorState);
      ("bafkqadtgnfwc6mjpnv2wy5djonuwo", MultisigActorState);
      ("bafkqafdgnfwc6mjpobqxs3lfnz2gg2dbnzxgk3a", PaymentChannelActorState);
      ("bafkqaetgnfwc6mjpon2g64tbm5sw22lomvza", StorageMinerActorState) ].

(** [codeMap] of npm/app/components/lotusActor.js: the same encodings, as the
    browser component knows them. *)
Definition codeMap : gmap string string :=
  list_to_map
    [ ("bafkqaddgnfwc6mjpon4xg5dfnu", "systemActor");
      ("bafkqactgnfwc6mjpnfxgs5a", "initActor");
      ("bafkqaddgnfwc6mjpojsxoylsmq", "rewardActor");
      ("bafkqactgnfwc6mjpmnzg63q", "cronActor");
      ("bafkqaetgnfwc6mjpon2g64tbm5sxa33xmvza", "storagePowerActor");
      ("bafkqae3gnfwc6mjpon2g64tbm5sw2ylsnnsxi", "storageMarketActor");
      ("bafkqaftgnfwc6mjpozsxe2lgnfswi4tfm5uxg5dspe", "verifiedRegistryActor");
      ("bafkqadlgnfwc6mjpmfrwg33vnz2a", "accountActor");
      ("bafkqadtgnfwc6mjpnv2wy5djonuwo", "multisigActor");
      ("bafkqafdgnfwc6mjpobqxs3lfnz2gg2dbnzxgk3a", "paymentChannelActor");
      ("bafkqaetgnfwc6mjpon2g64tbm5sw22lomvza", "storageMinerActor") ].

(** ** What the map decoders store

    The entry stored for one element of the visited structure, for each of
    the visitors of the decoders: [proto] is the prototype of the assembler,
    [kv] the element and [e] the stored (key, value) pair. *)

Section DecoderValues.
Context `{Collaborators}.

(** A visitor that adds, on success, one entry related by [R] to the element. *)
Definition assemblesValue {K V} (R : NodePrototype -> K * V -> Node * Node -> Prop)
    (cb : K -> V -> M unit) : Prop :=
  forall k v na es na' u, state na = MapOpen es None -> cb k v na = (na', Ok u) ->
    Prototype na' = Prototype na /\
    exists e, state na' = MapOpen (es ++ [e]) None /\ R (Prototype na) (k, v) e.

(** A successful run of [D] on a fresh builder has loaded the structure with
    [load], visited all of it, and finished a map that holds, in order, one
    entry per element, related to it by [R]. *)
Definition storesEntries {K V} (D : Loader) (load : Blockstore -> Cid -> result (Iter K V))
    (R : NodePrototype -> K * V -> Node * Node -> Prop) : Prop :=
  forall c store na na' u, state na = Fresh -> D c store na = (na', Ok u) ->
    exists src es,
      load store c = Ok src /\ failure src = None /\
      state na' = Finished (MapNode es) /\
      Forall2 (R (Prototype na)) (entries src) es.

(** The value of a HAMT is deferred CBOR, decoded with the prototype [p]. *)
Definition decodedNode (kf : string -> string) (p proto : NodePrototype)
    (kv : string * HamtValue) (e : Node * Node) : Prop :=
  exists raw d,
    snd kv = Deferred raw /\ dagcbor_Decode p raw = Ok d /\
    AssignNode_value proto d = Ok (snd e) /\ fst e = keyNode proto (kf (fst kv)).

(** The value of a HAMT is deferred CBOR holding an integer. *)
Definition decodedInt (proto : NodePrototype) (kv : string * HamtValue) (e : Node * Node)
    : Prop :=
  exists raw i,
    snd kv = Deferred raw /\ cbor_DecodeInto_CborInt raw = Ok i /\
    AssignInt_value proto i = Ok (snd e) /\ fst e = keyNode proto (fst kv).

(** The value of a HAMT is deferred CBOR, stored as the raw bytes. *)
Definition deferredBytes (proto : NodePrototype) (kv : string * HamtValue) (e : Node * Node)
    : Prop :=
  exists raw,
    snd kv = Deferred raw /\
    AssignBytes_value proto raw = Ok (snd e) /\ fst e = keyNode proto (fst kv).

(** The element of a sharded array, decoded with the prototype [p]. *)
Definition arrayNode (p proto : NodePrototype) (kv : Z * bytes) (e : Node * Node) : Prop :=
  exists d,
    dagcbor_Decode p (snd kv) = Ok d /\
    AssignNode_value proto d = Ok (snd e) /\ fst e = keyNode proto (Sprintf_d (fst kv)).

(** The element of a sharded array is a CBOR byte string, stored as its bytes. *)
Definition arrayBytes (proto : NodePrototype) (kv : Z * bytes) (e : Node * Node) : Prop :=
  exists b,
    CBORBytes_UnmarshalCBOR (snd kv) = Ok b /\
    AssignBytes_value proto b = Ok (snd e) /\ fst e = keyNode proto (Sprintf_d (fst kv)).


(** [D] returns the error of [load] as it is, before touching the assembler. *)
Definition returnsLoadError {K V} (D : Loader)
    (load : Blockstore -> Cid -> result (Iter K V)) : Prop :=
  forall c store na e, load store c = Err e -> D c store na = (na, Err e).

(** On a structure without entries [D] finishes the empty map, provided the
    schema lets a map be begun and finished on the prototype; when the visit
    of such a structure breaks off, [D] returns that error with the map open. *)
Definition emptyStructure {K V} (D : Loader)
    (load : Blockstore -> Cid -> result (Iter K V)) : Prop :=
  forall c store na src,
    state na = Fresh -> load store c = Ok src -> entries src = [] ->
    BeginMap_check (Prototype na) = None ->
    match failure src with
    | Some e =>
        D c store na = ({| Prototype := Prototype na; state := MapOpen [] None |}, Err e)
    | None =>
        match Finish_check (Prototype na) with
        | Some e =>
            D c store na = ({| Prototype := Prototype na; state := MapOpen [] None |}, Err e)
        | None =>
            D c store na = ({| Prototype := Prototype na; state := Finished (MapNode []) |}, Ok tt)
        end
    end.

(** A result that is a panic. *)
Definition panics {A} (r : result A) : Prop :=
  match r with
  | Panic _ => True
  | _ => False
  end.

(** Neither the store nor a collaborator working on it panics. *)
Record PanicFree (store : Blockstore) : Prop := {
  quiet_store : forall c, ~ panics (store c);
  quiet_AssignNode : forall p n, ~ panics (AssignNode_value p n);
  quiet_AssignInt : forall p i, ~ panics (AssignInt_value p i);
  quiet_AssignBytes : forall p b, ~ panics (AssignBytes_value p b);
  quiet_Decode : forall p data, ~ panics (dagcbor_Decode p data);
  quiet_CborInt : forall data, ~ panics (cbor_DecodeInto_CborInt data);
  quiet_CBORBytes : forall data, ~ panics (CBORBytes_UnmarshalCBOR data);
  quiet_ParseUIntKey : forall k, ~ panics (abi_ParseUIntKey k);
  quiet_LoadNode : forall c, ~ panics (hamt_LoadNode store c);
  quiet_AsArray : forall c, ~ panics (adt_AsArray store c);
  quiet_AsMultimap : forall c, ~ panics (adt_AsMultimap store c);
  quiet_AsMap : forall c, ~ panics (adt_AsMap store c);
  quiet_AsSet : forall c, ~ panics (adt_AsSet store c)
}.

(** A visitor that does not panic on an assembler awaiting a map key. *)
Definition quietVisitor {K V} (cb : K -> V -> M unit) : Prop :=
  forall k v na es, state na = MapOpen es None -> ~ panics (snd (cb k v na)).


End DecoderValues.

(** ** Well-formed token streams

    The tokens of one value: a scalar, or a map of [n] entries (a string key
    and one value each) between [MapOpen n] and [MapClose], or a list of [n]
    values between [ArrOpen n] and [ArrClose]. *)

Inductive ValueTokens : list Tok -> Prop :=
| VT_null : ValueTokens [NullTok]
| VT_bool b : ValueTokens [BoolTok b]
| VT_int i : ValueTokens [IntTok i]
| VT_float f : ValueTokens [Float64Tok f]
| VT_string s : ValueTokens [StringTok s]
| VT_map n ts :
    EntryTokens n ts -> ValueTokens (MapOpenTok (Z.of_nat n) :: ts ++ [MapCloseTok])
| VT_list n ts :
    ElemTokens n ts -> ValueTokens (ArrOpenTok (Z.of_nat n) :: ts ++ [ArrCloseTok])
with EntryTokens : nat -> list Tok -> Prop :=
| ET_nil : EntryTokens 0 []
| ET_cons k v n ts :
    ValueTokens v -> EntryTokens n ts -> EntryTokens (S n) (StringTok k :: v ++ ts)
with ElemTokens : nat -> list Tok -> Prop :=
| LT_nil : ElemTokens 0 []
| LT_cons v n ts : ValueTokens v -> ElemTokens n ts -> ElemTokens (S n) (v ++ ts).

(** The nesting depth of a node: the recursion depth of a walk over it that
    inlines no link. *)
Fixpoint depth (n : Node) : nat :=
  match n with
  | MapNode es =>
      S (fold_right (fun e m => Nat.max (match e with (_, v) => depth v end) m) 0%nat es)
  | ListNode vs => S (fold_right (fun v m => Nat.max (depth v) m) 0%nat vs)
  | _ => 1%nat
  end.

(** What a walk appends to the recorded stream, when it returns no error. *)
Definition appends {A} (P : list Tok -> Prop) (m : T (list Tok) A) : Prop :=
  forall s s' a, m s = Some (s', Ok a) -> exists ts, s' = (s ++ ts)%list /\ P ts.

(** A walk that returns from every state of the sink. *)
Definition returns {S A} (m : T S A) : Prop := forall s, exists r, m s = Some r.

(** ** The generated node type [types.Bytes]

    [schema.Maybe] with the values the generated code tells apart: the three
    of package schema (its zero value is [Maybe_Absent]), the package
    constant [allowNull], and any other value. *)

Module TypesBytes.

Inductive Maybe := Maybe_Absent | Maybe_Null | Maybe_Value | allowNull | Maybe_other.

#[global] Instance Maybe_eq_dec : EqDecision Maybe.
Proof. solve_decision. Defined.

(** [type _Bytes struct{ x []byte }]. *)
Record _Bytes := { x : bytes }.

(** The error of the mixins for a method that the kind does not have. *)
Definition ErrWrongKind (MethodName : string) : error :=
  "func called on wrong kind: " ++ MethodName.

Definition ReprKind (n : _Bytes) : ReprKind := ReprKind_Bytes.
Definition AsBytes (n : _Bytes) : result bytes := Ok (x n).

(** [_Bytes__Assembler]: the node being filled (the pointer [w] can be nil)
    and the progress marker that [m] points to. *)
Record _Bytes__Assembler := { w_ : option _Bytes; m_ : Maybe }.

(** A method of the assembler: the assembler afterwards and what is returned. *)
Definition A (R : Type) : Type := _Bytes__Assembler -> _Bytes__Assembler * result R.

(** [NewBuilder]: [Reset] gives the builder a zero node and a zero marker. *)
Definition Reset (nb : _Bytes__Assembler) : _Bytes__Assembler :=
  {| w_ := Some {| x := [] |}; m_ := Maybe_Absent |}.

Definition NewBuilder : _Bytes__Assembler :=
  Reset {| w_ := None; m_ := Maybe_Absent |}.

Definition Build (nb : _Bytes__Assembler) : result (option _Bytes) :=
  if bool_decide (m_ nb <> Maybe_Value) then
    Panic "invalid state: cannot call Build on an assembler that's not finished"
  else Ok (w_ nb).

Definition already_finished {R} : A R :=
  fun na => (na, Panic "invalid state: cannot assign into assembler that's already finished").

Definition AssignNull : A unit :=
  fun na =>
    match m_ na with
    | allowNull => ({| w_ := w_ na; m_ := Maybe_Null |}, Ok tt)
    | Maybe_Absent => (na, Err (ErrWrongKind "AssignNull"))
    | Maybe_Value | Maybe_Null => already_finished na
    | Maybe_other => (na, Panic "unreachable")
    end.

Definition AssignBytes (v : bytes) : A unit :=
  fun na =>
    match m_ na with
    | Maybe_Value | Maybe_Null => already_finished na
    | _ =>
        (* a nil [w] is first replaced by a zero node, then [w.x] is set *)
        ({| w_ := Some {| x := v |}; m_ := Maybe_Value |}, Ok tt)
    end.

(** [AssignNode]: a null node, a node of this very type (stored by pointer
    when [w] is nil, copied otherwise: the same node either way), or any
    other node, which is asked for its bytes. *)
Definition AssignNode (v : Node) : A unit :=
  fun na =>
    match v with
    | Null => AssignNull na
    | BytesNode types_Bytes b =>
        match m_ na with
        | Maybe_Value | Maybe_Null => already_finished na
        | _ => ({| w_ := Some {| x := b |}; m_ := Maybe_Value |}, Ok tt)
        end
    | BytesNode _ b => AssignBytes b na
    | _ => (na, Err (ErrWrongKind "AsBytes"))
    end.

(** An assembler that holds a finished value or a finished null. *)
Definition finished (na : _Bytes__Assembler) : Prop :=
  m_ na = Maybe_Value \/ m_ na = Maybe_Null.

End TypesBytes.

(** ** A sink under watch

    The sink [Step] together with the first error it has returned and with
    whether it was handed a token after that error. *)

Record Watched (S : Type) := {
  sink : S;
  firstError : option error;
  steppedAfterError : bool
}.
Arguments sink {S} _.
Arguments firstError {S} _.
Arguments steppedAfterError {S} _.

Definition watch {S} (Step : S -> Token -> S * option error) (w : Watched S) (tk : Token)
    : Watched S * option error :=
  let r := Step (sink w) tk in
  ({| sink := fst r;
      firstError := match firstError w with Some e0 => Some e0 | None => snd r end;
      steppedAfterError :=
        match firstError w with Some _ => true | None => steppedAfterError w end |},
   snd r).

(** A walk that, started before any error of the sink, hands it no token
    after its first error and returns that error. *)
Definition stopsAtError {S A} (m : T (Watched S) A) : Prop :=
  forall w, firstError w = None -> steppedAfterError w = false ->
    match m w with
    | Some (w', r) =>
        steppedAfterError w' = false
        /\ match firstError w' with Some e => r = Err e | None => True end
    | None => True
    end.

(** A sink that records the tokens and refuses every boolean. *)
Definition noBoolStep (s : list Tok) (tk : Token) : list Tok * option error :=
  ((s ++ [tokenOf tk])%list,
   match Type_ tk with TBool => Some "sink: no booleans" | _ => None end).

(** * Properties *)

(** ** Facts about the resolver *)

Example ResolveType_indexed :
  ResolveType "storageMinerActor/Deadlines/Due[3]/Partitions.12.ExpirationEpochs"
  = StorageMinerActorDeadlinePartitionExpiry.
Proof. vm_compute. reflexivity. Qed.

Example ResolveType_adjacent : ResolveType "a.1.2.b" = "a.2.b".
Proof. vm_compute. reflexivity. Qed.


Section ResolverFacts.

Variables (op cl : ascii) (repl : string).

Lemma matchAt_Some s n :
  matchAt op cl s = Some n -> exists c s', s = String c s' /\ 3 <= n /\ 1 <= String.length s'.
Proof.
  destruct s as [|c s']; simpl; [discriminate|].
  destruct (Ascii.eqb c op); [|discriminate].
  destruct (digitRun s') as [|k] eqn:Hk; [discriminate|].
  destruct (String.get (S k) s') as [c'|] eqn:Hg; [|discriminate].
  destruct (Ascii.eqb c' cl); [|discriminate].
  intros [= <-]. exists c, s'. repeat split; [lia|].
  destruct s'; simpl in *; [discriminate | lia].
Qed.

Lemma replaceAllFrom_nomatch s :
  hasMatch op cl s = false -> replaceAllFrom op cl repl 0 s = s.
Proof.
  induction s as [|c s IH]; [reflexivity|].
  cbn [hasMatch replaceAllFrom].
  destruct (matchAt op cl (String c s)); [discriminate|].
  intros H. now rewrite IH.
Qed.

Lemma length_append (a b : string) :
  String.length (a ++ b) = String.length a + String.length b.
Proof. induction a; simpl; [reflexivity | now rewrite IHa]. Qed.

Lemma replaceAllFrom_length k s :
  String.length repl <= 1 ->
  String.length (replaceAllFrom op cl repl k s) <= String.length s - k.
Proof.
  intros Hr. revert k. induction s as [|c s IH]; intros k; [simpl; lia|].
  cbn [replaceAllFrom]. destruct k as [|k].
  - destruct (matchAt op cl (String c s)) as [n|] eqn:Hm.
    + rewrite length_append. specialize (IH (pred n)). simpl. lia.
    + specialize (IH 0). simpl. lia.
  - specialize (IH k). simpl. lia.
Qed.

Lemma replaceAllFrom_shrinks s :
  String.length repl <= 1 ->
  hasMatch op cl s = true ->
  String.length (replaceAllFrom op cl repl 0 s) < String.length s.
Proof.
  intros Hr. induction s as [|c s IH]; [discriminate|].
  cbn [hasMatch replaceAllFrom].
  destruct (matchAt op cl (String c s)) as [n|] eqn:Hm.
  - intros _. destruct (matchAt_Some _ _ Hm) as (c0 & s0 & [= <- <-] & Hn & Hs).
    rewrite length_append. pose proof (replaceAllFrom_length (pred n) s Hr). simpl. lia.
  - intros H. specialize (IH H). simpl. lia.
Qed.

Lemma noSlash_append (a b : string) :
  noSlash a = true -> noSlash b = true -> noSlash (a ++ b) = true.
Proof.
  induction a as [|c a IH]; simpl; [auto|].
  intros [H1 H2]%andb_prop Hb. now rewrite H1, IH.
Qed.

Lemma replaceAllFrom_noSlash k s :
  noSlash repl = true -> noSlash s = true ->
  noSlash (replaceAllFrom op cl repl k s) = true.
Proof.
  intros Hr. revert k. induction s as [|c s IH]; intros k; [reflexivity|].
  cbn [replaceAllFrom noSlash]. intros [H1 H2]%andb_prop.
  destruct k as [|k]; [|now apply IH].
  destruct (matchAt op cl (String c s)).
  - apply noSlash_append; [assumption | now apply IH].
  - cbn [noSlash]. now rewrite H1, IH.
Qed.

End ResolverFacts.

Lemma strings_ReplaceAll_noSlash s : noSlash (strings_ReplaceAll_slash_dot s) = true.
Proof.
  induction s as [|c s IH]; [reflexivity|].
  simpl. rewrite IH. destruct (Ascii.eqb c "/") eqn:E; [reflexivity | now rewrite E].
Qed.

Lemma strings_ReplaceAll_id s : noSlash s = true -> strings_ReplaceAll_slash_dot s = s.
Proof.
  induction s as [|c s IH]; [reflexivity|].
  simpl. intros [H1 H2]%andb_prop. rewrite (IH H2).
  destruct (Ascii.eqb c "/"); [discriminate | reflexivity].
Qed.

Lemma normalizePath_noSlash p : noSlash (normalizePath p) = true.
Proof.
  unfold normalizePath, simplifyingRe2_ReplaceAll, simplifyingRe_ReplaceAll, ReplaceAll.
  apply replaceAllFrom_noSlash; [reflexivity|].
  apply replaceAllFrom_noSlash; [reflexivity|].
  apply strings_ReplaceAll_noSlash.
Qed.

Lemma normalizePath_length p : String.length (normalizePath p) <= String.length p.
Proof.
  unfold normalizePath, simplifyingRe2_ReplaceAll, simplifyingRe_ReplaceAll, ReplaceAll.
  assert (String.length (strings_ReplaceAll_slash_dot p) = String.length p) as H3.
  { induction p as [|c p IH]; simpl; [reflexivity | now rewrite IH]. }
  pose proof (replaceAllFrom_length "." "." "." 0
                (replaceAllFrom "[" "]" "" 0 (strings_ReplaceAll_slash_dot p))) as H1.
  pose proof (replaceAllFrom_length "[" "]" "" 0 (strings_ReplaceAll_slash_dot p)) as H2.
  simpl in H1, H2. lia.
Qed.

(** A path without separators to rewrite and without index markers is left
    alone by the normalisation. *)
Lemma normalizePath_fixed r :
  noSlash r = true -> hasMatch "[" "]" r = false -> hasMatch "." "." r = false ->
  normalizePath r = r.
Proof.
  intros Hs H1 H2.
  unfold normalizePath, simplifyingRe2_ReplaceAll, simplifyingRe_ReplaceAll, ReplaceAll.
  rewrite (strings_ReplaceAll_id _ Hs).
  rewrite (replaceAllFrom_nomatch _ _ _ _ H1).
  now apply replaceAllFrom_nomatch.
Qed.

(** A path in which an index marker remains gets strictly shorter. *)
Lemma normalizePath_shrinks r :
  noSlash r = true ->
  hasMatch "[" "]" r = true \/ hasMatch "." "." r = true ->
  String.length (normalizePath r) < String.length r.
Proof.
  intros Hs H.
  unfold normalizePath, simplifyingRe2_ReplaceAll, simplifyingRe_ReplaceAll, ReplaceAll.
  rewrite (strings_ReplaceAll_id _ Hs).
  pose proof (replaceAllFrom_length "." "." "." 0 (replaceAllFrom "[" "]" "" 0 r)) as H2.
  simpl in H2.
  destruct (hasMatch "[" "]" r) eqn:E1.
  - assert (String.length "" <= 1) as H0 by (simpl; lia).
    pose proof (replaceAllFrom_shrinks "[" "]" "" r H0 E1) as H1. lia.
  - destruct H as [H|H]; [discriminate|].
    rewrite (replaceAllFrom_nomatch _ _ _ _ E1).
    apply replaceAllFrom_shrinks; [simpl; lia | assumption].
Qed.

Lemma LotusTypeAliases_targets n t :
  LotusTypeAliases !! n = Some t -> canonicalKey t.
Proof.
  unfold LotusTypeAliases. cbn [list_to_map foldr fst snd uncurry].
  repeat (rewrite lookup_insert; case_decide;
          [intros [= <-]; repeat split; vm_compute; reflexivity|]).
  rewrite lookup_empty. discriminate.
Qed.

Lemma ResolveType_canonicalKey t : canonicalKey t -> ResolveType t = t.
Proof.
  intros (Hs & H1 & H2 & Ha). unfold ResolveType.
  rewrite (normalizePath_fixed _ Hs H1 H2). now rewrite Ha.
Qed.

Lemma ResolveType_noSlash p : noSlash (ResolveType p) = true.
Proof.
  unfold ResolveType. destruct (LotusTypeAliases !! normalizePath p) eqn:E.
  - now destruct (LotusTypeAliases_targets _ _ E).
  - apply normalizePath_noSlash.
Qed.

(** When an index marker is left in a path without ['/'], resolving it does
    not give the path back. *)
Lemma ResolveType_moves r :
  noSlash r = true ->
  hasMatch "[" "]" r = true \/ hasMatch "." "." r = true ->
  ResolveType r <> r.
Proof.
  intros Hs Hm Hfix. unfold ResolveType in Hfix.
  pose proof (normalizePath_shrinks r Hs Hm) as Hlt.
  destruct (LotusTypeAliases !! normalizePath r) as [t|] eqn:Ea.
  - apply LotusTypeAliases_targets in Ea. destruct Ea as (_ & H1 & H2 & _).
    subst t. destruct Hm; congruence.
  - rewrite Hfix in Hlt. lia.
Qed.

(** C1, as amended: resolving the result of [ResolveType] again gives the same
    type key exactly when the single pass of the two substitutions left no
    bracketed index and no delimiter-number-delimiter segment in the result.
    (A substitution pass does not look at the text it has just produced, so
    adjacent numeric segments and nested brackets survive one pass.) *)
Theorem ResolveType_idempotent_iff (p : string) :
  ResolveType (ResolveType p) = ResolveType p <->
  hasMatch "[" "]" (ResolveType p) = false /\ hasMatch "." "." (ResolveType p) = false.
Proof.
  pose proof (ResolveType_noSlash p) as Hs. split.
  - intros Hfix.
    destruct (hasMatch "[" "]" (ResolveType p)) eqn:E1;
      [exfalso; apply (ResolveType_moves _ Hs); auto|].
    destruct (hasMatch "." "." (ResolveType p)) eqn:E2;
      [exfalso; apply (ResolveType_moves _ Hs); auto|].
    split; reflexivity.
  - intros [H1 H2].
    destruct (LotusTypeAliases !! normalizePath p) as [t|] eqn:Ea.
    + assert (ResolveType p = t) as -> by (unfold ResolveType; now rewrite Ea).
      apply ResolveType_canonicalKey. exact (LotusTypeAliases_targets _ _ Ea).
    + assert (ResolveType p = normalizePath p) as Hr
        by (unfold ResolveType; now rewrite Ea).
      rewrite Hr in *. unfold ResolveType.
      rewrite (normalizePath_fixed _ Hs H1 H2). now rewrite Ea.
Qed.

(** C1, as stated, fails: two adjacent numeric segments need two passes. *)
Lemma ResolveType_not_idempotent :
  ~ (forall p : string, ResolveType (ResolveType p) = ResolveType p).
Proof.
  intros Hall. specialize (Hall "a.1.2.b"). vm_compute in Hall. discriminate.
Qed.

(** The same holds for the resolver of the switch-based revision, and for
    nested brackets. *)
Lemma Switch_ResolveType_not_idempotent :
  Switch.ResolveType (Switch.ResolveType "a.1.2.b") <> Switch.ResolveType "a.1.2.b"
  /\ Switch.ResolveType (Switch.ResolveType "a[[1]2]") <> Switch.ResolveType "a[[1]2]"
  /\ ResolveType (ResolveType "a[[1]2]") <> ResolveType "a[[1]2]".
Proof. repeat split; vm_compute; discriminate. Qed.

(** Every registered type key is canonical: resolving it changes nothing. *)
Lemma ResolveType_registered k proto :
  LotusPrototypes !! k = Some proto -> ResolveType k = k.
Proof.
  unfold LotusPrototypes. cbn [list_to_map foldr fst snd uncurry].
  repeat (rewrite lookup_insert; case_decide;
          [intros _; subst k; vm_compute; reflexivity|]).
  rewrite lookup_empty. discriminate.
Qed.

(** ** Facts about the assembling monad *)

Section DecoderFacts.
Context `{Collaborators}.

Lemma bind_Ok_inv {A B} (m : M A) (f : A -> M B) s s' b :
  bind m f s = (s', Ok b) -> exists a s1, m s = (s1, Ok a) /\ f a s1 = (s', Ok b).
Proof.
  unfold bind. destruct (m s) as [s1 [a|e|msg]]; try discriminate. eauto.
Qed.

Lemma forEachEntry_assembles {K V} (kf : K -> string) (cb : K -> V -> M unit) :
  assemblesEntry kf cb ->
  forall l na es na' r, state na = MapOpen es None -> forEachEntry l cb na = (na', r) ->
    Prototype na' = Prototype na /\
    match r with
    | Ok _ => exists es',
        state na' = MapOpen (es ++ es') None /\
        map fst es' = map (fun kv => keyNode (Prototype na) (kf (fst kv))) l
    | _ => mapIsOpen na'
    end.
Proof.
  intros Hcb l. induction l as [|[k v] l IH]; intros na es na' r Hst Hrun.
  - cbn in Hrun. injection Hrun as <- <-. split; [reflexivity|].
    exists []. now rewrite app_nil_r.
  - cbn [forEachEntry] in Hrun. unfold bind in Hrun.
    destruct (cb k v na) as [na1 r1] eqn:Hc.
    destruct (Hcb k v na es na1 r1 Hst Hc) as [Hp Hr].
    destruct r1 as [u|e|msg].
    + destruct Hr as [n Hn]. destruct (IH na1 _ na' r Hn Hrun) as [Hp' Hr'].
      split; [congruence|].
      destruct r; [|assumption..].
      destruct Hr' as (es' & Hs' & Hk). exists ((keyNode (Prototype na) (kf k), n) :: es').
      split; [now rewrite Hs', <- app_assoc|].
      cbn. f_equal. now rewrite Hk, Hp.
    + injection Hrun as <- <-. split; assumption.
    + injection Hrun as <- <-. split; assumption.
Qed.

(** A successful run of a map decoder on a fresh builder has visited the
    whole structure and finished a map whose keys are, in order, the emitted
    keys; a failed run leaves the builder unfinished. *)
Lemma mapDecoder_spec {K V} (kf : K -> string) (load : result (Iter K V)) cb :
  assemblesEntry kf cb ->
  forall na na' r, state na = Fresh -> mapDecoder load cb na = (na', r) ->
    match r with
    | Ok _ => exists src es,
        load = Ok src /\ failure src = None /\
        state na' = Finished (MapNode es) /\
        map fst es = map (fun kv => keyNode (Prototype na) (kf (fst kv))) (entries src)
    | _ => forall n, state na' <> Finished n
    end.
Proof.
  intros Hcb na na' r Hst. unfold mapDecoder, bind, lift.
  destruct load as [src|e|msg];
    try (intros [= <- <-] n; rewrite Hst; discriminate).
  unfold BeginMap. rewrite Hst.
  destruct (BeginMap_check (Prototype na)) as [e|];
    [intros [= <- <-] n; rewrite Hst; discriminate|].
  unfold ForEach, bind.
  set (na0 := {| Prototype := Prototype na; state := MapOpen [] None |}).
  destruct (forEachEntry (entries src) cb na0) as [na1 r1] eqn:Hloop.
  destruct (forEachEntry_assembles kf cb Hcb (entries src) na0 [] na1 r1 eq_refl Hloop)
    as [Hp Hr].
  destruct r1 as [u|e|msg].
  - destruct Hr as (es & Hs & Hk). unfold checkErr, fail, ret, lift.
    destruct (failure src) as [e|] eqn:Hf;
      [intros [= <- <-] n; rewrite Hs; discriminate|].
    unfold Finish. rewrite Hs.
    destruct (Finish_check (Prototype na1)) as [e|];
      [intros [= <- <-] n; rewrite Hs; discriminate|].
    intros [= <- <-]. exists src, es. repeat split; assumption.
  - intros [= <- <-] n. destruct Hr as (es & key & Hs). rewrite Hs. discriminate.
  - intros [= <- <-] n. destruct Hr as (es & key & Hs). rewrite Hs. discriminate.
Qed.

(** Case analysis on every call a visitor makes. *)
Ltac visitor_cases :=
  repeat match goal with
         | |- context [match ?x with _ => _ end] =>
             lazymatch x with
             | context [match _ with _ => _ end] => fail
             | _ => destruct x eqn:?
             end; cbn [fst snd state Prototype] in *
         end.

Ltac visitor_done :=
  let Heq := fresh "Heq" in
  intros Heq;
  first
    [ discriminate Heq
    | injection Heq as <- ?; subst; cbn [fst snd state Prototype];
      split; [reflexivity | first [ eexists; reflexivity | unfold mapIsOpen; eauto ] ] ].

Ltac assembles_entry :=
  intros k v na es na' r Hst;
  unfold Array_ForEach, Deferred_UnmarshalCBOR, decodeElement, onBuilder, asDeferred,
    AssignNode, AssignInt, AssignBytes, assignValue, AssembleEntry, dagcbor_Decoder, Build,
    NewBuilder, invalid_state, fail, bind, lift, ret;
  cbn [fst snd state Prototype]; rewrite Hst;
  visitor_cases; try visitor_done.

Lemma visitor_node (kf : string -> string) (p : NodePrototype) :
  assemblesEntry kf (fun k val =>
    AssembleEntry (kf k) ;;
    asDef <- asDeferred val ;;
    actor <- decodeElement p asDef ;;
    AssignNode actor)%asm.
Proof. assembles_entry. Qed.

Lemma visitor_int (kf : string -> string) :
  assemblesEntry kf (fun k val =>
    AssembleEntry (kf k) ;;
    asDef <- asDeferred val ;;
    actorID <- lift (cbor_DecodeInto_CborInt asDef) ;;
    AssignInt actorID)%asm.
Proof. assembles_entry. Qed.

Lemma visitor_bytes (kf : string -> string) :
  assemblesEntry kf (fun k val =>
    AssembleEntry (kf k) ;;
    asDef <- asDeferred val ;;
    AssignBytes asDef)%asm.
Proof. assembles_entry. Qed.

Lemma visitor_array_node (p : NodePrototype) :
  assemblesEntry Sprintf_d (fun k raw =>
    value <- lift (Deferred_UnmarshalCBOR raw) ;;
    AssembleEntry (Sprintf_d k) ;;
    actor <- decodeElement p value ;;
    AssignNode actor)%asm.
Proof. assembles_entry. Qed.

Lemma visitor_array_bytes :
  assemblesEntry Sprintf_d (fun k raw =>
    value <- lift (CBORBytes_UnmarshalCBOR raw) ;;
    AssembleEntry (Sprintf_d k) ;;
    AssignBytes value)%asm.
Proof. assembles_entry. Qed.

(** Visitors that assemble the value in a builder of their own. *)
Lemma visitor_nested {V} (kf : string -> string) (amt : NodeAssembler) (inner : V -> M unit) :
  assemblesEntry kf (fun k val =>
    AssembleEntry (kf k) ;;
    r <- onBuilder amt (inner val) ;;
    n <- lift (Build (fst r)) ;;
    AssignNode n)%asm.
Proof.
  intros k v na es na' r Hst.
  unfold onBuilder, AssignNode, assignValue, AssembleEntry, Build, invalid_state, fail, bind,
    lift, ret.
  cbn [fst snd state Prototype]. rewrite Hst.
  destruct (inner v amt) as [b [u|e|msg]]; visitor_cases; try visitor_done.
Qed.

Lemma visitor_nested_set {V S0} (kf : string -> string) (load : V -> result S0)
    (amt : NodeAssembler) (inner : S0 -> M unit) :
  assemblesEntry kf (fun k value =>
    set <- lift (load value) ;;
    AssembleEntry (kf k) ;;
    r <- onBuilder amt (inner set) ;;
    n <- lift (Build (fst r)) ;;
    AssignNode n)%asm.
Proof.
  intros k v na es na' r Hst.
  unfold onBuilder, AssignNode, assignValue, AssembleEntry, Build, invalid_state, fail, bind,
    lift, ret.
  cbn [fst snd state Prototype].
  destruct (load v) as [set|e|msg]; [|visitor_cases; visitor_done..].
  rewrite Hst.
  destruct (inner set amt) as [b [u|e|msg]]; visitor_cases; try visitor_done.
Qed.

Lemma decoder_of_spec {K V} (D : Loader) (load : Blockstore -> Cid -> result (Iter K V))
    (kf : K -> string) :
  (forall c store na na' r, state na = Fresh -> D c store na = (na', r) ->
     match r with
     | Ok _ => exists src es,
         load store c = Ok src /\ failure src = None /\
         state na' = Finished (MapNode es) /\
         map fst es = map (fun kv => keyNode (Prototype na) (kf (fst kv))) (entries src)
     | _ => forall n, state na' <> Finished n
     end) ->
  emitsKeys D load kf /\ abortsUnfinished D.
Proof.
  intros HD. split.
  - intros c store na na' u Hst Hrun. exact (HD c store na na' (Ok u) Hst Hrun).
  - intros c store na na' r Hst Hrun. pose proof (HD c store na na' r Hst Hrun) as Hs.
    destruct r; [|assumption..].
    destruct Hs as (src & es & _ & _ & Hf & _). eauto.
Qed.

(** Each decoder is an instance of the shared shape with one of the visitors. *)
Tactic Notation "map_decoder" reference(D) constr(kf) uconstr(Hvis) :=
  let c := fresh "c" in let store := fresh "store" in
  let na := fresh "na" in let na' := fresh "na'" in let r := fresh "r" in
  let Hst := fresh "Hst" in let Hrun := fresh "Hrun" in
  apply decoder_of_spec; intros c store na na' r Hst Hrun;
  unfold D, Array_ForEach in Hrun;
  refine (mapDecoder_spec kf _ _ Hvis na na' r Hst Hrun).

Lemma transformStateRoot_keys :
  emitsKeys transformStateRoot hamt_LoadNode (fun k => k)
  /\ abortsUnfinished transformStateRoot.
Proof. map_decoder transformStateRoot (fun k : string => k) (visitor_node (fun k => k) _). Qed.

Lemma transformInitActor_keys :
  emitsKeys transformInitActor hamt_LoadNode (fun k => k)
  /\ abortsUnfinished transformInitActor.
Proof. map_decoder transformInitActor (fun k : string => k) (visitor_int (fun k => k)). Qed.

Lemma transformMinerActorPreCommittedSectors_keys :
  emitsKeys transformMinerActorPreCommittedSectors hamt_LoadNode bigEndianDecimal
  /\ abortsUnfinished transformMinerActorPreCommittedSectors.
Proof.
  map_decoder transformMinerActorPreCommittedSectors bigEndianDecimal
    (visitor_node bigEndianDecimal _).
Qed.

Lemma transformMinerActorBitfieldHamt_keys :
  emitsKeys transformMinerActorBitfieldHamt adt_AsArray Sprintf_d
  /\ abortsUnfinished transformMinerActorBitfieldHamt.
Proof. map_decoder transformMinerActorBitfieldHamt Sprintf_d visitor_array_bytes. Qed.

Lemma transformMinerActorSectors_keys :
  emitsKeys transformMinerActorSectors adt_AsArray Sprintf_d
  /\ abortsUnfinished transformMinerActorSectors.
Proof. map_decoder transformMinerActorSectors Sprintf_d (visitor_array_node _). Qed.

Lemma transformMinerActorDeadlinePartitions_keys :
  emitsKeys transformMinerActorDeadlinePartitions adt_AsArray Sprintf_d
  /\ abortsUnfinished transformMinerActorDeadlinePartitions.
Proof. map_decoder transformMinerActorDeadlinePartitions Sprintf_d (visitor_array_node _). Qed.

Lemma transformMinerActorDeadlinePartitionExpiry_keys :
  emitsKeys transformMinerActorDeadlinePartitionExpiry adt_AsArray Sprintf_d
  /\ abortsUnfinished transformMinerActorDeadlinePartitionExpiry.
Proof.
  map_decoder transformMinerActorDeadlinePartitionExpiry Sprintf_d (visitor_array_node _).
Qed.

Lemma transformPowerActorEventQueue_keys :
  emitsKeys transformPowerActorEventQueue adt_AsMultimap bigEndianDecimal
  /\ abortsUnfinished transformPowerActorEventQueue.
Proof.
  map_decoder transformPowerActorEventQueue bigEndianDecimal
    (visitor_nested bigEndianDecimal _ _).
Qed.

Lemma transformPowerActorClaims_keys :
  emitsKeys transformPowerActorClaims hamt_LoadNode (fun k => k)
  /\ abortsUnfinished transformPowerActorClaims.
Proof. map_decoder transformPowerActorClaims (fun k : string => k) (visitor_node (fun k => k) _). Qed.

Lemma transformVerifiedRegistryDataCaps_keys :
  emitsKeys transformVerifiedRegistryDataCaps hamt_LoadNode (fun k => k)
  /\ abortsUnfinished transformVerifiedRegistryDataCaps.
Proof.
  map_decoder transformVerifiedRegistryDataCaps (fun k : string => k)
    (visitor_bytes (fun k => k)).
Qed.

Lemma transformMarketPendingProposals_keys :
  emitsKeys transformMarketPendingProposals hamt_LoadNode (fun k => k)
  /\ abortsUnfinished transformMarketPendingProposals.
Proof.
  map_decoder transformMarketPendingProposals (fun k : string => k)
    (visitor_node (fun k => k) _).
Qed.

Lemma transformMarketProposals_keys :
  emitsKeys transformMarketProposals adt_AsArray Sprintf_d
  /\ abortsUnfinished transformMarketProposals.
Proof. map_decoder transformMarketProposals Sprintf_d (visitor_array_node _). Qed.

Lemma transformMarketStates_keys :
  emitsKeys transformMarketStates adt_AsArray Sprintf_d
  /\ abortsUnfinished transformMarketStates.
Proof. map_decoder transformMarketStates Sprintf_d (visitor_array_node _). Qed.

Lemma transformMarketBalanceTable_keys :
  emitsKeys transformMarketBalanceTable hamt_LoadNode (fun k => k)
  /\ abortsUnfinished transformMarketBalanceTable.
Proof.
  map_decoder transformMarketBalanceTable (fun k : string => k) (visitor_bytes (fun k => k)).
Qed.

Lemma transformMarketDealOpsByEpoch_keys :
  emitsKeys transformMarketDealOpsByEpoch adt_AsMap bigEndianDecimal
  /\ abortsUnfinished transformMarketDealOpsByEpoch.
Proof.
  map_decoder transformMarketDealOpsByEpoch bigEndianDecimal
    (visitor_nested_set bigEndianDecimal _ _ _).
Qed.

Lemma transformMultisigPending_keys :
  emitsKeys transformMultisigPending hamt_LoadNode bigEndianDecimal
  /\ abortsUnfinished transformMultisigPending.
Proof.
  map_decoder transformMultisigPending bigEndianDecimal (visitor_node bigEndianDecimal _).
Qed.

Lemma transformPaymentChannelLaneStates_keys :
  emitsKeys transformPaymentChannelLaneStates adt_AsArray Sprintf_d
  /\ abortsUnfinished transformPaymentChannelLaneStates.
Proof. map_decoder transformPaymentChannelLaneStates Sprintf_d (visitor_array_node _). Qed.

Ltac decoder_facts :=
  pose proof transformStateRoot_keys as [? ?];
  pose proof transformInitActor_keys as [? ?];
  pose proof transformMinerActorPreCommittedSectors_keys as [? ?];
  pose proof transformMinerActorBitfieldHamt_keys as [? ?];
  pose proof transformMinerActorSectors_keys as [? ?];
  pose proof transformMinerActorDeadlinePartitions_keys as [? ?];
  pose proof transformMinerActorDeadlinePartitionExpiry_keys as [? ?];
  pose proof transformPowerActorEventQueue_keys as [? ?];
  pose proof transformPowerActorClaims_keys as [? ?];
  pose proof transformVerifiedRegistryDataCaps_keys as [? ?];
  pose proof transformMarketPendingProposals_keys as [? ?];
  pose proof transformMarketProposals_keys as [? ?];
  pose proof transformMarketStates_keys as [? ?];
  pose proof transformMarketBalanceTable_keys as [? ?];
  pose proof transformMarketDealOpsByEpoch_keys as [? ?];
  pose proof transformMultisigPending_keys as [? ?];
  pose proof transformPaymentChannelLaneStates_keys as [? ?].

(** Every registered structure decoder returns either with a finished node
    or with an error and no finished node. *)
Lemma complexLoaders_abort p ld :
  complexLoaders !! p = Some ld -> abortsUnfinished ld.
Proof.
  decoder_facts.
  unfold complexLoaders. cbn [list_to_map foldr fst snd uncurry].
  repeat (rewrite lookup_insert; case_decide; [intros [= <-]; assumption|]).
  rewrite lookup_empty. discriminate.
Qed.

Lemma dagcbor_Decoder_abort data na na' r :
  state na = Fresh -> dagcbor_Decoder data na = (na', r) ->
  match r with
  | Ok _ => exists n, state na' = Finished n
  | _ => forall n, state na' <> Finished n
  end.
Proof.
  intros Hst. unfold dagcbor_Decoder. rewrite Hst.
  destruct (dagcbor_Decode (Prototype na) data); intros [= <- <-]; cbn.
  - eauto.
  - intros n. rewrite Hst. discriminate.
  - intros n. rewrite Hst. discriminate.
Qed.

(** [Load] on a fresh builder: success means a finished node, failure means
    no finished node. *)
Lemma Load_abort c store into na' r :
  state into = Fresh -> Load c store into = (na', r) ->
  match r with
  | Ok _ => exists n, state na' = Finished n
  | _ => forall n, state na' <> Finished n
  end.
Proof.
  intros Hst. unfold Load.
  destruct (complexLoaders !! Prototype into) as [ld|] eqn:Hl.
  - apply (complexLoaders_abort _ _ Hl); assumption.
  - destruct (store c) as [data|e|msg].
    + apply dagcbor_Decoder_abort; assumption.
    + intros [= <- <-] n. rewrite Hst. discriminate.
    + intros [= <- <-] n. rewrite Hst. discriminate.
Qed.

(** A call whose error is dropped never returns an error. *)
Lemma ignore_error_no_error (m : M unit) na e : snd (ignore_error m na) <> Err e.
Proof.
  unfold ignore_error. destruct (m na) as [na' [u|e'|msg]]; cbn; discriminate.
Qed.

(** C3.  [Transform] resolves the path and looks up the prototype of the
    resulting key.  Without a prototype it returns the "unknown type" error
    and no node.  With one it runs [Load] on a fresh builder of that
    prototype: an error (or panic) of [Load] is returned as it is, and on
    success the builder is finished and its node is returned. *)
Theorem Transform_spec (c : Cid) (store : Blockstore) (as_ : string) :
  match LotusPrototypes !! ResolveType as_ with
  | None => Transform c store as_ = Err ("unknown type: " ++ as_)
  | Some proto =>
      match Load c store (NewBuilder proto) with
      | (assembler, Ok _) =>
          exists n, state assembler = Finished n /\ Transform c store as_ = Ok n
      | (_, Err e) => Transform c store as_ = Err e
      | (_, Panic msg) => Transform c store as_ = Panic msg
      end
  end.
Proof.
  unfold Transform.
  destruct (LotusPrototypes !! ResolveType as_) as [proto|]; [|reflexivity].
  destruct (Load c store (NewBuilder proto)) as [na' [u|e|msg]] eqn:Hl; try reflexivity.
  destruct (Load_abort c store (NewBuilder proto) na' (Ok u) eq_refl Hl) as [n Hn].
  exists n. split; [assumption|]. unfold Build. now rewrite Hn.
Qed.

(** The path of the specification's example has no prototype. *)
Lemma Transform_bogus (c : Cid) (store : Blockstore) :
  Transform c store "bogus.path" = Err "unknown type: bogus.path".
Proof. reflexivity. Qed.

Lemma complexLoaders_dom p : is_Some (complexLoaders !! p) <-> p ∈ complexPrototypes.
Proof.
  unfold complexLoaders.
  rewrite <- not_eq_None_Some, <- not_elem_of_list_to_map.
  change (~ (p ∉ complexPrototypes) <-> p ∈ complexPrototypes).
  destruct (decide (p ∈ complexPrototypes)); tauto.
Qed.

(** C4.  [Load] looks the prototype of the target assembler up in
    [complexLoaders]: a registered decoder is called with the same cid, store
    and assembler, and its result is the result of [Load]; otherwise the block
    is fetched and decoded as one CBOR document into the assembler, a store
    error or a decode error being returned as it is.  The registered
    prototypes are the seventeen map prototypes of [complexPrototypes]. *)
Theorem Load_dispatch (c : Cid) (store : Blockstore) (into : NodeAssembler) :
  match complexLoaders !! Prototype into with
  | Some complexLoader =>
      (Prototype into ∈ complexPrototypes) /\
      Load c store into = complexLoader c store into
  | None =>
      (Prototype into ∉ complexPrototypes) /\
      match store c with
      | Ok data =>
          Load c store into = dagcbor_Decoder data into /\
          (state into = Fresh ->
           match dagcbor_Decode (Prototype into) data with
           | Ok n =>
               Load c store into =
                 ({| Prototype := Prototype into; state := Finished n |}, Ok tt)
           | Err e => Load c store into = (into, Err e)
           | Panic msg => Load c store into = (into, Panic msg)
           end)
      | Err e => Load c store into = (into, Err e)
      | Panic msg => Load c store into = (into, Panic msg)
      end
  end.
Proof.
  unfold Load. pose proof (complexLoaders_dom (Prototype into)) as Hdom.
  destruct (complexLoaders !! Prototype into) as [ld|] eqn:Hl.
  - split; [apply Hdom; eauto | reflexivity].
  - split; [intros Hin; apply Hdom in Hin; destruct Hin; discriminate|].
    destruct (store c) as [data|e|msg]; try reflexivity.
    split; [reflexivity|]. intros Hst. unfold dagcbor_Decoder. rewrite Hst.
    destruct (dagcbor_Decode (Prototype into) data); reflexivity.
Qed.

(** C9, as amended.  Four decoders (miner pre-committed sectors, power
    cron-event queue, market deal-ops-by-epoch, multisig pending
    transactions) emit, for every key byte string, the decimal string of the
    big-endian unsigned integer held in its bytes; the six other decoders that
    visit a HAMT emit its string key unchanged; the seven decoders that visit
    a sharded array emit the decimal string of the [int64] index. *)
Theorem decoder_keys :
  (emitsKeys transformMinerActorPreCommittedSectors hamt_LoadNode bigEndianDecimal
   /\ emitsKeys transformPowerActorEventQueue adt_AsMultimap bigEndianDecimal
   /\ emitsKeys transformMarketDealOpsByEpoch adt_AsMap bigEndianDecimal
   /\ emitsKeys transformMultisigPending hamt_LoadNode bigEndianDecimal)
  /\ (emitsKeys transformStateRoot hamt_LoadNode (fun k => k)
      /\ emitsKeys transformInitActor hamt_LoadNode (fun k => k)
      /\ emitsKeys transformPowerActorClaims hamt_LoadNode (fun k => k)
      /\ emitsKeys transformVerifiedRegistryDataCaps hamt_LoadNode (fun k => k)
      /\ emitsKeys transformMarketPendingProposals hamt_LoadNode (fun k => k)
      /\ emitsKeys transformMarketBalanceTable hamt_LoadNode (fun k => k))
  /\ (emitsKeys transformMinerActorBitfieldHamt adt_AsArray Sprintf_d
      /\ emitsKeys transformMinerActorSectors adt_AsArray Sprintf_d
      /\ emitsKeys transformMinerActorDeadlinePartitions adt_AsArray Sprintf_d
      /\ emitsKeys transformMinerActorDeadlinePartitionExpiry adt_AsArray Sprintf_d
      /\ emitsKeys transformMarketProposals adt_AsArray Sprintf_d
      /\ emitsKeys transformMarketStates adt_AsArray Sprintf_d
      /\ emitsKeys transformPaymentChannelLaneStates adt_AsArray Sprintf_d).
Proof. decoder_facts. repeat split; assumption. Qed.

End DecoderFacts.


(** The sectors decoder on the example store: the key is made of the index. *)
Example sectors_run :
  transformMinerActorSectors (H := Example.world) Example.cidAmt Example.store
    (NewBuilder types.Map__SectorOnChainInfo__Repr)
  = ({| Prototype := types.Map__SectorOnChainInfo__Repr;
        state := Finished (MapNode [(StringNode types_String "7", IntNode 1)]) |},
     Ok tt).
Proof. vm_compute. reflexivity. Qed.

(** C9, as stated, fails for the decoders other than the four: a decoder of
    a sharded array, such as the one of the miner's sectors, has no string key
    to pass through; it makes its keys of the integer index. *)
Lemma sectors_decoder_formats_index :
  ~ (forall E : Collaborators, passesStringKeys (transformMinerActorSectors (H := E))).
Proof.
  intros Hall. specialize (Hall Example.world).
  assert (forall {V} (load : Blockstore -> Cid -> result (Iter string V)),
             (exists e, load Example.store Example.cidAmt = Err e) ->
             ~ emitsKeys (H := Example.world)
                 (transformMinerActorSectors (H := Example.world)) load (fun k => k))
    as Hno.
  { intros V load [e He] Hk.
    destruct (Hk Example.cidAmt Example.store (NewBuilder types.Map__SectorOnChainInfo__Repr)
                _ tt eq_refl sectors_run) as (src & es & Hl & _).
    rewrite He in Hl. discriminate. }
  destruct Hall as [Hk|[Hk|[Hk|Hk]]]; revert Hk; apply Hno; eexists; vm_compute; reflexivity.
Qed.

(** C2 fails for the deal-ops decoder.  On the example store the set of one
    epoch holds the keys 1, 255, 2.  The second is not a varint: the visitor
    fails at it, the visit stops, and the error is dropped; the list is
    finished with the one element assembled so far and the decoder returns
    the map built from it, with no error.  The state-root decoder of the
    switch-based revision drops the error of its visit in the same way: on a
    HAMT with a missing shard it returns the map of the entries seen before,
    where the registry-based revision returns the error and leaves the map
    open. *)
Theorem dealops_error_swallowed :
  adt_AsSet (Collaborators := Example.world) Example.store Example.cidSet
    = Ok {| entries := Example.dealKeys; failure := None |}
  /\ map (fun kv => abi_ParseUIntKey (Collaborators := Example.world) (fst kv)) Example.dealKeys
     = [Ok 1%Z; Err "failed to decode varint key"; Ok 2%Z]
  /\ transformMarketDealOpsByEpoch (H := Example.world) Example.cidTable Example.store
       (NewBuilder types.Map__List__DealID__Repr)
     = ({| Prototype := types.Map__List__DealID__Repr;
           state := Finished (MapNode [(StringNode types_String "5", ListNode [IntNode 1])]) |},
        Ok tt)
  /\ Switch.transformStateRoot (H := Example.brokenWorld) Example.cidHamt Example.store
     = Ok (MapNode [(StringNode types_String "a", IntNode 1)])
  /\ transformStateRoot (H := Example.brokenWorld) Example.cidHamt Example.store
       (NewBuilder types.Map__LotusActors__Repr)
     = ({| Prototype := types.Map__LotusActors__Repr;
           state := MapOpen [(StringNode types_String "a", IntNode 1)] None |},
        Err "hamt: shard not found").
Proof. repeat split; vm_compute; reflexivity. Qed.

(** ** The two revisions of [Transform] *)

Section Revisions.
Context `{Collaborators}.

Lemma agree_refl r : agree r r.
Proof. destruct r; cbn; auto. Qed.

Ltac key_lookup :=
  match goal with
  | |- context [LotusPrototypes !! ?K] =>
      let v := eval vm_compute in (LotusPrototypes !! K) in
      change (LotusPrototypes !! K) with v
  end.

Ltac same_decoder :=
  key_lookup; cbn [NewBuilder]; unfold Load; cbn [Prototype NewBuilder];
  match goal with
  | |- context [@lookup ?K ?V ?M ?I ?P (@complexLoaders ?E)] =>
      let Hl := fresh "Hl" in
      first [ assert (@lookup K V M I P (@complexLoaders E) = None) as Hl by reflexivity
            | eassert (@lookup K V M I P (@complexLoaders E) = Some _) as Hl by reflexivity ];
      rewrite Hl; clear Hl
  end.

Ltac unfold_decoders :=
  unfold Switch.transformStateRoot, Switch.transformInitActor,
    Switch.transformMinerActorPreCommittedSectors, Switch.transformMinerActorDeadlineExpiry,
    Switch.transformMinerActorPreCommittedSectorsExpiry, Switch.transformMinerActorSectors,
    Switch.transformMinerActorDeadlinePartitions,
    Switch.transformMinerActorDeadlinePartitionExpiry, Switch.transformPowerActorEventQueue,
    Switch.transformPowerActorClaims, Switch.transformVerifiedRegistryDataCaps,
    Switch.transformMarketPendingProposals, Switch.transformMarketProposals,
    Switch.transformMarketStates, Switch.transformMarketBalanceTable,
    Switch.transformMarketDealOpsByEpoch, Switch.transformMultisigPending,
    Switch.transformPaymentChannelLaneStates,
    transformStateRoot, transformInitActor, transformMinerActorPreCommittedSectors,
    transformMinerActorBitfieldHamt, transformMinerActorSectors,
    transformMinerActorDeadlinePartitions, transformMinerActorDeadlinePartitionExpiry,
    transformPowerActorEventQueue, transformPowerActorClaims,
    transformVerifiedRegistryDataCaps, transformMarketPendingProposals,
    transformMarketProposals, transformMarketStates, transformMarketBalanceTable,
    transformMarketDealOpsByEpoch, transformMultisigPending,
    transformPaymentChannelLaneStates.

(** Both revisions run the same decoder body on a fresh builder of the same
    prototype. *)
Ltac same_body c store :=
  same_decoder; cbn [snd]; unfold_decoders; unfold Switch.blockAssembler, rbind, built;
  try (unfold bind at 1; unfold lift at 1);
  lazymatch goal with
  | |- context [hamt_LoadNode store c] => destruct (hamt_LoadNode store c)
  | |- context [adt_AsArray store c] => destruct (adt_AsArray store c)
  | |- context [adt_AsMap store c] => destruct (adt_AsMap store c)
  | |- context [adt_AsMultimap store c] => destruct (adt_AsMultimap store c)
  | |- context [store c] => destruct (store c)
  end;
  cbn [String.eqb Ascii.eqb Bool.eqb]; apply agree_refl.

Ltac by_key t Hn c store :=
  lazymatch goal with
  | |- context [String.eqb t ?K] =>
      destruct (String.eqb_spec t K) as [->|?]; cbn [orb];
      [ first [ exfalso; apply Hn; unfold revisedKeys;
                solve [repeat first [apply list_elem_of_here | apply list_elem_of_further]]
              | same_body c store ]
      | by_key t Hn c store ]
  | _ => idtac
  end.

(** C10, as amended.  On every type path that the two resolvers map to the
    same type key, other than the keys [stateRoot], [initActorAddresses],
    [storagePowerCronEventQueue], [storageMarketActor.Proposals] and
    [storageMarketActor.PendingProposals], the switch-based and the
    registry-based [Transform] both fail or both return the same node. *)
Theorem Transform_revisions_agree (c : Cid) (store : Blockstore) (as_ : string) :
  Switch.ResolveType as_ = ResolveType as_ ->
  ResolveType as_ ∉ revisedKeys ->
  agree (Switch.Transform c store as_) (Transform c store as_).
Proof.
  intros Hres. unfold Switch.Transform, Transform. rewrite Hres.
  generalize (ResolveType as_). intros t Hn.
  by_key t Hn c store.
  unfold Switch.blockAssembler.
  by_key t Hn c store.
  assert (LotusPrototypes !! t = None) as ->.
  { apply not_elem_of_list_to_map. cbn [fmap list_fmap fst]. intros Hin.
    repeat (apply elem_of_cons in Hin as [->|Hin]; [congruence|]).
    now apply elem_of_nil in Hin. }
  unfold rbind. destruct (store c); exact I.
Qed.

End Revisions.

Example bits025 :
  ExampleCodecs.bitsOf ExampleCodecs.rle025 = [0; 2; 5]%N
  /\ ExampleCodecs.UnmarshalCBOR ExampleCodecs.cbor025 = Ok ExampleCodecs.rle025
  /\ ExampleCodecs.FromBuf ExampleCodecs.cbor025 <> Ok ExampleCodecs.cbor025.
Proof. repeat split; vm_compute; try reflexivity; discriminate. Qed.

(** ** Facts about the marshaler *)

Section MarshalFacts.
Context {S : Type} (Step : S -> Token -> S * option error) `{Codecs}.



Lemma marshalLinkTokens_feed (c : Cid) (s : S) :
  exists tks, map tokenOf tks = linkTokens c /\
    marshalLinkTokens Step zeroToken c s = Some (feed Step tks s).
Proof.
  pose (t1 := set_Length (set_Type zeroToken TMapOpen) 1%Z).
  pose (t2 := set_Str (set_Type t1 TString) "/").
  pose (t3 := set_Str t2 (Cid_String c)).
  pose (t4 := set_Type t3 TMapClose).
  exists [t1; t2; t3; t4]. split; [reflexivity|].
  unfold marshalLinkTokens, tbind, step. cbn [feed]. fold t1. fold t2. fold t3. fold t4.
  repeat match goal with
         | |- context [Step ?s0 ?tk] => destruct (Step s0 tk) as [? [?|]]; try reflexivity
         end.
Qed.

(** C5.  For a link node holding a CID link, when no loader is set or the
    loader answers with no node, [MarshalRecursive] hands to the sink exactly
    the four tokens MapOpen(1), String("/"), String(text of the CID),
    MapClose, stopping only at an error of the sink; a sink that accepts them
    has received exactly these four and the call returns no error.  For a
    link of any other kind it returns an error and hands nothing to the
    sink. *)
Theorem link_four_tokens (fuel : nat) (d : DagMarshaler) (c : Cid) :
  loadLink d c = None ->
  (forall s, exists tks, map tokenOf tks = linkTokens c /\
     MarshalRecursive Step (Datatypes.S fuel) d (LinkNode (cidlink_Link c)) s
     = Some (feed Step tks s))
  /\ (forall toks,
        MarshalRecursive recordStep (Datatypes.S fuel) d (LinkNode (cidlink_Link c)) toks
        = Some ((toks ++ linkTokens c)%list, Ok tt))
  /\ (forall s description,
        MarshalRecursive Step (Datatypes.S fuel) d (LinkNode (other_Link description)) s
        = Some (s, Err "schemafree link emission only supported by this codec for CID type links")).
Proof.
  intros Hl. repeat split.
  - intros s. cbn [MarshalRecursive]. rewrite Hl. apply marshalLinkTokens_feed.
  - intros toks. cbn [MarshalRecursive]. rewrite Hl.
    unfold marshalLinkTokens, tbind, step, recordStep. cbn.
    now rewrite <- !app_assoc.
Qed.

(** C6.  When the loader resolves the CID of a link node to a node [X],
    marshaling the link node is marshaling [X] with the same marshaler: the
    same tokens reach the sink and the same result is returned, and the
    four tokens of a link do not appear. *)
Theorem link_inlining (d : DagMarshaler) (c : Cid) (X : Node) :
  loadLink d c = Some X ->
  (forall fuel s,
     MarshalRecursive Step (Datatypes.S fuel) d (LinkNode (cidlink_Link c)) s
     = MarshalRecursive Step fuel d X s)
  /\ (forall s r,
        (exists fuel, MarshalRecursive Step fuel d (LinkNode (cidlink_Link c)) s = Some r)
        <-> (exists fuel, MarshalRecursive Step fuel d X s = Some r)).
Proof.
  intros Hl.
  assert (forall fuel s,
             MarshalRecursive Step (Datatypes.S fuel) d (LinkNode (cidlink_Link c)) s
             = MarshalRecursive Step fuel d X s) as Hstep.
  { intros fuel s. cbn [MarshalRecursive]. now rewrite Hl. }
  split; [exact Hstep|].
  intros s r. split.
  - intros [[|fuel] Hrun]; [discriminate|]. exists fuel. now rewrite <- Hstep.
  - intros [fuel Hrun]. exists (Datatypes.S fuel). now rewrite Hstep.
Qed.

(** The loop over a list marshals every element with the marshaler of the
    list itself, whatever the index. *)
Lemma marshalElems_cons rec d i v vs s :
  marshalElems (S := S) rec d i (v :: vs) s
  = tbind (rec d v) (fun _ => marshalElems rec d (i + 1)%Z vs) s.
Proof. reflexivity. Qed.

Lemma marshalElems_index rec d i j vs :
  marshalElems (S := S) rec d i vs = marshalElems rec d j vs.
Proof.
  revert i j. induction vs as [|v vs IH]; intros i j; [reflexivity|].
  cbn [marshalElems]. now rewrite (IH (i + 1)%Z (j + 1)%Z).
Qed.


End MarshalFacts.

(** ** Runs on the example store and codecs *)

(** C7 fails on the code.  A list of two links is marshaled with a loader
    that answers with the path it is asked at: both elements are asked at the
    path of the list itself (the empty path), not at the path extended by
    their index, because the path returned by [AppendSegment] is dropped.  The
    loop over a map does store the extended path: there the loader is asked at
    the key. *)
Theorem list_elements_keep_path :
  MarshalRecursive (H := ExampleCodecs.codecs) recordStep 3
    {| Loader_ := Some ExampleCodecs.pathLoader; Path_ := [] |}
    (ListNode [LinkNode (cidlink_Link ExampleCodecs.bafyEXAMPLE);
               LinkNode (cidlink_Link ExampleCodecs.bafyEXAMPLE)]) []
  = Some ([ArrOpenTok 2; StringTok ""; StringTok ""; ArrCloseTok], Ok tt)
  /\ MarshalRecursive (H := ExampleCodecs.codecs) recordStep 3
       {| Loader_ := Some ExampleCodecs.pathLoader; Path_ := [] |}
       (MapNode [(StringNode types_String "k",
                  LinkNode (cidlink_Link ExampleCodecs.bafyEXAMPLE))]) []
     = Some ([MapOpenTok 1; StringTok "k"; StringTok "k"; MapCloseTok], Ok tt).
Proof. split; vm_compute; reflexivity. Qed.

(** The link of the specification's example, without a loader. *)
Lemma link_four_tokens_witness :
  loadLink {| Loader_ := None; Path_ := [] |} ExampleCodecs.bafyEXAMPLE = None
  /\ MarshalRecursive (H := ExampleCodecs.codecs) recordStep 1
       {| Loader_ := None; Path_ := [] |}
       (LinkNode (cidlink_Link ExampleCodecs.bafyEXAMPLE)) []
     = Some ([MapOpenTok 1; StringTok "/"; StringTok "bafyEXAMPLE"; MapCloseTok], Ok tt).
Proof.
  split; [reflexivity|].
  exact (proj1 (proj2 (link_four_tokens (H := ExampleCodecs.codecs) recordStep 0
                         {| Loader_ := None; Path_ := [] |} ExampleCodecs.bafyEXAMPLE
                         eq_refl)) []).
Defined.

(** A link to a block that the loader knows is replaced by the node of the
    block. *)
Lemma link_inlining_witness :
  let d := {| Loader_ := Some (ExampleCodecs.oneBlockLoader ExampleCodecs.bafyEXAMPLE
                                 (ListNode [IntNode 1; BoolNode true]));
              Path_ := [] |} in
  loadLink d ExampleCodecs.bafyEXAMPLE = Some (ListNode [IntNode 1; BoolNode true])
  /\ MarshalRecursive (H := ExampleCodecs.codecs) recordStep 3 d
       (LinkNode (cidlink_Link ExampleCodecs.bafyEXAMPLE)) []
     = MarshalRecursive (H := ExampleCodecs.codecs) recordStep 2 d
         (ListNode [IntNode 1; BoolNode true]) []
  /\ MarshalRecursive (H := ExampleCodecs.codecs) recordStep 2 d
       (ListNode [IntNode 1; BoolNode true]) []
     = Some ([ArrOpenTok 2; IntTok 1; BoolTok true; ArrCloseTok], Ok tt).
Proof.
  intros d. split; [reflexivity|]. split; [|vm_compute; reflexivity].
  exact (proj1 (link_inlining (H := ExampleCodecs.codecs) recordStep d
                  ExampleCodecs.bafyEXAMPLE (ListNode [IntNode 1; BoolNode true]) eq_refl)
           2 []).
Defined.


(** C10, as stated, fails.  The resolver of the registry-based revision
    rewrites ['/'] to ['.'] and the one of the switch-based revision does not:
    a path written with ['/'] is an unknown type for the latter, and on the
    example store the former returns a node. *)
Lemma Transform_revisions_differ :
  ~ (forall (E : Collaborators) (c : Cid) (store : Blockstore) (as_ : string),
       agree (Switch.Transform (H := E) c store as_) (Transform (H := E) c store as_)).
Proof.
  intros Hall.
  specialize (Hall Example.world Example.cidHamt Example.store "tipset/ParentStateRoot").
  vm_compute in Hall. exact Hall.
Qed.

Example Transform_slash_path :
  Switch.Transform (H := Example.world) Example.cidHamt Example.store "tipset/ParentStateRoot"
  = Err "unknown type: tipset/ParentStateRoot"
  /\ Transform (H := Example.world) Example.cidHamt Example.store "tipset/ParentStateRoot"
     = Ok (MapNode []).
Proof. split; vm_compute; reflexivity. Qed.

(** For [storageMarketActor.Proposals] the switch-based revision reads a
    sharded array and the registry-based one a HAMT: on the example store the
    first returns a node and the second an error. *)
Example Transform_proposals_differ :
  Switch.Transform (H := Example.world) Example.cidAmt Example.store
    "storageMarketActor.Proposals"
  = Ok (MapNode [(StringNode types_String "7", IntNode 1)])
  /\ Transform (H := Example.world) Example.cidAmt Example.store "storageMarketActor.Proposals"
     = Err "structure: unexpected root block"
  /\ complexLoaders (H := Example.world) !! types.Map__MarketV0RawDealProposal__Repr
     = Some (transformMarketPendingProposals (H := Example.world))
  /\ LotusPrototypes !! MarketActorProposals = Some types.Map__MarketV0RawDealProposal__Repr.
Proof. repeat split; vm_compute; reflexivity. Qed.

(** For [stateRoot] the revisions differ when the visit of the HAMT fails. *)
Example Transform_stateRoot_differs :
  Switch.Transform (H := Example.brokenWorld) Example.cidHamt Example.store "stateRoot"
  = Ok (MapNode [(StringNode types_String "a", IntNode 1)])
  /\ Transform (H := Example.brokenWorld) Example.cidHamt Example.store "stateRoot"
     = Err "hamt: shard not found".
Proof. split; vm_compute; reflexivity. Qed.

(** The four decoders render any key bytes, the empty string included. *)
Example bigEndianDecimal_examples :
  bigEndianDecimal "" = "0"
  /\ bigEndianDecimal "a" = "97"
  /\ bigEndianDecimal (string_of_bytes [Byte.x01; Byte.x00]) = "256"
  /\ Sprintf_d (-7) = "-7".
Proof. repeat split; vm_compute; reflexivity. Qed.

Lemma Transform_revisions_agree_witness :
  Switch.ResolveType "storageMinerActor.Sectors[3]" = ResolveType "storageMinerActor.Sectors[3]"
  /\ (ResolveType "storageMinerActor.Sectors[3]" ∉ revisedKeys)
  /\ agree
       (Switch.Transform (H := Example.world) Example.cidAmt Example.store
          "storageMinerActor.Sectors[3]")
       (Transform (H := Example.world) Example.cidAmt Example.store
          "storageMinerActor.Sectors[3]").
Proof.
  assert (ResolveType "storageMinerActor.Sectors[3]" ∉ revisedKeys) as Hn.
  { apply (bool_decide_unpack _). vm_compute. exact I. }
  split; [reflexivity|]. split; [exact Hn|].
  exact (Transform_revisions_agree (H := Example.world) Example.cidAmt Example.store
           "storageMinerActor.Sectors[3]" eq_refl Hn).
Defined.

(** * Further properties

    ** The resolver *)

Lemma append_cons x (a b : string) : (String x a ++ b)%string = String x (a ++ b).
Proof. reflexivity. Qed.

Lemma append_nil (b : string) : (EmptyString ++ b)%string = b.
Proof. reflexivity. Qed.

Lemma append_assoc (a b c : string) : ((a ++ b) ++ c)%string = (a ++ (b ++ c))%string.
Proof.
  induction a as [|x a IH]; [reflexivity|]. rewrite !append_cons. now f_equal.
Qed.

Lemma strings_ReplaceAll_app (a b : string) :
  strings_ReplaceAll_slash_dot (a ++ b)
  = (strings_ReplaceAll_slash_dot a ++ strings_ReplaceAll_slash_dot b)%string.
Proof.
  induction a as [|x a IH]; [reflexivity|].
  rewrite append_cons. cbn [strings_ReplaceAll_slash_dot]. rewrite append_cons. now f_equal.
Qed.

Lemma strings_ReplaceAll_digits ds :
  allDigits ds = true -> strings_ReplaceAll_slash_dot ds = ds.
Proof.
  induction ds as [|x ds IH]; [reflexivity|]. cbn [allDigits strings_ReplaceAll_slash_dot].
  intros [Hx Hd]%andb_prop. rewrite (IH Hd).
  destruct (Ascii.eqb_spec x "/"); [subst x; discriminate | reflexivity].
Qed.

Lemma strings_ReplaceAll_noChar c a :
  c <> "/"%char -> c <> "."%char -> noChar c a = true ->
  noChar c (strings_ReplaceAll_slash_dot a) = true.
Proof.
  intros H1 H2. induction a as [|x a IH]; [reflexivity|].
  cbn [noChar strings_ReplaceAll_slash_dot].
  intros [Hx Ha]%andb_prop. rewrite (IH Ha), andb_true_r.
  destruct (Ascii.eqb_spec x "/").
  - destruct (Ascii.eqb_spec "."%char c); [congruence | reflexivity].
  - assumption.
Qed.

Lemma replaceAllFrom_unfold op cl repl c s :
  replaceAllFrom op cl repl 0 (String c s)
  = match matchAt op cl (String c s) with
    | Some n => (repl ++ replaceAllFrom op cl repl (pred n) s)%string
    | None => String c (replaceAllFrom op cl repl 0 s)
    end.
Proof. reflexivity. Qed.

(** A prefix without the opening byte is copied as it is. *)
Lemma replaceAllFrom_prefix op cl repl a s :
  noChar op a = true ->
  replaceAllFrom op cl repl 0 (a ++ s) = (a ++ replaceAllFrom op cl repl 0 s)%string.
Proof.
  induction a as [|x a IH]; [reflexivity|].
  cbn [noChar]. intros [Hx Ha]%andb_prop.
  rewrite !append_cons, replaceAllFrom_unfold.
  unfold matchAt. apply negb_true_iff in Hx. rewrite Hx.
  now rewrite (IH Ha).
Qed.

Lemma digitRun_app ds cl b :
  allDigits ds = true -> isDigit cl = false ->
  digitRun (ds ++ String cl b) = String.length ds
  /\ String.get (String.length ds) (ds ++ String cl b) = Some cl.
Proof.
  intros Hd Hc. induction ds as [|x ds IH].
  - rewrite append_nil. cbn. now rewrite Hc.
  - cbn [allDigits] in Hd. apply andb_prop in Hd as [Hx Hd].
    destruct (IH Hd) as [H1 H2]. rewrite append_cons.
    cbn [digitRun String.length String.get]. rewrite Hx, H1.
    split; [reflexivity | assumption].
Qed.

(** Dropping the bytes of a match that is being skipped. *)
Lemma replaceAllFrom_skip op cl repl x s :
  replaceAllFrom op cl repl (String.length x) (x ++ s) = replaceAllFrom op cl repl 0 s.
Proof.
  induction x as [|c x IH]; [rewrite append_nil; cbn; now destruct s|].
  rewrite append_cons. cbn [String.length replaceAllFrom]. exact IH.
Qed.

Lemma matchAt_marker op cl ds b :
  allDigits ds = true -> ds <> EmptyString -> isDigit cl = false ->
  matchAt op cl (String op (ds ++ String cl b)) = Some (S (S (String.length ds))).
Proof.
  intros Hd Hne Hc. destruct (digitRun_app ds cl b Hd Hc) as [H1 H2].
  unfold matchAt. cbv zeta. rewrite Ascii.eqb_refl, H1.
  destruct (String.length ds) as [|n] eqn:Hn; [destruct ds; [congruence | discriminate]|].
  now rewrite H2, Ascii.eqb_refl.
Qed.

(** One marker [op digits cl] at the head is replaced and the scan resumes
    behind it. *)
Lemma replaceAllFrom_marker op cl repl ds b :
  allDigits ds = true -> ds <> EmptyString -> isDigit cl = false ->
  replaceAllFrom op cl repl 0 (String op (ds ++ String cl b))
  = (repl ++ replaceAllFrom op cl repl 0 b)%string.
Proof.
  intros Hd Hne Hc.
  rewrite replaceAllFrom_unfold, (matchAt_marker op cl ds b Hd Hne Hc).
  cbn [pred]. f_equal.
  rewrite <- (replaceAllFrom_skip op cl repl (ds ++ String cl "") b).
  rewrite append_assoc, length_append, append_cons, append_nil. cbn [String.length].
  now replace (String.length ds + 1) with (S (String.length ds)) by lia.
Qed.


(** X1.  The resolved type never contains the separator ['/']: whatever the
    path, every ['/'] has been rewritten before the lookup, and no alias
    target contains one. *)
Theorem ResolveType_has_no_slash (p : string) : noChar "/" (ResolveType p) = true.
Proof.
  pose proof (ResolveType_noSlash p) as Hs.
  revert Hs. generalize (ResolveType p) as s.
  induction s as [|x s IH]; [reflexivity|].
  cbn [noSlash noChar]. intros [-> Hs]%andb_prop. exact (IH Hs).
Qed.

(** X2.  Every key of [LotusPrototypes] is its own resolution, so a
    registered type name always selects its own prototype. *)
Theorem registered_types_resolve_to_themselves (k : LotusType) (proto : NodePrototype) :
  LotusPrototypes !! k = Some proto ->
  ResolveType k = k /\ LotusPrototypes !! ResolveType k = Some proto.
Proof.
  intros Hk. rewrite (ResolveType_registered k proto Hk). split; [reflexivity | exact Hk].
Qed.

Lemma registered_types_resolve_to_themselves_witness :
  LotusPrototypes !! "storageMinerActor.Deadlines.Due" = Some types.MinerV0Deadline__Repr
  /\ ResolveType "storageMinerActor.Deadlines.Due" = "storageMinerActor.Deadlines.Due".
Proof.
  split; [reflexivity|].
  exact (proj1 (registered_types_resolve_to_themselves "storageMinerActor.Deadlines.Due"
                  types.MinerV0Deadline__Repr eq_refl)).
Defined.

(** X3.  Every alias resolves to its target, the target is a registered type
    (an alias never ends in the unknown-type error), and the target is not
    itself an alias. *)
Theorem aliases_resolve_to_registered_types (k : string) (t : LotusType) :
  LotusTypeAliases !! k = Some t ->
  ResolveType k = t /\ is_Some (LotusPrototypes !! t) /\ LotusTypeAliases !! t = None.
Proof.
  unfold LotusTypeAliases at 1. cbn [list_to_map foldr fst snd uncurry].
  repeat (rewrite lookup_insert; case_decide;
          [intros [= <-]; subst k; repeat split; vm_compute; eauto|]).
  rewrite lookup_empty. discriminate.
Qed.

Lemma aliases_resolve_to_registered_types_witness :
  LotusTypeAliases !! "initActor.AddressMap" = Some "initActorAddresses"
  /\ ResolveType "initActor.AddressMap" = "initActorAddresses".
Proof.
  split; [reflexivity|].
  exact (proj1 (aliases_resolve_to_registered_types "initActor.AddressMap"
                  "initActorAddresses" eq_refl)).
Defined.

(** X4.  A bracketed numeric index is not significant: when no ['['] comes
    before it, a path with the index [[ds]] resolves like the path without
    it. *)
Theorem ResolveType_drops_index (a ds b : string) :
  noChar "[" a = true -> allDigits ds = true -> ds <> EmptyString ->
  ResolveType (a ++ "[" ++ ds ++ "]" ++ b) = ResolveType (a ++ b).
Proof.
  intros Ha Hd Hne.
  assert (normalizePath (a ++ "[" ++ ds ++ "]" ++ b) = normalizePath (a ++ b)) as Hn.
  { unfold normalizePath. f_equal.
    change (a ++ "[" ++ ds ++ "]" ++ b)%string
      with (a ++ String "[" (ds ++ String "]" b))%string.
    rewrite !strings_ReplaceAll_app.
    change (strings_ReplaceAll_slash_dot (String "[" (ds ++ String "]" b)))
      with (String "["%char (strings_ReplaceAll_slash_dot (ds ++ String "]" b))).
    rewrite strings_ReplaceAll_app, (strings_ReplaceAll_digits ds Hd).
    change (strings_ReplaceAll_slash_dot (String "]" b))
      with (String "]"%char (strings_ReplaceAll_slash_dot b)).
    assert (noChar "[" (strings_ReplaceAll_slash_dot a) = true) as Ha'
      by (apply strings_ReplaceAll_noChar; [discriminate | discriminate | exact Ha]).
    unfold simplifyingRe_ReplaceAll, ReplaceAll.
    rewrite !(replaceAllFrom_prefix _ _ _ _ _ Ha').
    rewrite (replaceAllFrom_marker "[" "]" "" ds _ Hd Hne eq_refl).
    now rewrite append_nil. }
  unfold ResolveType. now rewrite Hn.
Qed.

Lemma ResolveType_drops_index_witness :
  noChar "[" "storageMinerActor.Sectors" = true /\ allDigits "12" = true
  /\ "12" <> EmptyString
  /\ ResolveType "storageMinerActor.Sectors[12].Info" = ResolveType "storageMinerActor.Sectors.Info".
Proof.
  split; [reflexivity|]. split; [reflexivity|].
  assert ("12" <> EmptyString) as Hne by discriminate.
  split; [exact Hne|].
  exact (ResolveType_drops_index "storageMinerActor.Sectors" "12" ".Info" eq_refl eq_refl Hne).
Defined.

Lemma Switch_aliases_agree (k : string) :
  k <> "storageMinerActor.Deadlines.Due.ExpirationEpochs" ->
  k <> "storageMinerActor.Deadlines.Due.Partitions.ExpirationEpochs" ->
  LotusTypeAliases !! k = Switch.LotusTypeAliases !! k.
Proof.
  intros H1 H2. unfold LotusTypeAliases, Switch.LotusTypeAliases.
  cbn [list_to_map foldr fst snd uncurry].
  rewrite !lookup_insert, !lookup_empty.
  repeat case_decide; subst; congruence.
Qed.

(** X5.  The resolver of the registry-based revision is the resolver of the
    switch-based revision applied after the rewriting of ['/'] to ['.'],
    except on the two aliases that only the later revision knows. *)
Theorem ResolveType_refines_Switch (p : string) :
  normalizePath p <> "storageMinerActor.Deadlines.Due.ExpirationEpochs" ->
  normalizePath p <> "storageMinerActor.Deadlines.Due.Partitions.ExpirationEpochs" ->
  ResolveType p = Switch.ResolveType (strings_ReplaceAll_slash_dot p).
Proof.
  intros H1 H2. unfold ResolveType, Switch.ResolveType.
  change (simplifyingRe2_ReplaceAll
            (simplifyingRe_ReplaceAll (strings_ReplaceAll_slash_dot p) "") ".")
    with (normalizePath p).
  now rewrite (Switch_aliases_agree _ H1 H2).
Qed.

Lemma ResolveType_refines_Switch_witness :
  ResolveType "tipset/ParentStateRoot" = Switch.ResolveType "tipset.ParentStateRoot"
  /\ ResolveType "tipset/ParentStateRoot" = "stateRoot".
Proof.
  split; [|reflexivity].
  refine (ResolveType_refines_Switch "tipset/ParentStateRoot" _ _);
    vm_compute; discriminate.
Defined.


(** ** The decoders *)

Section DecoderValueFacts.
Context `{Collaborators}.

Lemma forEachEntry_values {K V} (R : NodePrototype -> K * V -> Node * Node -> Prop)
    (cb : K -> V -> M unit) :
  assemblesValue R cb ->
  forall l na es na' u, state na = MapOpen es None -> forEachEntry l cb na = (na', Ok u) ->
    Prototype na' = Prototype na /\
    exists es', state na' = MapOpen (es ++ es') None /\ Forall2 (R (Prototype na)) l es'.
Proof.
  intros Hcb l. induction l as [|[k v] l IH]; intros na es na' u Hst Hrun.
  - cbn in Hrun. injection Hrun as <-. split; [reflexivity|].
    exists []. rewrite app_nil_r. split; [assumption | constructor].
  - cbn [forEachEntry] in Hrun. apply bind_Ok_inv in Hrun as (a & na1 & Hc & Hrest).
    destruct (Hcb k v na es na1 a Hst Hc) as [Hp (e & He & HR)].
    destruct (IH na1 _ na' u He Hrest) as [Hp' (es' & Hs' & HF)].
    split; [congruence|]. exists (e :: es'). split; [now rewrite Hs', <- app_assoc|].
    constructor; [assumption|]. now rewrite <- Hp.
Qed.

(** The body shared by the map decoders, after the structure was loaded. *)
Lemma mapBody_values {K V} (R : NodePrototype -> K * V -> Node * Node -> Prop)
    (src : Iter K V) (cb : K -> V -> M unit) :
  assemblesValue R cb ->
  forall na na' u, state na = Fresh ->
    (BeginMap 0 ;; ForEach src cb ;; Finish)%asm na = (na', Ok u) ->
    failure src = None /\ Prototype na' = Prototype na /\
    exists es, state na' = Finished (MapNode es) /\ Forall2 (R (Prototype na)) (entries src) es.
Proof.
  intros Hcb na na' u Hst Hrun.
  apply bind_Ok_inv in Hrun as (u0 & na0 & Hb & Hrun).
  apply bind_Ok_inv in Hrun as (u1 & na1 & Hf & Hfin).
  unfold ForEach in Hf. apply bind_Ok_inv in Hf as (u2 & na2 & Hloop & Hchk).
  unfold BeginMap in Hb. rewrite Hst in Hb.
  destruct (BeginMap_check (Prototype na)); [discriminate|]. injection Hb as <- _.
  destruct (forEachEntry_values R cb Hcb (entries src)
              {| Prototype := Prototype na; state := MapOpen [] None |} [] na2 u2
              eq_refl Hloop) as [Hp (es & Hs & HF)].
  cbn [Prototype app] in Hp, Hs, HF.
  unfold checkErr, fail, ret, lift in Hchk.
  destruct (failure src); [discriminate|]. injection Hchk as <- _.
  unfold Finish in Hfin. rewrite Hs in Hfin.
  destruct (Finish_check (Prototype na2)); [discriminate|]. injection Hfin as <- _.
  cbn [Prototype state]. split; [reflexivity|]. split; [assumption|].
  exists es. split; [reflexivity | assumption].
Qed.

Lemma decoder_values {K V} (D : Loader) (load : Blockstore -> Cid -> result (Iter K V))
    (R : NodePrototype -> K * V -> Node * Node -> Prop) (cb : K -> V -> M unit) :
  (forall c store,
     D c store = (src <- lift (load store c) ;; BeginMap 0 ;; ForEach src cb ;; Finish)%asm) ->
  assemblesValue R cb -> storesEntries D load R.
Proof.
  intros HD Hcb c store na na' u Hst Hrun. rewrite HD in Hrun.
  apply bind_Ok_inv in Hrun as (src & na0 & Hl & Hrun).
  unfold lift in Hl. injection Hl as <- Hl.
  destruct (mapBody_values R src cb Hcb na na' u Hst Hrun) as (Hf & _ & es & Hs & HF).
  exists src, es. repeat split; assumption.
Qed.

Ltac value_cases :=
  repeat match goal with
         | |- context [match ?x with _ => _ end] =>
             lazymatch x with
             | context [match _ with _ => _ end] => fail
             | _ => destruct x eqn:?
             end; cbn [fst snd state Prototype] in *
         end.

Ltac value_done :=
  let Heq := fresh "Heq" in
  intros Heq;
  first
    [ discriminate Heq
    | injection Heq as <- ?; subst; cbn [fst snd state Prototype];
      split; [reflexivity|];
      eexists; split; [reflexivity|];
      unfold decodedNode, decodedInt, deferredBytes, arrayNode, arrayBytes;
      cbn [fst snd]; repeat eexists; eassumption ].

Ltac assembles_value :=
  intros k v na es na' u Hst;
  unfold Array_ForEach, Deferred_UnmarshalCBOR, decodeElement, onBuilder, asDeferred,
    AssignNode, AssignInt, AssignBytes, assignValue, AssembleEntry, dagcbor_Decoder, Build,
    NewBuilder, invalid_state, fail, bind, lift, ret;
  cbn [fst snd state Prototype]; rewrite Hst;
  value_cases; value_done.

Lemma values_node (kf : string -> string) (p : NodePrototype) :
  assemblesValue (decodedNode kf p) (fun k val =>
    AssembleEntry (kf k) ;;
    asDef <- asDeferred val ;;
    actor <- decodeElement p asDef ;;
    AssignNode actor)%asm.
Proof. assembles_value. Qed.

Lemma values_int :
  assemblesValue decodedInt (fun k val =>
    AssembleEntry k ;;
    asDef <- asDeferred val ;;
    actorID <- lift (cbor_DecodeInto_CborInt asDef) ;;
    AssignInt actorID)%asm.
Proof. assembles_value. Qed.

Lemma values_bytes :
  assemblesValue deferredBytes (fun k val =>
    AssembleEntry k ;;
    asDef <- asDeferred val ;;
    AssignBytes asDef)%asm.
Proof. assembles_value. Qed.

Lemma values_array_node (p : NodePrototype) :
  assemblesValue (arrayNode p) (fun k raw =>
    value <- lift (Deferred_UnmarshalCBOR raw) ;;
    AssembleEntry (Sprintf_d k) ;;
    actor <- decodeElement p value ;;
    AssignNode actor)%asm.
Proof. assembles_value. Qed.

Lemma values_array_bytes :
  assemblesValue arrayBytes (fun k raw =>
    value <- lift (CBORBytes_UnmarshalCBOR raw) ;;
    AssembleEntry (Sprintf_d k) ;;
    AssignBytes value)%asm.
Proof. assembles_value. Qed.

End DecoderValueFacts.


Section DecoderTheorems.
Context `{Collaborators}.


(** X6.  The eight decoders over a HAMT: a successful run has stored one
    entry per element of the HAMT, in its order.  The value is deferred CBOR
    in every element, and the stored value is what the schema keeps of the
    document decoded with the element prototype (five decoders), of the
    decoded integer (init-actor addresses), or of the raw bytes (data caps,
    balance tables). *)
Theorem hamt_decoders_store_decoded_values :
  storesEntries transformStateRoot hamt_LoadNode
    (decodedNode (fun k => k) types.LotusActors__Repr)
  /\ storesEntries transformMinerActorPreCommittedSectors hamt_LoadNode
       (decodedNode bigEndianDecimal types.MinerV0SectorPreCommitOnChainInfo__Repr)
  /\ storesEntries transformPowerActorClaims hamt_LoadNode
       (decodedNode (fun k => k) types.PowerV0Claim__Repr)
  /\ storesEntries transformMarketPendingProposals hamt_LoadNode
       (decodedNode (fun k => k) types.MarketV0DealProposal__Repr)
  /\ storesEntries transformMultisigPending hamt_LoadNode
       (decodedNode bigEndianDecimal types.MultisigV0Transaction__Repr)
  /\ storesEntries transformInitActor hamt_LoadNode decodedInt
  /\ storesEntries transformVerifiedRegistryDataCaps hamt_LoadNode deferredBytes
  /\ storesEntries transformMarketBalanceTable hamt_LoadNode deferredBytes.
Proof.
  repeat split.
  - exact (decoder_values _ _ _ _ (fun _ _ => eq_refl) (values_node (fun k => k) _)).
  - exact (decoder_values _ _ _ _ (fun _ _ => eq_refl) (values_node bigEndianDecimal _)).
  - exact (decoder_values _ _ _ _ (fun _ _ => eq_refl) (values_node (fun k => k) _)).
  - exact (decoder_values _ _ _ _ (fun _ _ => eq_refl) (values_node (fun k => k) _)).
  - exact (decoder_values _ _ _ _ (fun _ _ => eq_refl) (values_node bigEndianDecimal _)).
  - exact (decoder_values _ _ _ _ (fun _ _ => eq_refl) values_int).
  - exact (decoder_values _ _ _ _ (fun _ _ => eq_refl) values_bytes).
  - exact (decoder_values _ _ _ _ (fun _ _ => eq_refl) values_bytes).
Qed.

(** X7.  The seven decoders over a sharded array: a successful run has stored
    one entry per element of the array, in its order, under the decimal
    index; the stored value is what the schema keeps of the element decoded
    with the element prototype, or (bitfield maps) of the bytes of the
    element's CBOR byte string. *)
Theorem array_decoders_store_decoded_values :
  storesEntries transformMinerActorSectors adt_AsArray
    (arrayNode types.MinerV0SectorOnChainInfo__Repr)
  /\ storesEntries transformMinerActorDeadlinePartitions adt_AsArray
       (arrayNode types.MinerV0Partition__Repr)
  /\ storesEntries transformMinerActorDeadlinePartitionExpiry adt_AsArray
       (arrayNode types.MinerV0ExpirationSet__Repr)
  /\ storesEntries transformMarketProposals adt_AsArray
       (arrayNode types.MarketV0DealProposal__Repr)
  /\ storesEntries transformMarketStates adt_AsArray
       (arrayNode types.MarketV0DealState__Repr)
  /\ storesEntries transformPaymentChannelLaneStates adt_AsArray
       (arrayNode types.PaychV0LaneState__Repr)
  /\ storesEntries transformMinerActorBitfieldHamt adt_AsArray arrayBytes.
Proof.
  repeat split.
  1-6: exact (decoder_values _ _ _ _ (fun _ _ => eq_refl) (values_array_node _)).
  exact (decoder_values _ _ _ _ (fun _ _ => eq_refl) values_array_bytes).
Qed.


End DecoderTheorems.


Section DecoderEdges.
Context `{Collaborators}.

Lemma decoder_load_error {K V} (D : Loader) (load : Blockstore -> Cid -> result (Iter K V))
    (cb : Blockstore -> K -> V -> M unit) :
  (forall c store,
     D c store
     = (src <- lift (load store c) ;; BeginMap 0 ;; ForEach src (cb store) ;; Finish)%asm) ->
  returnsLoadError D load.
Proof.
  intros HD c store na e Hl. rewrite HD. unfold bind, lift. now rewrite Hl.
Qed.

Lemma decoder_empty {K V} (D : Loader) (load : Blockstore -> Cid -> result (Iter K V))
    (cb : Blockstore -> K -> V -> M unit) :
  (forall c store,
     D c store
     = (src <- lift (load store c) ;; BeginMap 0 ;; ForEach src (cb store) ;; Finish)%asm) ->
  emptyStructure D load.
Proof.
  intros HD c store na src Hst Hl He Hb. rewrite !HD.
  set (na0 := {| Prototype := Prototype na; state := MapOpen [] None |}).
  assert (BeginMap 0 na = (na0, Ok tt)) as Hbegin
    by (unfold BeginMap; now rewrite Hst, Hb).
  assert (ForEach src (cb store) na0
          = (na0, match failure src with Some e => Err e | None => Ok tt end)) as Hvisit.
  { unfold ForEach, bind. rewrite He. cbn [forEachEntry]. unfold ret, checkErr, fail, lift.
    now destruct (failure src). }
  assert (forall f : Iter K V -> M unit,
            (src <- lift (load store c) ;; f src)%asm na = f src na) as Hload
    by (intros f; unfold bind, lift; now rewrite Hl).
  rewrite Hload. unfold bind. rewrite Hbegin, Hvisit.
  destruct (failure src) as [e|]; [reflexivity|].
  unfold Finish. cbn [state Prototype na0].
  destruct (Finish_check (Prototype na)); reflexivity.
Qed.

(** X9.  A failure to load the structure is returned as it is, with the
    assembler untouched, by every one of the seventeen decoders: the ten
    over a HAMT, the seven over a sharded array, the cron-event queue over a
    multimap and the deal-ops table over a map. *)
Theorem decoders_return_load_error :
  Forall (fun D => returnsLoadError D hamt_LoadNode)
    [ transformStateRoot; transformInitActor; transformMinerActorPreCommittedSectors;
      transformPowerActorClaims; transformVerifiedRegistryDataCaps;
      transformMarketPendingProposals; transformMarketBalanceTable;
      transformMultisigPending ]
  /\ Forall (fun D => returnsLoadError D adt_AsArray)
       [ transformMinerActorBitfieldHamt; transformMinerActorSectors;
         transformMinerActorDeadlinePartitions; transformMinerActorDeadlinePartitionExpiry;
         transformMarketProposals; transformMarketStates;
         transformPaymentChannelLaneStates ]
  /\ returnsLoadError transformPowerActorEventQueue adt_AsMultimap
  /\ returnsLoadError transformMarketDealOpsByEpoch adt_AsMap.
Proof.
  repeat first [split | apply Forall_cons | apply Forall_nil];
    refine (decoder_load_error _ _ _ (fun _ _ => eq_refl)).
Qed.

(** X10.  An empty structure gives the empty map, for every one of the
    seventeen decoders: with no element to visit, the decoder begins the map
    and finishes it at once; if the schema refuses to finish, or the visit of
    the structure breaks off, that error is returned with the map left open. *)
Theorem decoders_on_empty_structure :
  Forall (fun D => emptyStructure D hamt_LoadNode)
    [ transformStateRoot; transformInitActor; transformMinerActorPreCommittedSectors;
      transformPowerActorClaims; transformVerifiedRegistryDataCaps;
      transformMarketPendingProposals; transformMarketBalanceTable;
      transformMultisigPending ]
  /\ Forall (fun D => emptyStructure D adt_AsArray)
       [ transformMinerActorBitfieldHamt; transformMinerActorSectors;
         transformMinerActorDeadlinePartitions; transformMinerActorDeadlinePartitionExpiry;
         transformMarketProposals; transformMarketStates;
         transformPaymentChannelLaneStates ]
  /\ emptyStructure transformPowerActorEventQueue adt_AsMultimap
  /\ emptyStructure transformMarketDealOpsByEpoch adt_AsMap.
Proof.
  repeat first [split | apply Forall_cons | apply Forall_nil];
    refine (decoder_empty _ _ _ (fun _ _ => eq_refl)).
Qed.

End DecoderEdges.


(** ** Panics *)

Section PanicFreedom.
Context `{Collaborators}.
Variable store : Blockstore.
Hypothesis HP : PanicFree store.

Ltac quiet_hyp :=
  exfalso;
  match goal with
  | Hq : AssignNode_value ?p ?n = Panic _ |- _ =>
      apply (quiet_AssignNode store HP p n); rewrite Hq; exact I
  | Hq : AssignInt_value ?p ?n = Panic _ |- _ =>
      apply (quiet_AssignInt store HP p n); rewrite Hq; exact I
  | Hq : AssignBytes_value ?p ?n = Panic _ |- _ =>
      apply (quiet_AssignBytes store HP p n); rewrite Hq; exact I
  | Hq : dagcbor_Decode ?p ?n = Panic _ |- _ =>
      apply (quiet_Decode store HP p n); rewrite Hq; exact I
  | Hq : cbor_DecodeInto_CborInt ?n = Panic _ |- _ =>
      apply (quiet_CborInt store HP n); rewrite Hq; exact I
  | Hq : CBORBytes_UnmarshalCBOR ?n = Panic _ |- _ =>
      apply (quiet_CBORBytes store HP n); rewrite Hq; exact I
  | Hq : abi_ParseUIntKey ?n = Panic _ |- _ =>
      apply (quiet_ParseUIntKey store HP n); rewrite Hq; exact I
  | Hq : adt_AsSet store ?n = Panic _ |- _ =>
      apply (quiet_AsSet store HP n); rewrite Hq; exact I
  end.

Ltac quiet_cases :=
  repeat match goal with
         | |- context [match ?x with _ => _ end] =>
             lazymatch x with
             | context [match _ with _ => _ end] => fail
             | _ => destruct x eqn:?
             end; cbn [fst snd state Prototype] in *
         end.

Ltac quiet_visitor :=
  intros k v na es Hst;
  unfold Array_ForEach, Deferred_UnmarshalCBOR, decodeElement, onBuilder, asDeferred,
    AssignNode, AssignInt, AssignBytes, assignValue, AssembleEntry, dagcbor_Decoder, Build,
    NewBuilder, invalid_state, fail, bind, lift, ret;
  cbn [fst snd state Prototype]; rewrite Hst;
  quiet_cases; cbn [snd panics]; first [exact id | quiet_hyp].

Lemma quiet_node (kf : string -> string) (p : NodePrototype) :
  quietVisitor (fun k val =>
    AssembleEntry (kf k) ;;
    asDef <- asDeferred val ;;
    actor <- decodeElement p asDef ;;
    AssignNode actor)%asm.
Proof. quiet_visitor. Qed.

Lemma quiet_int (kf : string -> string) :
  quietVisitor (fun k val =>
    AssembleEntry (kf k) ;;
    asDef <- asDeferred val ;;
    actorID <- lift (cbor_DecodeInto_CborInt asDef) ;;
    AssignInt actorID)%asm.
Proof. quiet_visitor. Qed.

Lemma quiet_bytes (kf : string -> string) :
  quietVisitor (fun k val =>
    AssembleEntry (kf k) ;;
    asDef <- asDeferred val ;;
    AssignBytes asDef)%asm.
Proof. quiet_visitor. Qed.

Lemma quiet_array_node (p : NodePrototype) :
  quietVisitor (fun k raw =>
    value <- lift (Deferred_UnmarshalCBOR raw) ;;
    AssembleEntry (Sprintf_d k) ;;
    actor <- decodeElement p value ;;
    AssignNode actor)%asm.
Proof. quiet_visitor. Qed.

Lemma quiet_array_bytes :
  quietVisitor (fun k raw =>
    value <- lift (CBORBytes_UnmarshalCBOR raw) ;;
    AssembleEntry (Sprintf_d k) ;;
    AssignBytes value)%asm.
Proof. quiet_visitor. Qed.

Lemma forEachEntry_quiet {K V} (kf : K -> string) (cb : K -> V -> M unit) :
  assemblesEntry kf cb -> quietVisitor cb ->
  forall l na es, state na = MapOpen es None -> ~ panics (snd (forEachEntry l cb na)).
Proof.
  intros Ha Hq l. induction l as [|[k v] l IH]; intros na es Hst.
  - exact id.
  - cbn [forEachEntry]. unfold bind. destruct (cb k v na) as [na1 r1] eqn:Hc.
    pose proof (Hq k v na es Hst) as Hq1. rewrite Hc in Hq1. cbn [snd] in Hq1.
    destruct (Ha k v na es na1 r1 Hst Hc) as [_ Hr].
    destruct r1 as [u|e|msg]; cbn [snd].
    + destruct Hr as [n Hn]. exact (IH na1 _ Hn).
    + exact id.
    + exact Hq1.
Qed.

(** The body of a map decoder does not panic on a fresh builder. *)
Lemma mapBody_quiet {K V} (kf : K -> string) (src : Iter K V) (cb : K -> V -> M unit) :
  assemblesEntry kf cb -> quietVisitor cb ->
  forall na, state na = Fresh ->
    ~ panics (snd ((BeginMap 0 ;; ForEach src cb ;; Finish)%asm na)).
Proof.
  intros Ha Hq na Hst.
  unfold bind at 1. unfold BeginMap. rewrite Hst.
  destruct (BeginMap_check (Prototype na)); [exact id|].
  set (na0 := {| Prototype := Prototype na; state := MapOpen [] None |}).
  unfold bind at 1. unfold ForEach. unfold bind at 1.
  destruct (forEachEntry (entries src) cb na0) as [na1 r1] eqn:Hloop.
  pose proof (forEachEntry_quiet kf cb Ha Hq (entries src) na0 [] eq_refl) as Hq1.
  rewrite Hloop in Hq1. cbn [snd] in Hq1.
  destruct (forEachEntry_assembles kf cb Ha (entries src) na0 [] na1 r1 eq_refl Hloop)
    as [_ Hr].
  destruct r1 as [u|e|msg]; [|exact id|exact Hq1].
  destruct Hr as (es & Hs & _). unfold checkErr, fail, ret, lift.
  destruct (failure src); [exact id|].
  unfold Finish. rewrite Hs. destruct (Finish_check (Prototype na1)); exact id.
Qed.

Lemma decoder_quiet {K V} (D : Loader) (load : Blockstore -> Cid -> result (Iter K V))
    (kf : K -> string) (cb : K -> V -> M unit) :
  (forall c,
     D c store = (src <- lift (load store c) ;; BeginMap 0 ;; ForEach src cb ;; Finish)%asm) ->
  (forall c, ~ panics (load store c)) ->
  assemblesEntry kf cb -> quietVisitor cb ->
  forall c na, state na = Fresh -> ~ panics (snd (D c store na)).
Proof.
  intros HD Hl Ha Hq c na Hst. rewrite HD. unfold bind at 1. unfold lift.
  pose proof (Hl c) as Hlc. destruct (load store c) as [src|e|msg]; [|exact id|exact Hlc].
  exact (mapBody_quiet kf src cb Ha Hq na Hst).
Qed.

(** A visitor that assembles the value in a builder of its own. *)
Lemma quiet_nested {V} (kf : string -> string) (amt : NodeAssembler) (inner : V -> M unit) :
  (forall v, ~ panics (snd (inner v amt))) ->
  (forall v b u, inner v amt = (b, Ok u) -> exists n, state b = Finished n) ->
  quietVisitor (fun k val =>
    AssembleEntry (kf k) ;;
    r <- onBuilder amt (inner val) ;;
    n <- lift (Build (fst r)) ;;
    AssignNode n)%asm.
Proof.
  intros Hq Hfin k v na es Hst.
  unfold onBuilder, AssignNode, assignValue, AssembleEntry, Build, invalid_state, fail, bind,
    lift, ret.
  cbn [fst snd state Prototype]. rewrite Hst.
  destruct (AssembleEntry_check (Prototype na) es (kf k)); [exact id|].
  pose proof (Hq v) as Hqv. pose proof (Hfin v) as Hfv.
  destruct (inner v amt) as [b [u|e|msg]]; cbn [snd] in Hqv; [|exact id|exact Hqv].
  destruct (Hfv b u eq_refl) as [n Hn]. cbn [fst]. rewrite Hn. cbn [state Prototype].
  destruct (AssignNode_value (Prototype na) n) eqn:?; cbn [snd panics];
    first [exact id | quiet_hyp].
Qed.

Lemma quiet_nested_set {V S0} (kf : string -> string) (load : V -> result S0)
    (amt : NodeAssembler) (inner : S0 -> M unit) :
  (forall v, ~ panics (load v)) ->
  (forall v, ~ panics (snd (inner v amt))) ->
  (forall v b u, inner v amt = (b, Ok u) -> exists n, state b = Finished n) ->
  quietVisitor (fun k value =>
    set <- lift (load value) ;;
    AssembleEntry (kf k) ;;
    r <- onBuilder amt (inner set) ;;
    n <- lift (Build (fst r)) ;;
    AssignNode n)%asm.
Proof.
  intros Hl Hq Hfin k v na es Hst. unfold bind at 1. unfold lift at 1.
  pose proof (Hl v) as Hlv. destruct (load v) as [set|e|msg]; [|exact id|exact Hlv].
  exact (quiet_nested kf amt inner Hq Hfin k set na es Hst).
Qed.

(** A visitor that keeps a list open and does not panic. *)
Lemma listLoop {K V} (f : K -> V -> M unit) :
  (forall k v na vs, state na = ListOpen vs ->
     (exists vs', state (fst (f k v na)) = ListOpen vs') /\ ~ panics (snd (f k v na))) ->
  forall l na vs, state na = ListOpen vs ->
    (exists vs', state (fst (forEachEntry l f na)) = ListOpen vs')
    /\ ~ panics (snd (forEachEntry l f na)).
Proof.
  intros Hf l. induction l as [|[k v] l IH]; intros na vs Hst.
  - cbn. split; [eauto | exact id].
  - cbn [forEachEntry]. unfold bind.
    destruct (Hf k v na vs Hst) as [[vs1 Hs1] Hq1].
    destruct (f k v na) as [na1 [u|e|msg]]; cbn [fst snd] in *.
    + exact (IH na1 vs1 Hs1).
    + split; [eauto | exact id].
    + split; [eauto | exact Hq1].
Qed.

Lemma dealId_step (d : string) (u : unit) (na : NodeAssembler) (vs : list Node) :
  state na = ListOpen vs ->
  let r := (key <- lift (abi_ParseUIntKey d) ;; AssignInt (int_of_uint64 key))%asm na in
  (exists vs', state (fst r) = ListOpen vs') /\ ~ panics (snd r).
Proof.
  intros Hst. cbn zeta. unfold bind, lift, AssignInt, assignValue. rewrite Hst.
  destruct (abi_ParseUIntKey d) as [key|e|msg] eqn:?; cbn [fst snd];
    [|split; [eauto | exact id]|quiet_hyp].
  destruct (AssignInt_value (Prototype na) (int_of_uint64 key)) as [n|e|msg] eqn:?;
    cbn [fst snd state]; [split; [eauto | exact id]|split; [eauto | exact id]|quiet_hyp].
Qed.

(** A list body whose visit error is dropped: it does not panic, and ends
    with a finished list whenever it returns no error. *)
Lemma listBody_ignoring {K V} (set : Iter K V) (f : K -> V -> M unit) (amt : NodeAssembler) :
  (forall k v na vs, state na = ListOpen vs ->
     (exists vs', state (fst (f k v na)) = ListOpen vs') /\ ~ panics (snd (f k v na))) ->
  state amt = Fresh ->
  forall b r, (BeginList 0 ;; ignore_error (ForEach set f) ;; Finish)%asm amt = (b, r) ->
    ~ panics r /\ (forall u, r = Ok u -> exists n, state b = Finished n).
Proof.
  intros Hf Hst b r Hrun.
  set (na0 := {| Prototype := Prototype amt; state := ListOpen [] |}).
  assert (BeginList 0 amt
          = match BeginList_check (Prototype amt) with
            | Some e => (amt, Err e)
            | None => (na0, Ok tt)
            end) as Hbegin by (unfold BeginList; now rewrite Hst).
  destruct (listLoop f Hf (entries set) na0 [] eq_refl) as [(vs & Hvs) Hq].
  assert (exists na1, ignore_error (ForEach set f) na0 = (na1, Ok tt)
                      /\ exists vs', state na1 = ListOpen vs') as (na1 & Hvisit & vs' & Hs).
  { unfold ignore_error, ForEach, bind.
    destruct (forEachEntry (entries set) f na0) as [na1 [[]|e'|msg]]; cbn [fst snd] in *.
    - unfold checkErr, fail, ret, lift. destruct (failure set); eauto.
    - eauto.
    - exfalso. exact (Hq I). }
  unfold bind in Hrun. rewrite Hbegin in Hrun.
  destruct (BeginList_check (Prototype amt)).
  - injection Hrun as <- <-. split; [exact id | intros ? [=]].
  - rewrite Hvisit in Hrun. unfold Finish in Hrun. rewrite Hs in Hrun.
    destruct (Finish_check (Prototype na1)); injection Hrun as <- <-;
      (split; [exact id | intros ? Hu; first [discriminate Hu | cbn [state]; eauto]]).
Qed.

(** The body of the nested map of the cron-event queue. *)
Lemma queueBody_quiet (val : Iter Z bytes) (amt : NodeAssembler) :
  state amt = Fresh ->
  forall b r,
    (BeginMap 0 ;;
     Array_ForEach val Deferred_UnmarshalCBOR (fun i eval =>
       AssembleEntry (Sprintf_d i) ;;
       actor <- decodeElement types.PowerV0CronEvent__Repr eval ;;
       AssignNode actor) ;;
     Finish)%asm amt = (b, r) ->
    ~ panics r /\ (forall u, r = Ok u -> exists n, state b = Finished n).
Proof.
  intros Hst b r Hrun. unfold Array_ForEach in Hrun. split.
  - pose proof (mapBody_quiet Sprintf_d val _
                  (visitor_array_node types.PowerV0CronEvent__Repr)
                  (quiet_array_node types.PowerV0CronEvent__Repr) amt Hst) as Hq.
    rewrite Hrun in Hq. exact Hq.
  - intros u ->.
    destruct (mapBody_values (arrayNode types.PowerV0CronEvent__Repr) val _
                (values_array_node types.PowerV0CronEvent__Repr) amt b u Hst Hrun)
      as (_ & _ & es & Hs & _).
    eauto.
Qed.

Tactic Notation "quiet_decoder" constr(kf) uconstr(Ha) uconstr(Hq) :=
  refine (decoder_quiet _ _ kf _ (fun _ => eq_refl) _ Ha Hq);
  first [ exact (quiet_LoadNode store HP) | exact (quiet_AsArray store HP)
        | exact (quiet_AsMultimap store HP) | exact (quiet_AsMap store HP) ].

Lemma complexLoaders_quiet (p : NodePrototype) (ld : Loader) :
  complexLoaders !! p = Some ld ->
  forall c na, state na = Fresh -> ~ panics (snd (ld c store na)).
Proof.
  assert (forall c na, state na = Fresh -> ~ panics (snd (transformPowerActorEventQueue c store na)))
    as Hqueue.
  { refine (decoder_quiet _ adt_AsMultimap bigEndianDecimal _ (fun _ => eq_refl)
              (quiet_AsMultimap store HP) (visitor_nested bigEndianDecimal _ _) _).
    refine (quiet_nested bigEndianDecimal _ _ _ _).
    - intros v.
      match goal with |- ~ panics (snd ?t) => destruct t as [b r] eqn:Hrun end.
      exact (proj1 (queueBody_quiet v (NewBuilder types.Map__PowerV0CronEvent__Repr)
                      eq_refl b r Hrun)).
    - intros v b u Hrun.
      exact (proj2 (queueBody_quiet v (NewBuilder types.Map__PowerV0CronEvent__Repr)
                      eq_refl b (Ok u) Hrun) u eq_refl). }
  assert (forall c na, state na = Fresh -> ~ panics (snd (transformMarketDealOpsByEpoch c store na)))
    as Hdeals.
  { refine (decoder_quiet _ adt_AsMap bigEndianDecimal _ (fun _ => eq_refl)
              (quiet_AsMap store HP) (visitor_nested_set bigEndianDecimal _ _ _) _).
    refine (quiet_nested_set bigEndianDecimal _ _ _ (quiet_AsSet store HP) _ _).
    - intros v.
      match goal with |- ~ panics (snd ?t) => destruct t as [b r] eqn:Hrun end.
      exact (proj1 (listBody_ignoring v _ (NewBuilder types.List__DealID__Repr)
                      dealId_step eq_refl b r Hrun)).
    - intros v b u Hrun.
      exact (proj2 (listBody_ignoring v _ (NewBuilder types.List__DealID__Repr)
                      dealId_step eq_refl b (Ok u) Hrun) u eq_refl). }
  unfold complexLoaders. cbn [list_to_map foldr fst snd uncurry].
  repeat (rewrite lookup_insert; case_decide;
          [intros [= <-];
           first [ exact Hqueue | exact Hdeals
                 | quiet_decoder (fun k : string => k) (visitor_node (fun k => k) _)
                     (quiet_node (fun k => k) _)
                 | quiet_decoder bigEndianDecimal (visitor_node bigEndianDecimal _)
                     (quiet_node bigEndianDecimal _)
                 | quiet_decoder (fun k : string => k) (visitor_int (fun k => k))
                     (quiet_int (fun k => k))
                 | quiet_decoder (fun k : string => k) (visitor_bytes (fun k => k))
                     (quiet_bytes (fun k => k))
                 | quiet_decoder Sprintf_d (visitor_array_node _) (quiet_array_node _)
                 | quiet_decoder Sprintf_d visitor_array_bytes quiet_array_bytes ]|]).
  rewrite lookup_empty. discriminate.
Qed.

Lemma Load_quiet (c : Cid) (into : NodeAssembler) :
  state into = Fresh -> ~ panics (snd (Load c store into)).
Proof.
  intros Hst. unfold Load.
  destruct (complexLoaders !! Prototype into) as [ld|] eqn:Hl.
  - exact (complexLoaders_quiet _ _ Hl c into Hst).
  - pose proof (quiet_store store HP c) as Hs.
    destruct (store c) as [data|e|msg]; [|exact id|exact Hs].
    unfold dagcbor_Decoder. rewrite Hst.
    pose proof (quiet_Decode store HP (Prototype into) data) as Hd.
    destruct (dagcbor_Decode (Prototype into) data); [exact id|exact id|exact Hd].
Qed.

(** X11.  [Transform] does not panic unless the store or a collaborator
    does: the decoders keep to the protocol of the assemblers (a map is begun
    on a fresh builder, every key is followed by its value, [Finish] and
    [Build] are reached with nothing left open), for every cid and every
    type path. *)
Theorem Transform_does_not_panic (c : Cid) (as_ : string) :
  ~ panics (Transform c store as_).
Proof.
  unfold Transform.
  destruct (LotusPrototypes !! ResolveType as_) as [proto|]; [|exact id].
  pose proof (Load_quiet c (NewBuilder proto) eq_refl) as Hq.
  destruct (Load c store (NewBuilder proto)) as [na' [u|e|msg]] eqn:Hl;
    [|exact id|exact Hq].
  destruct (Load_abort c store (NewBuilder proto) na' (Ok u) eq_refl Hl) as [n Hn].
  unfold Build. rewrite Hn. exact id.
Qed.

End PanicFreedom.


Lemma Example_world_is_quiet : PanicFree (H := Example.world) Example.store.
Proof.
  assert (forall c, ~ panics (Example.store c)) as Hs.
  { intros c. unfold Example.store. repeat case_decide; exact id. }
  assert (forall A (root : Cid) (content : A) c,
            ~ panics (Example.loadAt root content Example.store c)) as Hl.
  { intros A root content c. unfold Example.loadAt. pose proof (Hs c) as Hc.
    destruct (Example.store c); [case_decide; exact id | exact id | exact Hc]. }
  constructor; cbn; intros; try exact id; try apply Hl.
  - apply Hs.
  - unfold Example.decodeByte. destruct data as [|b [|]]; exact id.
  - unfold Example.decodeByte. destruct data as [|b [|]]; exact id.
  - unfold Example.ParseUIntKey. destruct (Example.Uvarint _ _ _ _) as [i n].
    destruct (n =? _)%Z; exact id.
Qed.

Lemma Transform_does_not_panic_witness :
  PanicFree (H := Example.world) Example.store
  /\ ~ panics (Transform (H := Example.world) Example.cidTable Example.store
                 "storageMarketActor.DealOpsByEpoch").
Proof.
  split; [exact Example_world_is_quiet|].
  exact (Transform_does_not_panic (H := Example.world) Example.store Example_world_is_quiet
           Example.cidTable "storageMarketActor.DealOpsByEpoch").
Defined.

Section DecoderKinds.
Context `{Collaborators}.

Lemma emitsKeys_map {K V} (D : Loader) (load : Blockstore -> Cid -> result (Iter K V))
    (kf : K -> string) :
  emitsKeys D load kf ->
  forall c store na na' u, state na = Fresh -> D c store na = (na', Ok u) ->
    exists es, state na' = Finished (MapNode es)
               /\ Forall (fun e => exists s, fst e = keyNode (Prototype na) s) es.
Proof.
  intros HD c store na na' u Hst Hrun.
  destruct (HD c store na na' u Hst Hrun) as (src & es & _ & _ & Hs & Hk).
  exists es. split; [assumption|].
  revert Hk. generalize (entries src) as l. clear Hs.
  induction es as [|e es IH]; intros l Hk; [constructor|].
  destruct l as [|kv l]; [discriminate|]. cbn [map] in Hk. injection Hk as He Hk.
  constructor; [eauto | exact (IH l Hk)].
Qed.

Lemma complexLoaders_map (p : NodePrototype) (ld : Loader) :
  complexLoaders !! p = Some ld ->
  forall c store na na' u, state na = Fresh -> ld c store na = (na', Ok u) ->
    exists es, state na' = Finished (MapNode es)
               /\ Forall (fun e => exists s, fst e = keyNode (Prototype na) s) es.
Proof.
  unfold complexLoaders. cbn [list_to_map foldr fst snd uncurry].
  repeat (rewrite lookup_insert; case_decide;
          [intros [= <-]; eapply emitsKeys_map;
           first [ exact (proj1 transformStateRoot_keys)
                 | exact (proj1 transformInitActor_keys)
                 | exact (proj1 transformMinerActorPreCommittedSectors_keys)
                 | exact (proj1 transformMinerActorBitfieldHamt_keys)
                 | exact (proj1 transformMinerActorSectors_keys)
                 | exact (proj1 transformMinerActorDeadlinePartitions_keys)
                 | exact (proj1 transformMinerActorDeadlinePartitionExpiry_keys)
                 | exact (proj1 transformPowerActorEventQueue_keys)
                 | exact (proj1 transformPowerActorClaims_keys)
                 | exact (proj1 transformVerifiedRegistryDataCaps_keys)
                 | exact (proj1 transformMarketPendingProposals_keys)
                 | exact (proj1 transformMarketProposals_keys)
                 | exact (proj1 transformMarketStates_keys)
                 | exact (proj1 transformMarketBalanceTable_keys)
                 | exact (proj1 transformMarketDealOpsByEpoch_keys)
                 | exact (proj1 transformMultisigPending_keys)
                 | exact (proj1 transformPaymentChannelLaneStates_keys) ]|]).
  rewrite lookup_empty. discriminate.
Qed.

(** X12.  For a path that resolves to a type with a registered structure
    decoder, the node that [Transform] returns is a map, and every key of it
    is a string node of the key type that the schema gives the prototype. *)
Theorem Transform_of_structure_is_map (c : Cid) (store : Blockstore) (as_ : string)
    (proto : NodePrototype) (n : Node) :
  LotusPrototypes !! ResolveType as_ = Some proto ->
  proto ∈ complexPrototypes ->
  Transform c store as_ = Ok n ->
  exists es, n = MapNode es
             /\ Forall (fun e => exists s, fst e = StringNode (keyType proto) s) es.
Proof.
  intros Hp Hin. unfold Transform. rewrite Hp.
  apply (complexLoaders_dom (Prototype (NewBuilder proto))) in Hin. revert Hin.
  unfold Load.
  destruct (complexLoaders !! Prototype (NewBuilder proto)) as [ld|] eqn:Hld;
    [intros _ | intros [? [=]]].
  destruct (ld c store (NewBuilder proto)) as [na' [u|e|msg]] eqn:Hrun; try discriminate.
  destruct (complexLoaders_map proto ld Hld c store (NewBuilder proto) na' u eq_refl Hrun)
    as (es & Hs & Hk).
  unfold Build. rewrite Hs. intros [= <-]. exists es. split; [reflexivity | exact Hk].
Qed.

End DecoderKinds.

Lemma Transform_of_structure_is_map_witness :
  LotusPrototypes !! ResolveType "storageMinerActor.Sectors[3]"
  = Some types.Map__SectorOnChainInfo__Repr
  /\ Transform (H := Example.world) Example.cidAmt Example.store "storageMinerActor.Sectors[3]"
     = Ok (MapNode [(StringNode types_String "7", IntNode 1)])
  /\ exists es, MapNode [(StringNode types_String "7", IntNode 1)] = MapNode es
                /\ Forall (fun e => exists s, fst e = StringNode types_String s) es.
Proof.
  assert (types.Map__SectorOnChainInfo__Repr ∈ complexPrototypes) as Hin.
  { apply (bool_decide_unpack _). vm_compute. exact I. }
  split; [reflexivity|]. split; [reflexivity|].
  exact (Transform_of_structure_is_map (H := Example.world) Example.cidAmt Example.store
           "storageMinerActor.Sectors[3]" types.Map__SectorOnChainInfo__Repr
           (MapNode [(StringNode types_String "7", IntNode 1)]) eq_refl Hin eq_refl).
Defined.


(** ** The marshaler *)

Section MarshalStreams.
Context `{Codecs}.

Local Open Scope tok_scope.

Lemma tbind_Ok_inv {S A B} (m : T S A) (f : A -> T S B) s s' b :
  tbind m f s = Some (s', Ok b) ->
  exists a s1, m s = Some (s1, Ok a) /\ f a s1 = Some (s', Ok b).
Proof.
  unfold tbind. destruct (m s) as [[s1 [a|e|msg]]|]; try discriminate. eauto.
Qed.

Lemma step_record (tk : Token) (s : list Tok) :
  step recordStep tk s = Some ((s ++ [tokenOf tk])%list, Ok tt).
Proof. reflexivity. Qed.

Lemma marshalEntries_appends rec d tk es :
  (forall d n, appends ValueTokens (rec d n)) ->
  appends (EntryTokens (List.length es)) (marshalEntries recordStep rec d tk es).
Proof.
  intros Hrec. revert tk. induction es as [|[k v] es IH]; intros tk s s' a Hrun.
  - injection Hrun as <- _. exists []. rewrite app_nil_r. split; [reflexivity | constructor].
  - cbn [marshalEntries] in Hrun.
    apply tbind_Ok_inv in Hrun as (str & s1 & Hk & Hrun).
    apply tbind_Ok_inv in Hrun as (str' & s2 & Hr & Hrun).
    apply tbind_Ok_inv in Hrun as (u1 & s3 & Hs & Hrun).
    apply tbind_Ok_inv in Hrun as (u2 & s4 & Hv & Hrun).
    unfold tlift in Hk, Hr. injection Hk as <- _. injection Hr as <- _.
    rewrite step_record in Hs. injection Hs as <- _.
    destruct (Hrec _ _ _ _ _ Hv) as (tv & -> & HV).
    destruct (IH _ _ _ _ Hrun) as (ts & -> & HE).
    exists (StringTok str' :: tv ++ ts)%list. split.
    + now rewrite <- !app_assoc.
    + cbn [List.length]. now constructor.
Qed.

Lemma marshalElems_appends rec d i vs :
  (forall d n, appends ValueTokens (rec d n)) ->
  appends (ElemTokens (List.length vs)) (marshalElems (S := list Tok) rec d i vs).
Proof.
  intros Hrec. revert i. induction vs as [|v vs IH]; intros i s s' a Hrun.
  - injection Hrun as <- _. exists []. rewrite app_nil_r. split; [reflexivity | constructor].
  - cbn [marshalElems] in Hrun.
    apply tbind_Ok_inv in Hrun as (u & s1 & Hv & Hrun).
    destruct (Hrec _ _ _ _ _ Hv) as (tv & -> & HV).
    destruct (IH _ _ _ _ Hrun) as (ts & -> & HE).
    exists (tv ++ ts)%list. split; [now rewrite <- app_assoc|].
    cbn [List.length]. now constructor.
Qed.

Lemma marshalBytes_appends tk ty v :
  appends ValueTokens (marshalBytes recordStep tk ty v).
Proof.
  intros s s' a Hrun. unfold marshalBytes in Hrun.
  apply tbind_Ok_inv in Hrun as (tk' & s1 & Hty & Hrun).
  rewrite step_record in Hrun. injection Hrun as <- _.
  destruct ty.
  - injection Hty as <- <-. eexists. split; [reflexivity | apply VT_string].
  - apply tbind_Ok_inv in Hty as (adr & s2 & Ha & Hty).
    unfold tlift in Ha. injection Ha as <- _. injection Hty as <- <-.
    eexists. split; [reflexivity | apply VT_string].
  - injection Hty as <- <-. eexists. split; [reflexivity | apply VT_string].
  - apply tbind_Ok_inv in Hty as (b & s2 & Hb & Hty).
    unfold tlift in Hb. destruct (decodeBitField v); try discriminate Hb.
    injection Hb as <- _.
    cbv zeta in Hty. unfold tbind, tret, step, recordStep in Hty.
    injection Hty as <- <-. rewrite <- !app_assoc. cbn [app tokenOf Type_ set_Type set_Str
      set_Length Length Str]. eexists. split; [reflexivity|].
    apply (VT_map 2 [StringTok "_type"; StringTok "bitfield"; StringTok "bytes"; StringTok _]).
    apply (ET_cons "_type" [StringTok "bitfield"] 1 [StringTok "bytes"; StringTok _]);
      [apply VT_string|].
    apply (ET_cons "bytes" [StringTok _] 0 []); [apply VT_string | constructor].
Qed.

Lemma marshalLinkTokens_appends tk c :
  appends ValueTokens (marshalLinkTokens recordStep tk c).
Proof.
  intros s s' a Hrun. unfold marshalLinkTokens, tbind, step, recordStep in Hrun.
  injection Hrun as <- _.
  rewrite <- !app_assoc. eexists. split; [reflexivity|].
  cbn [app tokenOf Type_ set_Type set_Str set_Length Length Str].
  apply (VT_map 1 [StringTok "/"; StringTok _]).
  apply (ET_cons "/" [StringTok _] 0 []); [apply VT_string | constructor].
Qed.

(** X13.  Whenever [MarshalRecursive] returns no error, the tokens it handed
    to the sink are those of exactly one well-formed value: scalars are one
    token; a map announces its number of entries and holds that many pairs of
    a string key and one value; a list announces its length and holds that
    many values; opening and closing tokens are matched.  This holds with any
    loader (an inlined node is again one value) and any codecs. *)
Theorem Marshal_emits_one_value (fuel : nat) (d : DagMarshaler) (n : Node)
    (s s' : list Tok) (u : unit) :
  MarshalRecursive recordStep fuel d n s = Some (s', Ok u) ->
  exists ts, s' = (s ++ ts)%list /\ ValueTokens ts.
Proof.
  revert d n s s' u. induction fuel as [|fuel IH]; intros d n s s' u Hrun; [discriminate|].
  assert (forall d n, appends ValueTokens (MarshalRecursive recordStep fuel d n)) as Hrec
    by (intros d0 n0 s0 s0' u0; apply IH).
  destruct n as [| |es|vs|b|i|f|ty v|ty v|lnk]; cbn [MarshalRecursive] in Hrun.
  - discriminate.
  - rewrite step_record in Hrun. injection Hrun as <- _.
    eexists. split; [reflexivity | apply VT_null].
  - apply tbind_Ok_inv in Hrun as (u1 & s1 & Hs & Hrun).
    apply tbind_Ok_inv in Hrun as (tk & s2 & He & Hrun).
    rewrite step_record in Hs, Hrun. injection Hs as <- _. injection Hrun as <- _.
    destruct (marshalEntries_appends _ _ _ _ Hrec _ _ _ He) as (ts & -> & HE).
    exists (MapOpenTok (Z.of_nat (List.length es)) :: ts ++ [MapCloseTok])%list. split.
    + now rewrite <- !app_assoc.
    + now constructor.
  - apply tbind_Ok_inv in Hrun as (u1 & s1 & Hs & Hrun).
    apply tbind_Ok_inv in Hrun as (u2 & s2 & He & Hrun).
    rewrite step_record in Hs, Hrun. injection Hs as <- _. injection Hrun as <- _.
    destruct (marshalElems_appends _ _ _ _ Hrec _ _ _ He) as (ts & -> & HE).
    exists (ArrOpenTok (Z.of_nat (List.length vs)) :: ts ++ [ArrCloseTok])%list. split.
    + now rewrite <- !app_assoc.
    + now constructor.
  - rewrite step_record in Hrun. injection Hrun as <- _.
    eexists. split; [reflexivity | apply VT_bool].
  - rewrite step_record in Hrun. injection Hrun as <- _.
    eexists. split; [reflexivity | apply VT_int].
  - rewrite step_record in Hrun. injection Hrun as <- _.
    eexists. split; [reflexivity | apply VT_float].
  - apply tbind_Ok_inv in Hrun as (str & s1 & Hr & Hrun).
    unfold tlift in Hr. injection Hr as <- _.
    rewrite step_record in Hrun. injection Hrun as <- _.
    eexists. split; [reflexivity | apply VT_string].
  - exact (marshalBytes_appends _ _ _ _ _ _ Hrun).
  - destruct lnk as [c|descr]; [|discriminate].
    destruct (loadLink d c) as [node|].
    + exact (IH _ _ _ _ _ Hrun).
    + exact (marshalLinkTokens_appends _ _ _ _ _ Hrun).
Qed.

End MarshalStreams.


Lemma Marshal_emits_one_value_witness :
  MarshalRecursive (H := ExampleCodecs.codecs) recordStep 2
    {| Loader_ := None; Path_ := [] |} (ListNode [IntNode 1; BoolNode true]) []
  = Some ([ArrOpenTok 2; IntTok 1; BoolTok true; ArrCloseTok], Ok tt)
  /\ exists ts, [ArrOpenTok 2; IntTok 1; BoolTok true; ArrCloseTok] = ([] ++ ts)%list
                /\ ValueTokens ts.
Proof.
  split; [reflexivity|].
  exact (Marshal_emits_one_value (H := ExampleCodecs.codecs) 2
           {| Loader_ := None; Path_ := [] |} (ListNode [IntNode 1; BoolNode true]) []
           [ArrOpenTok 2; IntTok 1; BoolTok true; ArrCloseTok] tt eq_refl).
Defined.

Section MarshalTermination.
Context {S : Type}.
Variable Step : S -> Token -> S * option error.
Context `{Codecs}.

Local Open Scope tok_scope.

Lemma tbind_returns {A B} (m : T S A) (f : A -> T S B) :
  returns m -> (forall a, returns (f a)) -> returns (tbind m f).
Proof.
  intros Hm Hf s. unfold tbind.
  destruct (Hm s) as [[s1 [a|e|msg]] ->]; [apply Hf | eauto | eauto].
Qed.

Lemma step_returns tk : returns (step Step tk).
Proof. intros s. unfold step. destruct (Step s tk) as [s1 [e|]]; eauto. Qed.

Lemma tlift_returns {A} (r : result A) : returns (S := S) (tlift r).
Proof. intros s. unfold tlift. eauto. Qed.

Lemma tret_returns {A} (a : A) : returns (S := S) (tret a).
Proof. intros s. unfold tret. eauto. Qed.

Lemma marshalBytes_returns tk ty v : returns (marshalBytes Step tk ty v).
Proof.
  unfold marshalBytes. apply tbind_returns; [|intros; apply step_returns].
  destruct ty;
    repeat first [ apply tret_returns | apply tlift_returns | apply step_returns
                 | apply tbind_returns | intros ? ].
Qed.

Lemma marshalLinkTokens_returns tk c : returns (marshalLinkTokens Step tk c).
Proof.
  unfold marshalLinkTokens.
  repeat first [ apply step_returns | apply tbind_returns | intros ? ].
Qed.

Lemma marshalEntries_returns rec d tk es :
  Forall (fun e => forall d', Loader_ d' = None -> returns (rec d' (snd e))) es ->
  Loader_ d = None ->
  returns (marshalEntries Step rec d tk es).
Proof.
  intros Hes Hd. revert tk. induction Hes as [|[k v] es Hv Hes IH]; intros tk.
  - apply tret_returns.
  - cbn [marshalEntries].
    apply tbind_returns; [apply tlift_returns|intros str].
    apply tbind_returns; [apply tlift_returns|intros str'].
    apply tbind_returns; [apply step_returns|intros _].
    apply tbind_returns; [apply Hv; exact Hd|intros _]. apply IH.
Qed.

Lemma marshalElems_returns rec d i vs :
  Forall (fun v => forall d', Loader_ d' = None -> returns (rec d' v)) vs ->
  Loader_ d = None ->
  returns (S := S) (marshalElems rec d i vs).
Proof.
  intros Hvs Hd. revert i. induction Hvs as [|v vs Hv Hvs IH]; intros i.
  - apply tret_returns.
  - cbn [marshalElems]. apply tbind_returns; [apply Hv; exact Hd|intros _]. apply IH.
Qed.

Lemma depth_entries fuel (es : list (Node * Node)) :
  (depth (MapNode es) <= Datatypes.S fuel)%nat ->
  Forall (fun e => (depth (snd e) <= fuel)%nat) es.
Proof.
  cbn [depth]. intros Hd. apply le_S_n in Hd. revert Hd.
  induction es as [|[k v] es IH]; intros Hd; [constructor|].
  cbn [fold_right] in Hd. constructor; [cbn [snd]; lia | apply IH; lia].
Qed.

Lemma depth_elems fuel (vs : list Node) :
  (depth (ListNode vs) <= Datatypes.S fuel)%nat ->
  Forall (fun v => (depth v <= fuel)%nat) vs.
Proof.
  cbn [depth]. intros Hd. apply le_S_n in Hd. revert Hd.
  induction vs as [|v vs IH]; intros Hd; [constructor|].
  cbn [fold_right] in Hd. constructor; [lia | apply IH; lia].
Qed.

Lemma depth_pos (n : Node) : (1 <= depth n)%nat.
Proof. destruct n; cbn [depth]; lia. Qed.

(** Without a loader the walk returns once the fuel covers the depth. *)
Lemma MarshalRecursive_returns fuel :
  forall d n, Loader_ d = None -> (depth n <= fuel)%nat ->
    returns (MarshalRecursive Step fuel d n).
Proof.
  induction fuel as [|fuel IH]; intros d n Hd Hn.
  - pose proof (depth_pos n). lia.
  - destruct n as [| |es|vs|b|i|f|ty v|ty v|lnk]; cbn [MarshalRecursive].
    + apply tlift_returns.
    + apply step_returns.
    + apply tbind_returns; [apply step_returns|intros _].
      apply tbind_returns; [|intros; apply step_returns].
      apply marshalEntries_returns; [|exact Hd].
      eapply Forall_impl; [apply depth_entries; exact Hn|].
      intros e He d' Hd'. cbn beta in He. exact (IH d' (snd e) Hd' He).
    + apply tbind_returns; [apply step_returns|intros _].
      apply tbind_returns; [|intros; apply step_returns].
      apply marshalElems_returns; [|exact Hd].
      eapply Forall_impl; [apply depth_elems; exact Hn|].
      intros v Hv d' Hd'. cbn beta in Hv. exact (IH d' v Hd' Hv).
    + apply step_returns.
    + apply step_returns.
    + apply step_returns.
    + apply tbind_returns; [apply tlift_returns|intros; apply step_returns].
    + apply marshalBytes_returns.
    + destruct lnk as [c|descr]; [|apply tlift_returns].
      unfold loadLink. rewrite Hd. apply marshalLinkTokens_returns.
Qed.

Lemma tbind_mono {A B} (m : T S A) (f f' : A -> T S B) s r :
  (forall a s1 r1, f a s1 = Some r1 -> f' a s1 = Some r1) ->
  tbind m f s = Some r -> tbind m f' s = Some r.
Proof.
  intros Hf. unfold tbind. destruct (m s) as [[s1 [a|e|msg]]|]; try exact id.
  apply Hf.
Qed.

Lemma tbind_mono_l {A B} (m m' : T S A) (f : A -> T S B) s r :
  (forall s1 r1, m s1 = Some r1 -> m' s1 = Some r1) ->
  tbind m f s = Some r -> tbind m' f s = Some r.
Proof.
  intros Hm. unfold tbind. destruct (m s) as [[s1 ra]|] eqn:Hms; [|discriminate].
  now rewrite (Hm _ _ Hms).
Qed.

Lemma marshalEntries_mono rec rec' d tk es :
  (forall d n s r, rec d n s = Some r -> rec' d n s = Some r) ->
  forall s r, marshalEntries Step rec d tk es s = Some r ->
              marshalEntries Step rec' d tk es s = Some r.
Proof.
  intros Hrec. revert tk. induction es as [|[k v] es IH]; intros tk s r; [exact id|].
  cbn [marshalEntries].
  apply tbind_mono; intros str s1 r1. apply tbind_mono; intros str' s2 r2.
  apply tbind_mono; intros _ s3 r3. intros Hrun.
  apply (tbind_mono_l _ _ _ _ _ (Hrec _ _)).
  revert Hrun. apply tbind_mono. intros _ s4 r4. apply IH.
Qed.

Lemma marshalElems_mono rec rec' d i vs :
  (forall d n s r, rec d n s = Some r -> rec' d n s = Some r) ->
  forall s r, marshalElems (S := S) rec d i vs s = Some r ->
              marshalElems rec' d i vs s = Some r.
Proof.
  intros Hrec. revert i. induction vs as [|v vs IH]; intros i s r; [exact id|].
  cbn [marshalElems]. intros Hrun.
  apply (tbind_mono_l _ _ _ _ _ (Hrec _ _)).
  revert Hrun. apply tbind_mono. intros _ s4 r4. apply IH.
Qed.

(** More fuel does not change a result. *)
Lemma MarshalRecursive_mono fuel :
  forall fuel' d n s r, (fuel <= fuel')%nat ->
    MarshalRecursive Step fuel d n s = Some r -> MarshalRecursive Step fuel' d n s = Some r.
Proof.
  induction fuel as [|fuel IH]; intros fuel' d n s r Hle Hrun; [discriminate|].
  destruct fuel' as [|fuel']; [lia|]. apply le_S_n in Hle.
  assert (forall d n s r, MarshalRecursive Step fuel d n s = Some r ->
                          MarshalRecursive Step fuel' d n s = Some r) as Hrec
    by (intros; now apply IH).
  destruct n as [| |es|vs|b|i|f|ty v|ty v|lnk]; cbn [MarshalRecursive] in *;
    try exact Hrun.
  - revert Hrun. apply tbind_mono. intros _ s1 r1.
    apply tbind_mono_l. intros s2 r2. now apply marshalEntries_mono.
  - revert Hrun. apply tbind_mono. intros _ s1 r1.
    apply tbind_mono_l. intros s2 r2. now apply marshalElems_mono.
  - destruct lnk as [c|descr]; [|exact Hrun].
    destruct (loadLink d c); [now apply Hrec | exact Hrun].
Qed.

(** X14.  [Marshal] (the marshaler without a loader) returns on every node
    and from every state of any sink: there is one result that it reaches
    with every recursion budget that covers the nesting depth of the node. *)
Theorem Marshal_returns (n : Node) (s : S) :
  exists r, forall fuel, (depth n <= fuel)%nat -> Marshal Step fuel n s = Some r.
Proof.
  destruct (MarshalRecursive_returns (depth n) {| Loader_ := None; Path_ := [] |} n
              eq_refl (le_n _) s) as [r Hr].
  exists r. intros fuel Hle. unfold Marshal.
  exact (MarshalRecursive_mono (depth n) fuel _ n s r Hle Hr).
Qed.


End MarshalTermination.



Section MarshalPaths.
Context {S : Type}.
Variable Step : S -> Token -> S * option error.
Context `{Codecs}.

Local Open Scope tok_scope.


End MarshalPaths.


(** ** Keys *)

Lemma big_String_inj (n m : N) : big_String n = big_String m -> n = m.
Proof.
  unfold big_String. intros Hs.
  assert (forall k, N.to_uint k <> Decimal.Nil) as Hnn.
  { intros [|p]; [discriminate | apply DecimalPos.Unsigned.to_uint_nonnil]. }
  apply DecimalN.Unsigned.to_uint_inj.
  pose proof (NilZero.usu (N.to_uint n) (Hnn n)) as H1.
  pose proof (NilZero.usu (N.to_uint m) (Hnn m)) as H2.
  rewrite Hs in H1. congruence.
Qed.


(** X17.  The decimal keys made of raw key bytes (pre-committed sectors,
    cron-event queue, deal-ops table, multisig transactions) tell two raw
    keys apart exactly when the keys hold different big-endian numbers: in
    particular a key and the same key behind a zero byte give the same map
    key. *)
Theorem bigEndianDecimal_separates_numbers :
  (forall k1 k2 : string,
     bigEndianDecimal k1 = bigEndianDecimal k2
     <-> SetBytes (bytes_of_string k1) = SetBytes (bytes_of_string k2))
  /\ (forall k : string, bigEndianDecimal (String "000" k) = bigEndianDecimal k).
Proof.
  split.
  - intros k1 k2. unfold bigEndianDecimal. split; [apply big_String_inj | now intros ->].
  - intros k. reflexivity.
Qed.

Section ArrayKeys.
Context `{Collaborators}.



End ArrayKeys.



(** ** The generated node type [types.Bytes] *)

Module TypesBytesFacts.
Import TypesBytes.

(** X19.  Builder round trip: on an assembler that is not finished,
    [AssignBytes] succeeds, after which [Build] returns a node whose
    [AsBytes] gives back the assigned bytes; on a finished assembler it
    panics.  In particular the bytes assigned to a new builder are the bytes
    of the built node. *)
Theorem Bytes_builder_round_trip (b : bytes) (na : _Bytes__Assembler) :
  (~ finished na ->
   exists na' n,
     AssignBytes b na = (na', Ok tt) /\ Build na' = Ok (Some n)
     /\ ReprKind n = ReprKind_Bytes /\ AsBytes n = Ok b)
  /\ (finished na -> exists msg, AssignBytes b na = (na, Panic msg))
  /\ ~ finished NewBuilder.
Proof.
  unfold finished. split; [|split].
  - intros Hn. exists {| w_ := Some {| x := b |}; m_ := Maybe_Value |}, {| x := b |}.
    unfold AssignBytes. destruct (m_ na); try tauto; repeat split.
  - intros [Hm|Hm]; unfold AssignBytes, already_finished; rewrite Hm; eauto.
  - intros [Hm|Hm]; discriminate Hm.
Qed.

(** X20.  A value is assigned once: after a successful [AssignBytes] the
    builder is finished, [Build] returns the node, and every further
    [AssignBytes], [AssignNull], or [AssignNode] of a null or bytes node
    panics and leaves the assembler, and with it the node, as it was. *)
Theorem Bytes_is_assigned_once (b : bytes) (na na' : _Bytes__Assembler) :
  AssignBytes b na = (na', Ok tt) ->
  Build na' = Ok (Some {| x := b |})
  /\ (forall b', exists msg, AssignBytes b' na' = (na', Panic msg))
  /\ (exists msg, AssignNull na' = (na', Panic msg))
  /\ (exists msg, AssignNode Null na' = (na', Panic msg))
  /\ (forall ty b', exists msg, AssignNode (BytesNode ty b') na' = (na', Panic msg)).
Proof.
  unfold AssignBytes, already_finished.
  destruct (m_ na); intros [= <-]; repeat split; intros;
    try destruct ty; cbn; eauto.
Qed.

Lemma Bytes_is_assigned_once_witness :
  AssignBytes [Byte.x01; Byte.x02] NewBuilder
  = ({| w_ := Some {| x := [Byte.x01; Byte.x02] |}; m_ := Maybe_Value |}, Ok tt)
  /\ Build {| w_ := Some {| x := [Byte.x01; Byte.x02] |}; m_ := Maybe_Value |}
     = Ok (Some {| x := [Byte.x01; Byte.x02] |}).
Proof.
  split; [reflexivity|].
  exact (proj1 (Bytes_is_assigned_once [Byte.x01; Byte.x02] NewBuilder
                  {| w_ := Some {| x := [Byte.x01; Byte.x02] |}; m_ := Maybe_Value |}
                  eq_refl)).
Defined.

(** X21.  The three branches of [AssignNode] agree with the direct methods:
    a bytes node of any Go type, [types.Bytes] itself included, is assigned
    exactly as [AssignBytes] assigns its bytes; a null node exactly as
    [AssignNull]; a node of any other kind is refused with an error and the
    assembler is left as it was. *)
Theorem Bytes_AssignNode_agrees (v : Node) (na : _Bytes__Assembler) :
  match v with
  | BytesNode _ b => AssignNode v na = AssignBytes b na
  | Null => AssignNode v na = AssignNull na
  | _ => exists e, AssignNode v na = (na, Err e)
  end.
Proof.
  destruct v as [| |es|vs|b|i|f|ty s|ty b|l]; cbn [AssignNode]; eauto.
  destruct ty; reflexivity.
Qed.

End TypesBytesFacts.

(** ** The tables of actor codes *)

(** X22.  The browser component and the decoder know the same actor codes
    under the same type names; every one of these types other than the
    system actor is a registered type that resolves to itself, so the type
    the component shows is a type that [Transform] decodes; the system actor
    has no prototype. *)
Theorem actor_codes_agree :
  (forall code : string, codeMap !! code = LotusActorCodes !! code)
  /\ (forall (code : string) (t : LotusType),
        LotusActorCodes !! code = Some t -> t <> "systemActor" ->
        is_Some (LotusPrototypes !! t) /\ ResolveType t = t)
  /\ LotusPrototypes !! "systemActor" = None.
Proof.
  split; [reflexivity|]. split; [|reflexivity].
  intros code t. unfold LotusActorCodes. cbn [list_to_map foldr fst snd uncurry].
  repeat (rewrite lookup_insert; case_decide;
          [intros [= <-] Hs; first [ congruence | split; vm_compute; eauto ]|]).
  rewrite lookup_empty. discriminate.
Qed.


(** ** The switch-based revision *)

Section SwitchEdges.
Context `{Collaborators}.

(** X23.  The switch-based [Transform] fetches the block before it looks at
    the type a second time: for a path that resolves to no known type it
    returns the error of the store when the block is missing, and the
    unknown-type error only when the block is there.  (The registry-based
    [Transform] reports the unknown type without asking the store.) *)
Theorem Switch_Transform_fetches_before_type_check (c : Cid) (store : Blockstore)
    (as_ : string) :
  LotusPrototypes !! Switch.ResolveType as_ = None ->
  Switch.Transform c store as_
  = match store c with
    | Ok _ => Err ("unknown type: " ++ as_)
    | Err e => Err e
    | Panic msg => Panic msg
    end
  /\ (LotusPrototypes !! ResolveType as_ = None ->
      Transform c store as_ = Err ("unknown type: " ++ as_)).
Proof.
  intros Hnone. split.
  - unfold Switch.Transform, Switch.blockAssembler.
    set (t := Switch.ResolveType as_) in *.
    repeat match goal with
           | |- context [String.eqb t ?K] =>
               let Hf := fresh "Hf" in
               assert (String.eqb t K = false) as Hf
                 by (apply String.eqb_neq; intros Heq; rewrite Heq in Hnone;
                     vm_compute in Hnone; discriminate Hnone);
               rewrite !Hf; clear Hf
           end.
    cbn [orb]. unfold rbind. destruct (store c); reflexivity.
  - intros Hn. unfold Transform. now rewrite Hn.
Qed.

End SwitchEdges.

Lemma Switch_Transform_fetches_before_type_check_witness :
  LotusPrototypes !! Switch.ResolveType "bogus.path" = None
  /\ Switch.Transform (H := Example.world) {| str := "no-such-block" |} Example.store
       "bogus.path"
     = Err "blockstore: block not found"
  /\ Switch.Transform (H := Example.world) Example.cidAmt Example.store "bogus.path"
     = Err "unknown type: bogus.path".
Proof.
  split; [reflexivity|]. split.
  - exact (proj1 (Switch_Transform_fetches_before_type_check (H := Example.world)
                    {| str := "no-such-block" |} Example.store "bogus.path" eq_refl)).
  - reflexivity.
Defined.


(** ** Errors of the sink *)

Section SinkErrors.
Context {S : Type}.
Variable Step : S -> Token -> S * option error.
Context `{Codecs}.

Local Open Scope tok_scope.

Lemma stops_tbind {A B} (m : T (Watched S) A) (f : A -> T (Watched S) B) :
  stopsAtError m -> (forall a, stopsAtError (f a)) -> stopsAtError (tbind m f).
Proof.
  intros Hm Hf w He Hs. unfold tbind. specialize (Hm w He Hs).
  destruct (m w) as [[w1 [a|e|msg]]|]; [| | |exact I].
  - destruct Hm as [Hs1 He1]. apply Hf; [|exact Hs1].
    destruct (firstError w1); [discriminate He1 | reflexivity].
  - destruct Hm as [Hs1 He1]. split; [exact Hs1|].
    destruct (firstError w1); [now injection He1 as -> | exact I].
  - destruct Hm as [Hs1 He1]. split; [exact Hs1|].
    destruct (firstError w1); [discriminate He1 | exact I].
Qed.

Lemma stops_step tk : stopsAtError (step (watch Step) tk).
Proof.
  intros w He Hs. unfold step, watch. rewrite He, Hs. cbn [fst snd].
  destruct (Step (sink w) tk) as [s1 [e|]]; cbn [fst snd firstError steppedAfterError];
    split; reflexivity.
Qed.

Lemma stops_tlift {A} (r : result A) : stopsAtError (S := S) (tlift r).
Proof. intros w He Hs. unfold tlift. rewrite He, Hs. split; reflexivity. Qed.

Lemma stops_tret {A} (a : A) : stopsAtError (S := S) (tret a).
Proof. intros w He Hs. unfold tret. rewrite He, Hs. split; reflexivity. Qed.

Lemma stops_marshalEntries rec d tk es :
  (forall d n, stopsAtError (rec d n)) ->
  stopsAtError (marshalEntries (watch Step) rec d tk es).
Proof.
  intros Hrec. revert tk. induction es as [|[k v] es IH]; intros tk.
  - apply stops_tret.
  - cbn [marshalEntries].
    apply stops_tbind; [apply stops_tlift|intros str].
    apply stops_tbind; [apply stops_tlift|intros str'].
    apply stops_tbind; [apply stops_step|intros _].
    apply stops_tbind; [apply Hrec|intros _]. apply IH.
Qed.

Lemma stops_marshalElems rec d i vs :
  (forall d n, stopsAtError (rec d n)) ->
  stopsAtError (S := S) (marshalElems rec d i vs).
Proof.
  intros Hrec. revert i. induction vs as [|v vs IH]; intros i.
  - apply stops_tret.
  - cbn [marshalElems]. apply stops_tbind; [apply Hrec|intros _]. apply IH.
Qed.

Lemma stops_MarshalRecursive fuel :
  forall d n, stopsAtError (MarshalRecursive (watch Step) fuel d n).
Proof.
  induction fuel as [|fuel IH]; intros d n; [intros w _ _; exact I|].
  destruct n as [| |es|vs|b|i|f|ty v|ty v|lnk]; cbn [MarshalRecursive].
  - apply stops_tlift.
  - apply stops_step.
  - apply stops_tbind; [apply stops_step|intros _].
    apply stops_tbind; [|intros; apply stops_step].
    apply stops_marshalEntries, IH.
  - apply stops_tbind; [apply stops_step|intros _].
    apply stops_tbind; [|intros; apply stops_step].
    apply stops_marshalElems, IH.
  - apply stops_step.
  - apply stops_step.
  - apply stops_step.
  - apply stops_tbind; [apply stops_tlift|intros; apply stops_step].
  - unfold marshalBytes. apply stops_tbind; [|intros; apply stops_step].
    destruct ty;
      repeat first [ apply stops_tret | apply stops_tlift | apply stops_step
                   | apply stops_tbind | intros ? ].
  - destruct lnk as [c|descr]; [|apply stops_tlift].
    destruct (loadLink d c); [apply IH|].
    unfold marshalLinkTokens.
    repeat first [ apply stops_step | apply stops_tbind | intros ? ].
Qed.

(** X24.  The first error of the sink ends the walk: [MarshalRecursive]
    hands no further token to a sink that has returned an error, and returns
    that very error, whatever the node, the loader and the codecs. *)
Theorem Marshal_stops_at_first_sink_error (fuel : nat) (d : DagMarshaler) (n : Node)
    (s : S) (w : Watched S) (r : result unit) :
  MarshalRecursive (watch Step) fuel d n
    {| sink := s; firstError := None; steppedAfterError := false |} = Some (w, r) ->
  steppedAfterError w = false
  /\ match firstError w with Some e => r = Err e | None => True end.
Proof.
  intros Hrun.
  pose proof (stops_MarshalRecursive fuel d n
                {| sink := s; firstError := None; steppedAfterError := false |}
                eq_refl eq_refl) as Hstop.
  rewrite Hrun in Hstop. exact Hstop.
Qed.

End SinkErrors.

Lemma Marshal_stops_at_first_sink_error_witness :
  MarshalRecursive (H := ExampleCodecs.codecs) (watch noBoolStep) 2
    {| Loader_ := None; Path_ := [] |} (ListNode [IntNode 1; BoolNode true; IntNode 2])
    {| sink := []; firstError := None; steppedAfterError := false |}
  = Some ({| sink := [ArrOpenTok 3; IntTok 1; BoolTok true];
             firstError := Some "sink: no booleans";
             steppedAfterError := false |}, Err "sink: no booleans")
  /\ steppedAfterError {| sink := [ArrOpenTok 3; IntTok 1; BoolTok true];
                          firstError := Some "sink: no booleans";
                          steppedAfterError := false |} = false.
Proof.
  split; [reflexivity|].
  exact (proj1 (Marshal_stops_at_first_sink_error (H := ExampleCodecs.codecs) noBoolStep 2
                  {| Loader_ := None; Path_ := [] |}
                  (ListNode [IntNode 1; BoolNode true; IntNode 2]) []
                  {| sink := [ArrOpenTok 3; IntTok 1; BoolTok true];
                     firstError := Some "sink: no booleans";
                     steppedAfterError := false |}
                  (Err "sink: no booleans") eq_refl)).
Defined.
